(** * News portal backend: event clustering, story synthesis and job guard

    A shallow embedding of the clustering service (tokenizer, similarity
    scorer, greedy cluster builder, story materialisation), of the synthesis
    service, of the scheduler's single-flight guard and of the line report
    of the migration runner, followed by the properties established about
    them.

    Conventions of the embedding:
    - a JavaScript number is a [num]: [NaN], the two infinities, or a finite
      value carried as a real number (rounding of doubles is not modelled);
      counts and term frequencies, which stay exact integers, are [nat];
    - strings are byte strings; the tokenizer only ever keeps ASCII word
      characters, every other byte ends up as a separator;
    - a [Set] or [Map] of the source is an insertion-ordered list;
      the [assigned] id set of the cluster builder is a [gset string];
    - the database, the text-generation service and the clock are
      collaborators: their answers are read from the [World]. *)

From Stdlib Require Import Reals Lra ZArith String Ascii List.
From stdpp Require Import gmap strings list sets sorting.

Local Open Scope string_scope.
Local Open Scope list_scope.
Local Open Scope nat_scope.

(** ** JavaScript numbers *)

Module Num.

Inductive num : Type :=
| NaN
| NegInf
| Fin (r : R)
| PosInf.

(** [a + b] *)
Definition add (a b : num) : num :=
  match a, b with
  | NaN, _ | _, NaN => NaN
  | PosInf, NegInf | NegInf, PosInf => NaN
  | PosInf, _ | _, PosInf => PosInf
  | NegInf, _ | _, NegInf => NegInf
  | Fin x, Fin y => Fin (x + y)
  end.

(** [a >= b]; every comparison with [NaN] is false. *)
Definition geb (a b : num) : bool :=
  match a, b with
  | NaN, _ | _, NaN => false
  | _, NegInf => true
  | PosInf, _ => true
  | NegInf, _ => false
  | Fin _, PosInf => false
  | Fin x, Fin y => if Rle_dec y x then true else false
  end.

(** [Math.min(a, b)] *)
Definition min (a b : num) : num :=
  match a, b with
  | NaN, _ | _, NaN => NaN
  | NegInf, _ | _, NegInf => NegInf
  | PosInf, x | x, PosInf => x
  | Fin x, Fin y => Fin (Rmin x y)
  end.

(** [i / u] for two array or set sizes. *)
Definition ratio (i u : nat) : num :=
  match u, i with
  | O, O => NaN
  | O, S _ => PosInf
  | S _, _ => Fin (INR i / INR u)
  end.

(** [x / n] where [n] is a count (an array length or a literal). *)
Definition div_count (x : num) (n : nat) : num :=
  match n, x with
  | _, NaN => NaN
  | _, PosInf => PosInf
  | _, NegInf => NegInf
  | O, Fin r =>
      match total_order_T r 0 with
      | inleft (left _) => NegInf
      | inleft (right _) => NaN
      | inright _ => PosInf
      end
  | S _, Fin r => Fin (r / INR n)
  end.

(** The order of the extended reals, for stating bounds; nothing is
    related to [NaN]. *)
Definition le (a b : num) : Prop :=
  match a, b with
  | NaN, _ | _, NaN => False
  | NegInf, _ => True
  | _, PosInf => True
  | Fin x, Fin y => (x <= y)%R
  | _, _ => False
  end.

Definition is_nan (a : num) : bool :=
  match a with NaN => true | _ => false end.

End Num.

Export Num (num, NaN, NegInf, Fin, PosInf).

(** ** Tokenizer *)

Definition code (c : ascii) : nat := nat_of_ascii c.

Definition is_upper (c : ascii) : bool := (65 <=? code c) && (code c <=? 90).
Definition is_lower (c : ascii) : bool := (97 <=? code c) && (code c <=? 122).
Definition is_digit (c : ascii) : bool := (48 <=? code c) && (code c <=? 57).

(** [\w] *)
Definition is_word (c : ascii) : bool :=
  is_upper c || is_lower c || is_digit c || (code c =? 95).

(** [\s], restricted to ASCII: tab, line feed, vertical tab, form feed,
    carriage return, space. *)
Definition is_space (c : ascii) : bool :=
  ((9 <=? code c) && (code c <=? 13)) || (code c =? 32).

Fixpoint string_map (f : ascii -> ascii) (s : string) : string :=
  match s with
  | EmptyString => EmptyString
  | String c s' => String (f c) (string_map f s')
  end.

(** [.toLowerCase()] on the ASCII letters. No other character is a word
    character, so whether it is lowered does not matter to the tokenizer
    (the two code points that JavaScript lowers to an ASCII letter, U+212A
    and U+0130, are not followed). *)
Definition toLowerCase (s : string) : string :=
  string_map (fun c => if is_upper c then ascii_of_nat (code c + 32) else c) s.

(** [.replace(/[^\w\s]/g, ' ')] *)
Definition strip_punctuation (s : string) : string :=
  string_map (fun c => if is_word c || is_space c then c else " "%char) s.

(** [.split(/\s+/)]: the pieces between maximal runs of white space; a
    leading or trailing run leaves an empty first or last piece. [piece]
    is the piece being read, [in_run] tells that the previous character
    was white space. *)
Fixpoint split_ws (s : string) (piece : string) (in_run : bool) : list string :=
  match s with
  | EmptyString => [piece]
  | String c s' =>
      if is_space c then
        if in_run then split_ws s' piece true
        else piece :: split_ws s' "" true
      else split_ws s' (piece ++ String c "")%string false
  end.

Definition stopWords : list string :=
  [ "the"; "a"; "an"; "and"; "or"; "but"; "in"; "on"; "at"; "to"; "for";
    "of"; "with"; "by"; "from"; "is"; "are"; "was"; "were"; "be"; "been";
    "being"; "have"; "has"; "had"; "do"; "does"; "did"; "will"; "would";
    "could"; "should"; "may"; "might"; "must"; "shall"; "can"; "need";
    "its"; "it"; "this"; "that"; "these"; "those"; "he"; "she"; "they";
    "we"; "you"; "i"; "his"; "her"; "their"; "our"; "your"; "my"; "as";
    "said"; "says"; "according"; "also"; "just"; "about"; "after"; "before";
    "new"; "first"; "last"; "year"; "years"; "day"; "days"; "time"; "more";
    "some"; "any"; "all"; "most"; "other"; "into"; "over"; "such"; "no";
    "not"; "only"; "than"; "then"; "now"; "out"; "up"; "down"; "so"; "if" ].

Definition tokenize (text : string) : list string :=
  filter (fun word => Is_true ((2 <? String.length word)
                               && negb (existsb (String.eqb word) stopWords)))
         (split_ws (strip_punctuation (toLowerCase text)) "" false).

(** ** Sets and maps of the similarity scorer *)

(** [Set<string>], in insertion order. *)
Definition Set_has (s : list string) (x : string) : bool := bool_decide (x ∈ s).

Definition Set_add (s : list string) (x : string) : list string :=
  if Set_has s x then s else s ++ [x].

(** [new Set(xs)] *)
Definition Set_of (xs : list string) : list string := fold_left Set_add xs [].

(** [Map<string, number>], in insertion order. *)
Fixpoint Map_get (m : list (string * nat)) (k : string) : option nat :=
  match m with
  | [] => None
  | (k', v) :: m' => if String.eqb k' k then Some v else Map_get m' k
  end.

Fixpoint Map_set (m : list (string * nat)) (k : string) (v : nat)
  : list (string * nat) :=
  match m with
  | [] => [(k, v)]
  | (k', v') :: m' =>
      if String.eqb k' k then (k', v) :: m' else (k', v') :: Map_set m' k v
  end.

Definition Map_keys (m : list (string * nat)) : list string := map fst m.

(** [tokens.forEach(t => freq.set(t, (freq.get(t) || 0) + 1))] *)
Definition term_frequencies (tokens : list string) : list (string * nat) :=
  fold_left (fun freq t => Map_set freq t (default 0 (Map_get freq t) + 1))
            tokens [].

(** ** Similarity scorer *)

Definition jaccardSimilarity (tokens1 tokens2 : list string) : num :=
  let set1 := Set_of tokens1 in
  let set2 := Set_of tokens2 in
  let intersection := Set_of (filter (fun x => Is_true (Set_has set2 x)) set1) in
  let union := Set_of (set1 ++ set2) in
  Num.ratio (length intersection) (length union).

(** The three accumulators of [cosineSimilarity] after the loop over all
    terms: dot product and the two squared magnitudes. *)
Definition cosine_sums (tokens1 tokens2 : list string) : nat * nat * nat :=
  let freq1 := term_frequencies tokens1 in
  let freq2 := term_frequencies tokens2 in
  let allTerms := Set_of (Map_keys freq1 ++ Map_keys freq2) in
  fold_left
    (fun '(dotProduct, magnitude1, magnitude2) term =>
       let v1 := default 0 (Map_get freq1 term) in
       let v2 := default 0 (Map_get freq2 term) in
       (dotProduct + v1 * v2, magnitude1 + v1 * v1, magnitude2 + v2 * v2))
    allTerms (0, 0, 0).

Definition cosineSimilarity (tokens1 tokens2 : list string) : num :=
  let '(dotProduct, magnitude1, magnitude2) := cosine_sums tokens1 tokens2 in
  if (magnitude1 =? 0) || (magnitude2 =? 0) then Fin 0
  else Fin (INR dotProduct / (sqrt (INR magnitude1) * sqrt (INR magnitude2))).

Record Article : Type := {
  id : string;
  title : string;
  excerpt : string;
  url : string;
  source : string;
  published_at : string;
  image_url : option string;
}.

#[global] Instance Article_eq_dec : EqDecision Article.
Proof. solve_decision. Defined.

Record Cluster : Type := {
  articles : list Article;
  similarity : num;
}.

Definition article_text (a : Article) : string :=
  (title a ++ " " ++ excerpt a)%string.

Definition calculateSimilarity (article1 article2 : Article) : num :=
  let tokens1 := tokenize (article_text article1) in
  let tokens2 := tokenize (article_text article2) in
  let jaccard := jaccardSimilarity tokens1 tokens2 in
  let cosine := cosineSimilarity tokens1 tokens2 in
  Num.div_count (Num.add jaccard cosine) 2.

(** ** Cluster builder *)

Section Clustering.

(** [new Date(s).getTime()]: the time value of a date string in
    milliseconds, [None] standing for the [NaN] of an invalid date. *)
Variable Date_getTime : string -> option Z.

(** The comparator handed to [sort]:
    [new Date(b.published_at).getTime() - new Date(a.published_at).getTime()]. *)
Definition by_recency (a b : Article) : option Z :=
  match Date_getTime (published_at b), Date_getTime (published_at a) with
  | Some tb, Some ta => Some (tb - ta)%Z
  | _, _ => None
  end.

(** [x] has to move behind [y]: the comparator is positive on [(x, y)].
    A [NaN] result counts as zero. *)
Definition moves_behind (x y : Article) : bool :=
  match by_recency x y with
  | Some v => (0 <? v)%Z
  | None => false
  end.

(** [Array.prototype.sort] is stable; it is modelled by the stable
    insertion sort. Whenever the comparator is a consistent one (here: all
    dates valid) every stable sort returns this same list. *)
Fixpoint sort_insert (x : Article) (l : list Article) : list Article :=
  match l with
  | [] => [x]
  | y :: l' => if moves_behind x y then y :: sort_insert x l' else x :: l
  end.

Definition sort_by_recency (l : list Article) : list Article :=
  foldr sort_insert [] l.

(** [similarities.reduce((a, b) => a + b, 0) / similarities.length] for the
    members of the cluster under construction. *)
Definition avgSimilarity (members : list Article) (candidate : Article) : num :=
  let similarities := map (fun a => calculateSimilarity a candidate) members in
  Num.div_count (fold_left Num.add similarities (Fin 0)) (length similarities).

(** One turn of the inner loop [for (const candidate of sorted)]. *)
Definition consider (threshold : num) (st : gset string * Cluster)
    (candidate : Article) : gset string * Cluster :=
  let '(assigned, cluster) := st in
  if decide (id candidate ∈ assigned) then st
  else
    let avg := avgSimilarity (articles cluster) candidate in
    if Num.geb avg threshold then
      ({[ id candidate ]} ∪ assigned,
       {| articles := articles cluster ++ [candidate];
          similarity := Num.min (similarity cluster) avg |})
    else st.

(** One turn of the outer loop [for (const article of sorted)]. *)
Definition open_cluster (threshold : num) (sorted : list Article)
    (st : gset string * list Cluster) (article : Article)
  : gset string * list Cluster :=
  let '(assigned, clusters) := st in
  if decide (id article ∈ assigned) then st
  else
    let seed := {| articles := [article]; similarity := Fin 1 |} in
    let '(assigned', cluster) :=
      fold_left (consider threshold) sorted ({[ id article ]} ∪ assigned, seed) in
    (assigned', clusters ++ [cluster]).

Definition clusterArticles (input : list Article) (threshold : num)
  : list Cluster :=
  let sorted := sort_by_recency input in
  snd (fold_left (open_cluster threshold sorted) sorted (∅, [])).

(** The default value of the [threshold] parameter. *)
Definition default_threshold : num := Fin (35 / 100).

End Clustering.

(** The averages at which the members after the first were admitted:
    each later member against the members that preceded it. *)
Fixpoint admissions (members later : list Article) : list num :=
  match later with
  | [] => []
  | c :: later' => avgSimilarity members c :: admissions (members ++ [c]) later'
  end.

Definition admission_averages (members : list Article) : list num :=
  match members with
  | [] => []
  | seed :: later => admissions [seed] later
  end.

(** The score after the first [k] admissions. *)
Definition score_after (members : list Article) (k : nat) : num :=
  fold_left Num.min (take k (admission_averages members)) (Fin 1).

(** ** Synthesis results *)

Record Citation : Type := {
  cit_source : string;
  cit_article_id : string;
}.

Record SynthesisSection : Type := {
  sec_title : string;
  sec_content : string;
  sec_citations : list Citation;
}.

Record ExtractedEntity : Type := {
  ent_name : string;
  ent_type : string;
  ent_role : string;
  ent_context : string;
}.

Record EntityConnection : Type := {
  con_source : string;
  con_target : string;
  con_relationship : string;
  con_evidence : string;
  con_strength : num;
}.

Record ImpactPrediction : Type := {
  imp_sector : string;
  imp_type : string;
  imp_severity : num;
  imp_prediction : string;
  imp_confidence : num;
}.

(** The interface declares every field present, but a result that comes out
    of [JSON.parse] is not checked against it: a key the payload lacks reads
    as [undefined], here [None]. *)
Record SynthesisResult : Type := {
  syn_title : option string;
  syn_summary : option string;
  syn_sections : list SynthesisSection;
  syn_entities : option (list ExtractedEntity);
  syn_connections : option (list EntityConnection);
  syn_impacts : option (list ImpactPrediction);
}.

(** What [JSON.parse] hands back, before the citations are mapped. *)
Record RawCitation : Type := {
  raw_cit_source : string;
  raw_article_index : option Z;
}.

Record RawSection : Type := {
  raw_sec_title : string;
  raw_sec_content : string;
  raw_sec_citations : option (list RawCitation);
}.

Record RawSynthesis : Type := {
  raw_title : option string;
  raw_summary : option string;
  raw_sections : option (list RawSection);
  raw_entities : option (list ExtractedEntity);
  raw_connections : option (list EntityConnection);
  raw_impacts : option (list ImpactPrediction);
}.

(** The answer of the text-generation service to one request, as far as
    [synthesizeArticles] can tell answers apart. Trimming the content and
    removing a Markdown fence happen before [JSON.parse] and are part of
    what makes a content parse or not. *)
Inductive Completion : Type :=
| Rejected                    (* the request throws *)
| NoContent                   (* no choice, no message or an empty content *)
| Unparsable                  (* a content that [JSON.parse] rejects *)
| Payload (p : RawSynthesis). (* a content that parses *)

(** ** The world: database tables and collaborators *)

(** An identifier generated by the database; never the empty string, so
    always truthy. *)
Definition Uuid : Type := nat.

Record StoryRow : Type := {
  story_id : Uuid;
  story_title : string;
  story_summary : option string;
  story_synthesis : list SynthesisSection;
  story_hero_image_url : option string;
  story_status : string;
  story_published_at : string;
}.

Record StoryArticleRow : Type := {
  sa_story_id : Uuid;
  sa_article_id : string;
  sa_relevance_score : num;
}.

Record EntityRow : Type := {
  entity_id : Uuid;
  entity_name : string;
  entity_type : string;
}.

Record StoryEntityRow : Type := {
  se_story_id : Uuid;
  se_entity_id : Uuid;
  se_role : string;
  se_context : string;
}.

Record ConnectionRow : Type := {
  source_entity_id : Uuid;
  target_entity_id : Uuid;
  relationship_type : string;
  relationship_label : string;
  strength : num;
  evidence : string;
  conn_story_id : Uuid;
}.

Record ImpactRow : Type := {
  impact_story_id : Uuid;
  impact_sector_id : string;
  impact_type : string;
  impact_severity : num;
  impact_prediction : string;
  impact_confidence : num;
}.

(** A row of the recent-articles query, joined with its source name. *)
Record ArticleRow : Type := {
  row_id : string;
  row_title : string;
  row_excerpt : option string;
  row_url : string;
  row_published_at : string;
  row_image_url : option string;
  row_source_name : option string;
}.

Record World : Type := {
  (* tables *)
  stories : list StoryRow;
  story_articles : list StoryArticleRow;
  entities : list EntityRow;
  story_entities : list StoryEntityRow;
  entity_connections : list ConnectionRow;
  story_impacts : list ImpactRow;
  (* the rows of [articles] inside the trailing window, newest first and
     capped, as the first query of [getUnassignedArticles] returns them *)
  recent_articles : list ArticleRow;
  (* the next identifier the database generates *)
  next_uuid : Uuid;
  (* [new Date().toISOString()] *)
  clock : string;
  (* the answers of the text-generation service to the coming requests;
     once they run out, requests are rejected *)
  completions : list Completion;
  (* for each coming database request, whether it is rejected (a network
     failure or a refusal this model has no rule for); once they run out,
     requests are served *)
  faults : list bool;
}.

Definition with_stories (x : list StoryRow) (w : World) : World :=
  {| stories := x; story_articles := story_articles w; entities := entities w;
     story_entities := story_entities w; entity_connections := entity_connections w;
     story_impacts := story_impacts w; recent_articles := recent_articles w;
     next_uuid := next_uuid w; clock := clock w; completions := completions w;
     faults := faults w |}.

Definition with_story_articles (x : list StoryArticleRow) (w : World) : World :=
  {| stories := stories w; story_articles := x; entities := entities w;
     story_entities := story_entities w; entity_connections := entity_connections w;
     story_impacts := story_impacts w; recent_articles := recent_articles w;
     next_uuid := next_uuid w; clock := clock w; completions := completions w;
     faults := faults w |}.

Definition with_entities (x : list EntityRow) (w : World) : World :=
  {| stories := stories w; story_articles := story_articles w; entities := x;
     story_entities := story_entities w; entity_connections := entity_connections w;
     story_impacts := story_impacts w; recent_articles := recent_articles w;
     next_uuid := next_uuid w; clock := clock w; completions := completions w;
     faults := faults w |}.

Definition with_story_entities (x : list StoryEntityRow) (w : World) : World :=
  {| stories := stories w; story_articles := story_articles w; entities := entities w;
     story_entities := x; entity_connections := entity_connections w;
     story_impacts := story_impacts w; recent_articles := recent_articles w;
     next_uuid := next_uuid w; clock := clock w; completions := completions w;
     faults := faults w |}.

Definition with_entity_connections (x : list ConnectionRow) (w : World) : World :=
  {| stories := stories w; story_articles := story_articles w; entities := entities w;
     story_entities := story_entities w; entity_connections := x;
     story_impacts := story_impacts w; recent_articles := recent_articles w;
     next_uuid := next_uuid w; clock := clock w; completions := completions w;
     faults := faults w |}.

Definition with_story_impacts (x : list ImpactRow) (w : World) : World :=
  {| stories := stories w; story_articles := story_articles w; entities := entities w;
     story_entities := story_entities w; entity_connections := entity_connections w;
     story_impacts := x; recent_articles := recent_articles w;
     next_uuid := next_uuid w; clock := clock w; completions := completions w;
     faults := faults w |}.

Definition with_next_uuid (x : Uuid) (w : World) : World :=
  {| stories := stories w; story_articles := story_articles w; entities := entities w;
     story_entities := story_entities w; entity_connections := entity_connections w;
     story_impacts := story_impacts w; recent_articles := recent_articles w;
     next_uuid := x; clock := clock w; completions := completions w;
     faults := faults w |}.

Definition with_completions (x : list Completion) (w : World) : World :=
  {| stories := stories w; story_articles := story_articles w; entities := entities w;
     story_entities := story_entities w; entity_connections := entity_connections w;
     story_impacts := story_impacts w; recent_articles := recent_articles w;
     next_uuid := next_uuid w; clock := clock w; completions := x;
     faults := faults w |}.

Definition with_faults (x : list bool) (w : World) : World :=
  {| stories := stories w; story_articles := story_articles w; entities := entities w;
     story_entities := story_entities w; entity_connections := entity_connections w;
     story_impacts := story_impacts w; recent_articles := recent_articles w;
     next_uuid := next_uuid w; clock := clock w; completions := completions w;
     faults := x |}.

(** ** Effects: world passing with exceptions *)

Inductive Exn : Type :=
| TypeError              (* reading through [undefined] *)
| Error (msg : string).  (* [throw new Error(msg)] *)

Definition Eff (A : Type) : Type := World -> (Exn + A) * World.

Definition ret {A} (x : A) : Eff A := fun w => (inr x, w).

Definition throw {A} (e : Exn) : Eff A := fun w => (inl e, w).

Definition bind {A B} (m : Eff A) (k : A -> Eff B) : Eff B :=
  fun w =>
    match m w with
    | (inr x, w') => k x w'
    | (inl e, w') => (inl e, w')
    end.

(** [try { body } catch (error) { handler }] *)
Definition try_catch {A} (body : Eff A) (handler : Exn -> Eff A) : Eff A :=
  fun w =>
    match body w with
    | (inr x, w') => (inr x, w')
    | (inl e, w') => handler e w'
    end.

#[global] Instance Eff_ret : MRet Eff := @ret.
#[global] Instance Eff_bind : MBind Eff := fun A B k m => bind m k.

(** [for (const x of xs) body] *)
Fixpoint for_each {A} (body : A -> Eff unit) (xs : list A) : Eff unit :=
  match xs with
  | [] => ret tt
  | x :: xs' => body x;; for_each body xs'
  end.

(** [xs.map(f)] with an effectful [f] *)
Fixpoint map_each {A B} (f : A -> Eff B) (xs : list A) : Eff (list B) :=
  match xs with
  | [] => ret []
  | x :: xs' => y ← f x; ys ← map_each f xs'; ret (y :: ys)
  end.

(** Reading a property that has to be there: iterating over, or calling a
    method of, [undefined] throws a [TypeError]. *)
Definition defined {A} (x : option A) : Eff A :=
  match x with
  | Some v => ret v
  | None => throw TypeError
  end.

Definition get_world : Eff World := fun w => (inr w, w).

Definition modify (f : World -> World) : Eff unit := fun w => (inr tt, f w).

(** ** Synthesis service *)

(** [xs.join(sep)] *)
Fixpoint join (sep : string) (xs : list string) : string :=
  match xs with
  | [] => ""
  | [x] => x
  | x :: xs' => (x ++ sep ++ join sep xs')%string
  end.

(** The next answer of the text-generation service; the answer is used
    up. *)
Definition next_completion : Eff Completion :=
  fun w => (inr (default Rejected (head (completions w))),
            with_completions (tail (completions w)) w).

(** The request, reading the content of the first choice, and
    [JSON.parse]. The prompt that is sent is not represented. *)
Definition request_synthesis : Eff RawSynthesis :=
  c ← next_completion;
  match c with
  | Rejected => throw (Error "request rejected")
  | NoContent => throw (Error "No content returned from Groq")
  | Unparsable => throw (Error "SyntaxError")
  | Payload p => ret p
  end.

(** [articles[i]] for an index read from the payload. *)
Definition article_at (articles : list Article) (i : Z) : option Article :=
  if (0 <=? i)%Z then articles !! Z.to_nat i else None.

(** [{ source: citation.source,
       article_id: articles[articleIndex]?.id || articles[0].id }] *)
Definition resolve_citation (articles : list Article) (first : Article)
    (citation : RawCitation) : Citation :=
  let articleIndex := default 0%Z (raw_article_index citation) in
  {| cit_source := raw_cit_source citation;
     cit_article_id :=
       match article_at articles articleIndex with
       | Some a => if String.eqb (id a) "" then id first else id a
       | None => id first
       end |}.

(** The body of the [try] block. *)
Definition attempt_synthesis (articles : list Article) (first : Article)
  : Eff SynthesisResult :=
  result ← request_synthesis;
  sections ← defined (raw_sections result);
  sections' ← map_each
    (fun section =>
       citations ← defined (raw_sec_citations section);
       ret {| sec_title := raw_sec_title section;
              sec_content := raw_sec_content section;
              sec_citations := map (resolve_citation articles first) citations |})
    sections;
  ret {| syn_title := raw_title result;
         syn_summary := raw_summary result;
         syn_sections := sections';
         syn_entities := raw_entities result;
         syn_connections := raw_connections result;
         syn_impacts := raw_impacts result |}.

(** [`${a.excerpt} [${a.source}]`] *)
Definition tagged_excerpt (a : Article) : string :=
  (excerpt a ++ " [" ++ source a ++ "]")%string.

(** The one section of the basic synthesis. *)
Definition summary_section (articles : list Article) : SynthesisSection :=
  {| sec_title := "Summary";
     sec_content := join " " (map tagged_excerpt articles);
     sec_citations :=
       map (fun a => {| cit_source := source a; cit_article_id := id a |})
           articles |}.

(** The value returned from the [catch] block. *)
Definition basic_synthesis (articles : list Article) (first : Article)
  : SynthesisResult :=
  {| syn_title := Some (title first);
     syn_summary := Some (excerpt first);
     syn_sections := [summary_section articles];
     syn_entities := Some [];
     syn_connections := Some [];
     syn_impacts := Some [] |}.

Definition synthesizeArticles (articles : list Article) : Eff SynthesisResult :=
  match articles with
  | [] => throw (Error "No articles provided for synthesis")
  | first :: _ =>
      try_catch (attempt_synthesis articles first)
                (fun _ => ret (basic_synthesis articles first))
  end.

(** ** Database requests *)

(** Whether the coming database request is served. *)
Definition next_served (w : World) : bool :=
  match faults w with
  | [] => true
  | f :: _ => negb f
  end.

(** The world once a database request has been answered. *)
Definition after_request (w : World) : World :=
  with_faults (tail (faults w)) w.

(** One database request: whether it is served. *)
Definition served : Eff bool :=
  fun w => (inr (next_served w), after_request w).

Definition fresh_uuid : Eff Uuid :=
  fun w => (inr (next_uuid w), with_next_uuid (S (next_uuid w)) w).

(** [from('stories').insert({...}).select('id').single()]; [title] is
    [NOT NULL]. [None] is a result with an error and no row. *)
Definition stories_insert (title summary : option string)
    (sections : list SynthesisSection) (hero : option string)
  : Eff (option Uuid) :=
  ok ← served;
  match ok, title with
  | true, Some t =>
      i ← fresh_uuid;
      modify (fun w =>
        with_stories
          (stories w ++
             [ {| story_id := i; story_title := t; story_summary := summary;
                  story_synthesis := sections; story_hero_image_url := hero;
                  story_status := "published";
                  story_published_at := clock w |} ]) w);;
      ret (Some i)
  | _, _ => ret None
  end.

(** [from('story_articles').insert(rows)]: one statement, all rows or none;
    the primary key is (story_id, article_id). *)
Definition story_articles_insert (rows : list StoryArticleRow) : Eff unit :=
  ok ← served;
  modify (fun w =>
    let key r := (sa_story_id r, sa_article_id r) in
    if ok && bool_decide (NoDup (map key (story_articles w ++ rows)))
    then with_story_articles (story_articles w ++ rows) w
    else w).

(** [from('entities').insert({name, type}).select('id').single()];
    (name, type) is unique. *)
Definition entities_insert (name type : string) : Eff (option Uuid) :=
  ok ← served;
  w ← get_world;
  if ok && negb (existsb (fun e => String.eqb (entity_name e) name
                                    && String.eqb (entity_type e) type)
                         (entities w))
  then
    i ← fresh_uuid;
    modify (fun w =>
      with_entities
        (entities w ++ [ {| entity_id := i; entity_name := name;
                            entity_type := type |} ]) w);;
    ret (Some i)
  else ret None.

(** [from('story_entities').upsert(row)]: without a conflict target the
    statement resolves conflicts on the generated primary key only, so a
    row that repeats (story_id, entity_id) is refused. *)
Definition story_entities_upsert (row : StoryEntityRow) : Eff unit :=
  ok ← served;
  modify (fun w =>
    if ok && negb (existsb (fun r => (se_story_id r =? se_story_id row)
                                     && (se_entity_id r =? se_entity_id row))
                           (story_entities w))
    then with_story_entities (story_entities w ++ [row]) w
    else w).

Definition same_triple (a b : ConnectionRow) : bool :=
  (source_entity_id a =? source_entity_id b)
  && (target_entity_id a =? target_entity_id b)
  && String.eqb (relationship_type a) (relationship_type b).

(** [INSERT ... ON CONFLICT (source_entity_id, target_entity_id,
    relationship_type) DO UPDATE]: the row with the same triple takes the
    new values; without one the row is added. *)
Fixpoint upsert_connection (row : ConnectionRow) (table : list ConnectionRow)
  : list ConnectionRow :=
  match table with
  | [] => [row]
  | r :: table' =>
      if same_triple r row then row :: table'
      else r :: upsert_connection row table'
  end.

(** [from('entity_connections').upsert(row, { onConflict: ... })] *)
Definition entity_connections_upsert (row : ConnectionRow) : Eff unit :=
  ok ← served;
  modify (fun w =>
    if ok : bool
    then with_entity_connections (upsert_connection row (entity_connections w)) w
    else w).

(** [from('story_impacts').insert(rows)]: one statement, all rows or none;
    (story_id, sector_id) is unique. *)
Definition story_impacts_insert (rows : list ImpactRow) : Eff unit :=
  ok ← served;
  modify (fun w =>
    let key r := (impact_story_id r, impact_sector_id r) in
    if ok && bool_decide (NoDup (map key (story_impacts w ++ rows)))
    then with_story_impacts (story_impacts w ++ rows) w
    else w).

(** ** Story materialisation and the clustering job *)

Record JobResult : Type := {
  articlesProcessed : nat;
  storiesCreated : nat;
  clusters : nat;
}.

(** A non-empty string; [undefined], [null] and [''] are falsy. *)
Definition truthy (s : option string) : bool :=
  match s with
  | Some s => negb (String.eqb s "")
  | None => false
  end.

(** [connection.relationship.replace(/_/g, ' ')] *)
Definition relationship_label_of (relationship : string) : string :=
  string_map (fun c => if Ascii.eqb c "_"%char then " "%char else c) relationship.

Section Pipeline.

Variable Date_getTime : string -> option Z.

(** [name ILIKE pattern] as the database evaluates it. *)
Variable ilike : string -> string -> bool.

(** What [.ilike('name', pattern).single()] finds in the table: a row
    only when exactly one entity matches. *)
Definition resolve (table : list EntityRow) (pattern : string) : option Uuid :=
  match filter (fun e => Is_true (ilike (entity_name e) pattern)) table with
  | [e] => Some (entity_id e)
  | _ => None
  end.

(** [from('entities').select('id').ilike('name', pattern).single()] *)
Definition entities_find (pattern : string) : Eff (option Uuid) :=
  ok ← served;
  w ← get_world;
  ret (if ok : bool then resolve (entities w) pattern else None).

Definition to_article (a : ArticleRow) : Article :=
  {| id := row_id a;
     title := row_title a;
     excerpt := if truthy (row_excerpt a) then default "" (row_excerpt a) else "";
     url := row_url a;
     source := if truthy (row_source_name a)
               then default "" (row_source_name a) else "Unknown";
     published_at := row_published_at a;
     image_url := row_image_url a |}.

Definition getUnassignedArticles : Eff (list Article) :=
  ok ← served;
  if negb ok then ret []
  else
    w ← get_world;
    let data := recent_articles w in
    let articleIds := map row_id data in
    ok' ← served;
    let existingLinks :=
      if ok' : bool
      then filter (fun i => i ∈ articleIds) (map sa_article_id (story_articles w))
      else [] in
    ret (map to_article (filter (fun a => row_id a ∉ existingLinks) data)).

(** The body of [for (const entity of synthesis.entities)]. *)
Definition save_entity (story : Uuid) (entity : ExtractedEntity) : Eff unit :=
  existingEntity ← entities_find (ent_name entity);
  entityId ← match existingEntity with
             | Some i => ret (Some i)
             | None => entities_insert (ent_name entity) (ent_type entity)
             end;
  match entityId with
  | None => ret tt
  | Some i =>
      story_entities_upsert
        {| se_story_id := story; se_entity_id := i;
           se_role := ent_role entity; se_context := ent_context entity |}
  end.

(** The body of [for (const connection of synthesis.connections)]. *)
Definition save_connection (story : Uuid) (connection : EntityConnection)
  : Eff unit :=
  sourceEntity ← entities_find (con_source connection);
  targetEntity ← entities_find (con_target connection);
  match sourceEntity, targetEntity with
  | Some s, Some t =>
      entity_connections_upsert
        {| source_entity_id := s;
           target_entity_id := t;
           relationship_type := con_relationship connection;
           relationship_label := relationship_label_of (con_relationship connection);
           strength := con_strength connection;
           evidence := con_evidence connection;
           conn_story_id := story |}
  | _, _ => ret tt
  end.

Definition impact_row (story : Uuid) (impact : ImpactPrediction) : ImpactRow :=
  {| impact_story_id := story;
     impact_sector_id := imp_sector impact;
     impact_type := imp_type impact;
     impact_severity := imp_severity impact;
     impact_prediction := imp_prediction impact;
     impact_confidence := imp_confidence impact |}.

(** [articles.find(a => a.image_url)?.image_url] *)
Definition hero_image (articles : list Article) : option string :=
  a ← List.find (fun a => truthy (image_url a)) articles;
  image_url a.

(** The part of the [try] block that runs once the story row exists. *)
Definition fill_story (cluster : Cluster) (synthesis : SynthesisResult)
    (story_id : Uuid) : Eff (option Uuid) :=
  story_articles_insert
    (map (fun a => {| sa_story_id := story_id; sa_article_id := id a;
                      sa_relevance_score := similarity cluster |})
         (articles cluster));;
  found ← defined (syn_entities synthesis);
  for_each (save_entity story_id) found;;
  connections ← defined (syn_connections synthesis);
  for_each (save_connection story_id) connections;;
  impacts ← defined (syn_impacts synthesis);
  (if 0 <? length impacts
   then story_impacts_insert (map (impact_row story_id) impacts)
   else ret tt);;
  ret (Some story_id).

(** The body of the [try] block of [createStoryFromCluster]. *)
Definition materialize (cluster : Cluster) : Eff (option Uuid) :=
  synthesis ← synthesizeArticles (articles cluster);
  let heroImage := hero_image (articles cluster) in
  story ← stories_insert (syn_title synthesis) (syn_summary synthesis)
                         (syn_sections synthesis) heroImage;
  match story with
  | None => ret None
  | Some story_id => fill_story cluster synthesis story_id
  end.

Definition createStoryFromCluster (cluster : Cluster) : Eff (option Uuid) :=
  if length (articles cluster) <? 2 then ret None
  else try_catch (materialize cluster) (fun _ => ret None).

(** The loop [for (const cluster of validClusters)] with its counter. *)
Fixpoint create_stories (validClusters : list Cluster) (storiesCreated : nat)
  : Eff nat :=
  match validClusters with
  | [] => ret storiesCreated
  | cluster :: rest =>
      storyId ← createStoryFromCluster cluster;
      create_stories rest
        (if storyId is Some _ then storiesCreated + 1 else storiesCreated)
  end.

Definition runClusteringJob : Eff JobResult :=
  input ← getUnassignedArticles;
  if length input <? 2
  then ret {| articlesProcessed := 0; storiesCreated := 0; clusters := 0 |}
  else
    let found := clusterArticles Date_getTime input default_threshold in
    let validClusters :=
      filter (fun c => Is_true (2 <=? length (articles c))) found in
    created ← create_stories validClusters 0;
    ret {| articlesProcessed := length input;
           storiesCreated := created;
           clusters := length validClusters |}.

End Pipeline.

(** ** Scheduler: the running flag of each job *)

Module Scheduler.

Inductive Job : Type := Ingestion | Clustering.

#[global] Instance Job_eq_dec : EqDecision Job.
Proof. solve_decision. Defined.

(** How the awaited job body ended. *)
Inductive Settled : Type :=
| Fulfilled (result : string)
| Failed (error : string).

(** [{ lastRun, isRunning, lastResult }] *)
Record Status : Type := {
  lastRun : option string;
  isRunning : bool;
  lastResult : option Settled;
}.

(** [jobStatus], and next to it the bookkeeping of the model: how many
    times the body of each job was entered and how many of these runs have
    not ended yet. *)
Record State : Type := {
  jobStatus : Job -> Status;
  executions : Job -> nat;
  in_flight : Job -> nat;
}.

Definition update {A} (job : Job) (x : A) (f : Job -> A) : Job -> A :=
  fun k => if decide (k = job) then x else f k.

Definition init : State :=
  {| jobStatus := fun _ => {| lastRun := None; isRunning := false;
                              lastResult := None |};
     executions := fun _ => 0;
     in_flight := fun _ => 0 |}.

(** A call of [runIngestionJob] or [runClusteringJobWrapper], up to its
    first [await]: either the early return, or the flag is set and the body
    is entered. *)
Definition trigger (job : Job) (now : string) (s : State) : State :=
  let st := jobStatus s job in
  if isRunning st then s
  else
    {| jobStatus := update job {| lastRun := Some now; isRunning := true;
                                  lastResult := lastResult st |} (jobStatus s);
       executions := update job (S (executions s job)) (executions s);
       in_flight := update job (S (in_flight s job)) (in_flight s) |}.

Definition runIngestionJob : string -> State -> State := trigger Ingestion.

Definition runClusteringJobWrapper : string -> State -> State :=
  trigger Clustering.

(** The rest of that call once the body has ended: the assignment after
    the [await] or the [catch] block, then the [finally] block. *)
Definition settle (job : Job) (outcome : Settled) (s : State) : option State :=
  match in_flight s job with
  | O => None
  | S n =>
      let st := jobStatus s job in
      Some {| jobStatus := update job {| lastRun := lastRun st; isRunning := false;
                                         lastResult := Some outcome |} (jobStatus s);
              executions := executions s;
              in_flight := update job n (in_flight s) |}
  end.

Inductive Event : Type :=
| Trigger (job : Job) (now : string)
| Settle (job : Job) (outcome : Settled).

Definition step (s : State) (e : Event) : option State :=
  match e with
  | Trigger job now => Some (trigger job now s)
  | Settle job outcome => settle job outcome s
  end.

Fixpoint run (s : State) (events : list Event) : option State :=
  match events with
  | [] => Some s
  | e :: events' =>
      match step s e with
      | Some s' => run s' events'
      | None => None
      end
  end.

(** The states the scheduler can be in. *)
Inductive reachable : State -> Prop :=
| reachable_init : reachable init
| reachable_step s e s' : reachable s -> step s e = Some s' -> reachable s'.

Definition settles (job : Job) (e : Event) : bool :=
  match e with
  | Settle job' _ => bool_decide (job' = job)
  | Trigger _ _ => false
  end.

Definition triggers (job : Job) (e : Event) : bool :=
  match e with
  | Trigger job' _ => bool_decide (job' = job)
  | Settle _ _ => false
  end.

End Scheduler.


(** ** Vocabulary of the statements *)

(** The date of an article is a valid one. *)
Definition dated (Date_getTime : string -> option Z) (a : Article) : Prop :=
  is_Some (Date_getTime (published_at a)).

(** [a] was published at the time of [b] or later. *)
Definition not_older (Date_getTime : string -> option Z) (a b : Article) : Prop :=
  exists ta tb,
    Date_getTime (published_at a) = Some ta
    /\ Date_getTime (published_at b) = Some tb
    /\ (tb <= ta)%Z.

(** All members of the clusters of a list, cluster after cluster. *)
Definition members_of (found : list Cluster) : list Article :=
  concat (map articles found).

(** The bookkeeping of the cluster builder: the members so far are
    articles of the sorted list, no two of them carry the same id, and the
    ids marked assigned are exactly the ids of the members. *)
Record tracked (sorted : list Article) (assigned : gset string)
    (members : list Article) : Prop := {
  members_sorted : forall x, x ∈ members -> x ∈ sorted;
  members_ids : NoDup (map id members);
  members_assigned : forall i, i ∈ assigned <-> i ∈ map id members;
}.

(** What holds of a cluster at every moment of its construction: it has a
    first member, every later member was admitted with an average of at
    least the threshold, and the score is the minimum of 1 and these
    averages. *)
Definition well_grown (threshold : num) (C : Cluster) : Prop :=
  (exists seed later, articles C = seed :: later)
  /\ Forall (fun v => Num.geb v threshold = true) (admission_averages (articles C))
  /\ similarity C = fold_left Num.min (admission_averages (articles C)) (Fin 1).

(** The Jaccard index in the words of the specification: the size of the
    intersection of the two token sets over the size of their union, and 0
    when the union is empty. *)
Definition jaccard_index (tokens1 tokens2 : list string) : num :=
  let set1 : gset string := list_to_set tokens1 in
  let set2 : gset string := list_to_set tokens2 in
  if decide (size (set1 ∪ set2) = 0) then Fin 0
  else Fin (INR (size (set1 ∩ set2)) / INR (size (set1 ∪ set2))).

(** A number between 0 and 1. *)
Definition in_unit_interval (x : num) : Prop :=
  exists v, x = Fin v /\ (0 <= v <= 1)%R.

(** The [try] block of [synthesizeArticles] ends in an exception. *)
Definition synthesis_fails (articles : list Article) (first : Article)
    (w : World) : Prop :=
  exists e, (attempt_synthesis articles first w).1 = inl e.

(** The story row written for a synthesis that fell back on the basic
    one. *)
Definition basic_story (cluster : Cluster) (first : Article) (w : World)
  : StoryRow :=
  {| story_id := next_uuid w;
     story_title := title first;
     story_summary := Some (excerpt first);
     story_synthesis := [summary_section (articles cluster)];
     story_hero_image_url := hero_image (articles cluster);
     story_status := "published";
     story_published_at := clock w |}.

(** The unique key of [entity_connections]. *)
Definition triple (r : ConnectionRow) : Uuid * Uuid * string :=
  (source_entity_id r, target_entity_id r, relationship_type r).

(** The row that [save_connection] writes when both names resolve. *)
Definition connection_row (story src tgt : Uuid) (connection : EntityConnection)
  : ConnectionRow :=
  {| source_entity_id := src;
     target_entity_id := tgt;
     relationship_type := con_relationship connection;
     relationship_label := relationship_label_of (con_relationship connection);
     strength := con_strength connection;
     evidence := con_evidence connection;
     conn_story_id := story |}.

(** The coming [n] database requests are served. *)
Definition served_next (n : nat) (w : World) : Prop :=
  Forall (fun f => f = false) (take n (faults w)).

(** Two worlds hold the same rows. *)
Definition same_tables (w w' : World) : Prop :=
  stories w' = stories w
  /\ story_articles w' = story_articles w
  /\ entities w' = entities w
  /\ story_entities w' = story_entities w
  /\ entity_connections w' = entity_connections w
  /\ story_impacts w' = story_impacts w.

(** An observation of the world does not look at a field. *)
Definition ignores {X Y} (f : World -> X) (set : Y -> World -> World) : Prop :=
  forall y w, f (set y w) = f w.

(** A computation leaves an observation of the world as it was. *)
Definition preserves {A X} (f : World -> X) (m : Eff A) : Prop :=
  forall w, f (m w).2 = f w.

(** A computation ends without an exception, whatever the world. *)
Definition returns {A} (m : Eff A) : Prop :=
  forall w, exists x, (m w).1 = inr x.

(** A computation ends with the value [v], whatever the world. *)
Definition yields {A} (m : Eff A) (v : A) : Prop :=
  forall w, (m w).1 = inr v.

(** ** Sample data *)

(** The time values of three dates, as every engine computes them; the
    engine of the samples reads no other string as a date. *)
Definition sample_getTime (s : string) : option Z :=
  if String.eqb s "2026-01-18T10:00:00Z" then Some 1768730400000%Z
  else if String.eqb s "2026-01-18T09:00:00Z" then Some 1768726800000%Z
  else if String.eqb s "2026-01-18T08:00:00Z" then Some 1768723200000%Z
  else None.

(** [ILIKE] on patterns without wild cards: equality up to letter case. *)
Definition sample_ilike (value pattern : string) : bool :=
  String.eqb (toLowerCase value) (toLowerCase pattern).

(** Four reports of one event with the same text: two agencies, one
    earlier wire, and one whose date does not parse. *)
Definition rates_ap : Article :=
  {| id := "a1";
     title := "Central bank raises interest rates";
     excerpt := "Markets react";
     url := "https://news.example/ap/rates";
     source := "AP";
     published_at := "2026-01-18T10:00:00Z";
     image_url := None |}.

Definition rates_reuters : Article :=
  {| id := "a2";
     title := "Central bank raises interest rates";
     excerpt := "Markets react";
     url := "https://news.example/reuters/rates";
     source := "Reuters";
     published_at := "2026-01-18T09:00:00Z";
     image_url := Some "https://news.example/reuters/rates.jpg" |}.

Definition rates_earlier : Article :=
  {| id := "a3";
     title := "Central bank raises interest rates";
     excerpt := "Markets react";
     url := "https://news.example/wire/rates";
     source := "Wire";
     published_at := "2026-01-18T08:00:00Z";
     image_url := None |}.

Definition rates_undated : Article :=
  {| id := "a4";
     title := "Central bank raises interest rates";
     excerpt := "Markets react";
     url := "https://news.example/blog/rates";
     source := "Blog";
     published_at := "yesterday evening";
     image_url := None |}.

(** An article that carries the id of [rates_ap]. *)
Definition storm_same_id : Article :=
  {| id := "a1";
     title := "Storm hits the northern coast";
     excerpt := "Thousands evacuated";
     url := "https://news.example/ap/storm";
     source := "AP";
     published_at := "2026-01-18T09:00:00Z";
     image_url := None |}.

(** Two articles whose text has no token left after the stop words and
    the short words are removed. *)
Definition blank_one : Article :=
  {| id := "b1";
     title := "Is it so?";
     excerpt := "";
     url := "https://news.example/b1";
     source := "AP";
     published_at := "2026-01-18T10:00:00Z";
     image_url := None |}.

Definition blank_two : Article :=
  {| id := "b2";
     title := "Up or down";
     excerpt := "";
     url := "https://news.example/b2";
     source := "Reuters";
     published_at := "2026-01-18T09:00:00Z";
     image_url := None |}.

Definition rates_cluster : Cluster :=
  {| articles := [rates_ap; rates_reuters]; similarity := Fin 1 |}.

(** A cluster of one article. *)
Definition lone_cluster : Cluster :=
  {| articles := [rates_ap]; similarity := Fin 1 |}.

Definition empty_world : World :=
  {| stories := []; story_articles := []; entities := [];
     story_entities := []; entity_connections := []; story_impacts := [];
     recent_articles := []; next_uuid := 1;
     clock := "2026-01-18T12:00:00.000Z";
     completions := []; faults := [] |}.

(** The text-generation service answers with an empty content. *)
Definition silent_world : World := with_completions [NoContent] empty_world.

(** Two known entities and two reports of the same relationship. *)
Definition graph_world : World :=
  with_entities
    [ {| entity_id := 1; entity_name := "Jane Doe"; entity_type := "person" |};
      {| entity_id := 2; entity_name := "Acme Corp"; entity_type := "company" |} ]
    (with_next_uuid 3 empty_world).

Definition first_report : EntityConnection :=
  {| con_source := "Jane Doe"; con_target := "Acme Corp";
     con_relationship := "works_for";
     con_evidence := "Named as chief executive";
     con_strength := Fin (8 / 10) |}.

Definition second_report : EntityConnection :=
  {| con_source := "jane doe"; con_target := "ACME CORP";
     con_relationship := "works_for";
     con_evidence := "Signed the annual report";
     con_strength := Fin (6 / 10) |}.

(** The two agency reports as the recent-articles query returns them. *)
Definition rates_rows : list ArticleRow :=
  [ {| row_id := "a1"; row_title := "Central bank raises interest rates";
       row_excerpt := Some "Markets react";
       row_url := "https://news.example/ap/rates";
       row_published_at := "2026-01-18T10:00:00Z";
       row_image_url := None; row_source_name := Some "AP" |};
    {| row_id := "a2"; row_title := "Central bank raises interest rates";
       row_excerpt := Some "Markets react";
       row_url := "https://news.example/reuters/rates";
       row_published_at := "2026-01-18T09:00:00Z";
       row_image_url := Some "https://news.example/reuters/rates.jpg";
       row_source_name := Some "Reuters" |} ].

(** A payload that parses and has its sections, but no [entities] key. *)
Definition payload_without_entities : RawSynthesis :=
  {| raw_title := Some "Central bank raises rates";
     raw_summary := Some "The central bank raised interest rates.";
     raw_sections :=
       Some [ {| raw_sec_title := "Summary";
                 raw_sec_content := "Rates went up [AP].";
                 raw_sec_citations :=
                   Some [ {| raw_cit_source := "AP";
                             raw_article_index := Some 0%Z |} ] |} ];
     raw_entities := None;
     raw_connections := Some [];
     raw_impacts := Some [] |}.

(** The two agency reports are recent and unassigned, and the
    text-generation service answers with that payload. *)
Definition entityless_world : World :=
  {| stories := []; story_articles := []; entities := [];
     story_entities := []; entity_connections := []; story_impacts := [];
     recent_articles := rates_rows; next_uuid := 1;
     clock := "2026-01-18T12:00:00.000Z";
     completions := [Payload payload_without_entities]; faults := [] |}.

(** ** Vocabulary of the tokenizer statements *)

(** The characters of a string. *)
Definition chars (s : string) : list ascii := list_ascii_of_string s.

(** A character that a token can hold: [a-z0-9_]. *)
Definition is_token_char (c : ascii) : bool :=
  is_lower c || is_digit c || (code c =? 95).

(** What the tokenizer lets through: a word of at least three characters
    among [a-z0-9_] that is not a stop word. *)
Definition clean_token (t : string) : Prop :=
  2 < String.length t
  /\ (t ∉ stopWords)
  /\ Forall (fun c => Is_true (is_token_char c)) (chars t).

(** ** Vocabulary of the similarity statements *)

(** How often a token occurs in a list. *)
Definition occurrences (t : string) (tokens : list string) : nat :=
  length (filter (t =.) tokens).

(** Two token lists have a token in common. *)
Definition share_token (tokens1 tokens2 : list string) : Prop :=
  exists t, t ∈ tokens1 /\ t ∈ tokens2.

(** The tokens of an article: those of its title followed by those of its
    excerpt. *)
Definition tokens_of (a : Article) : list string := tokenize (article_text a).

(** ** Further sample data *)

(** The report of the rate decision with its words in another order. *)
Definition rates_reordered : Article :=
  {| id := "a5";
     title := "Interest rates: central bank raises";
     excerpt := "React, markets!";
     url := "https://news.example/daily/rates";
     source := "Daily";
     published_at := "2026-01-18T08:00:00Z";
     image_url := None |}.

(** The same words once more, some of them several times. *)
Definition rates_repeated : Article :=
  {| id := "a6";
     title := "Rates, rates: the central bank raises interest rates";
     excerpt := "Markets react to the central bank";
     url := "https://news.example/wire/rates";
     source := "Wire";
     published_at := "2026-01-18T07:00:00Z";
     image_url := None |}.

(** A report of another event. *)
Definition storm_report : Article :=
  {| id := "s1";
     title := "Storm hits the northern coast";
     excerpt := "Thousands evacuated";
     url := "https://news.example/ap/storm";
     source := "AP";
     published_at := "2026-01-18T09:00:00Z";
     image_url := None |}.

(** ** Vocabulary of the pipeline statements *)

(** Started in a world in which [P] holds, a computation ends, with a
    value or with an exception, in a world in which [Q] holds of its
    outcome. *)
Definition ensures {A} (P : World -> Prop) (m : Eff A)
    (Q : Exn + A -> World -> Prop) : Prop :=
  forall w, P w -> Q (m w).1 (m w).2.

(** A computation keeps a property of the world, however it ends. *)
Definition keeps {A} (I : World -> Prop) (m : Eff A) : Prop :=
  ensures I m (fun _ => I).

Definition story_ids (w : World) : list Uuid := map story_id (stories w).

Definition entity_ids (w : World) : list Uuid := map entity_id (entities w).

(** Referential integrity of the tables the clustering job writes: a row
    that names a story or an entity names one that is stored. *)
Record consistent (w : World) : Prop := {
  links_refer :
    Forall (fun r => sa_story_id r ∈ story_ids w) (story_articles w);
  mentions_refer :
    Forall (fun r => se_story_id r ∈ story_ids w /\ se_entity_id r ∈ entity_ids w)
           (story_entities w);
  connections_refer :
    Forall (fun r => source_entity_id r ∈ entity_ids w
                     /\ target_entity_id r ∈ entity_ids w
                     /\ conn_story_id r ∈ story_ids w)
           (entity_connections w);
  impacts_refer :
    Forall (fun r => impact_story_id r ∈ story_ids w) (story_impacts w);
}.

(** From [w] to [w'] rows were only added: the tables of [w] are the
    beginning of the tables of [w']; for [entity_connections], whose rows
    an upsert rewrites in place, this holds of the keys of the rows. The
    recent articles are the same. *)
Definition grows (w w' : World) : Prop :=
  stories w `prefix_of` stories w'
  /\ story_articles w `prefix_of` story_articles w'
  /\ entities w `prefix_of` entities w'
  /\ story_entities w `prefix_of` story_entities w'
  /\ map triple (entity_connections w) `prefix_of` map triple (entity_connections w')
  /\ story_impacts w `prefix_of` story_impacts w'
  /\ recent_articles w' = recent_articles w.

(** The links of a cluster to the story [story]: one row for each member,
    with the score of the cluster as the relevance score. *)
Definition cluster_links (story : Uuid) (cluster : Cluster) : list StoryArticleRow :=
  map (fun a => {| sa_story_id := story; sa_article_id := id a;
                   sa_relevance_score := similarity cluster |})
      (articles cluster).

(** The primary key of [story_articles]. *)
Definition link_key (r : StoryArticleRow) : Uuid * string :=
  (sa_story_id r, sa_article_id r).

(** ** The interface of the scheduler *)

(** What [getJobStatus()] returns: the status of each job. *)
Record JobStatusReport : Type := {
  report_ingestion : Scheduler.Status;
  report_clustering : Scheduler.Status;
}.

Definition getJobStatus (s : Scheduler.State) : JobStatusReport :=
  {| report_ingestion :=
       {| Scheduler.lastRun := Scheduler.lastRun (Scheduler.jobStatus s Scheduler.Ingestion);
          Scheduler.isRunning := Scheduler.isRunning (Scheduler.jobStatus s Scheduler.Ingestion);
          Scheduler.lastResult := Scheduler.lastResult (Scheduler.jobStatus s Scheduler.Ingestion) |};
     report_clustering :=
       {| Scheduler.lastRun := Scheduler.lastRun (Scheduler.jobStatus s Scheduler.Clustering);
          Scheduler.isRunning := Scheduler.isRunning (Scheduler.jobStatus s Scheduler.Clustering);
          Scheduler.lastResult := Scheduler.lastResult (Scheduler.jobStatus s Scheduler.Clustering) |} |}.

(** The manual triggers of the API. *)
Definition triggerIngestion : string -> Scheduler.State -> Scheduler.State :=
  Scheduler.runIngestionJob.

Definition triggerClustering : string -> Scheduler.State -> Scheduler.State :=
  Scheduler.runClusteringJobWrapper.

(** The part of the report that concerns one job. *)
Definition report_of (job : Scheduler.Job) (r : JobStatusReport) : Scheduler.Status :=
  match job with
  | Scheduler.Ingestion => report_ingestion r
  | Scheduler.Clustering => report_clustering r
  end.

(** ** Migration runner: the line of a failing statement *)

(** [s.split('\n')]; [line] is the line being read. *)
Fixpoint split_lines (s : string) (line : string) : list string :=
  match s with
  | EmptyString => [line]
  | String c s' =>
      if Ascii.eqb c "010"%char then line :: split_lines s' ""
      else split_lines s' (line ++ String c "")%string
  end.

Section Migration.

(** [.trim()] as the engine computes it. *)
Variable String_trim : string -> string.

(** The loop over the lines: [i] is the index of the line, [charCount] the
    count before it is read. The result is the line number and the text
    that the message shows. *)
Fixpoint locate_line (lines : list string) (i charCount : nat) (position : Z)
  : option (nat * string) :=
  match lines with
  | [] => None
  | line :: rest =>
      let charCount := charCount + (String.length line + 1) in
      if (position <=? Z.of_nat charCount)%Z
      then Some (i + 1, String_trim line)
      else locate_line rest (i + 1) charCount position
  end.

(** What [runMigrations] reports about a failed statement whose error
    carries a position: [position] is [parseInt(error.position)], [None]
    when it is [NaN], with which no comparison holds. *)
Definition error_line (migrationSQL : string) (position : option Z)
  : option (nat * string) :=
  match position with
  | None => None
  | Some p => locate_line (split_lines migrationSQL "") 0 0 p
  end.

End Migration.

(** The number of line feeds among the first [n] characters of a text. *)
Definition line_feeds_before (n : nat) (s : string) : nat :=
  length (filter (fun c => c = "010"%char) (take n (chars s))).

(** The separator of the lines. *)
Definition line_feed : string := String "010"%char "".

(** [.trim()] on a text whose white space is ASCII. *)
Definition sample_trim (s : string) : string :=
  let drop := fix drop (l : list ascii) : list ascii :=
    match l with
    | c :: l' => if is_space c then drop l' else l
    | [] => []
    end in
  string_of_list_ascii (rev (drop (rev (drop (list_ascii_of_string s))))).

(** A migration script of two lines with a misspelt keyword in the
    second. *)
Definition sample_script : string :=
  ("CREATE TABLE a (id INT);" ++ line_feed ++ "  CREATE TABEL b (id INT);")%string.

(** ** Vocabulary of the synthesis statements *)

(** A section of the payload with its citations resolved. *)
Definition resolve_section (batch : list Article) (first : Article)
    (section : RawSection) : SynthesisSection :=
  {| sec_title := raw_sec_title section;
     sec_content := raw_sec_content section;
     sec_citations :=
       map (resolve_citation batch first) (default [] (raw_sec_citations section)) |}.

(** A synthesis that has all the lists that [createStoryFromCluster]
    goes through. *)
Definition has_all_lists (syn : SynthesisResult) : Prop :=
  is_Some (syn_entities syn) /\ is_Some (syn_connections syn)
  /\ is_Some (syn_impacts syn).

(** * Properties *)

(** ** Numbers *)

Lemma geb_not_nan_l a b : Num.geb a b = true -> Num.is_nan a = false.
Proof. by destruct a, b. Qed.

Lemma min_not_nan a b :
  Num.is_nan a = false -> Num.is_nan b = false -> Num.is_nan (Num.min a b) = false.
Proof. by destruct a, b. Qed.

Lemma le_refl_not_nan a : Num.is_nan a = false -> Num.le a a.
Proof. destruct a; simpl; try done; intros _; lra. Qed.

Lemma min_le_l a b :
  Num.is_nan a = false -> Num.is_nan b = false -> Num.le (Num.min a b) a.
Proof.
  destruct a, b; simpl; try done; intros _ _; try lra.
  apply Rmin_l.
Qed.

Lemma fold_min_not_nan vs a :
  Num.is_nan a = false ->
  Forall (fun v => Num.is_nan v = false) vs ->
  Num.is_nan (fold_left Num.min vs a) = false.
Proof.
  intros Ha Hvs. revert a Ha.
  induction Hvs as [|v vs Hv _ IH]; intros a Ha; simpl; [done|].
  apply IH. by apply min_not_nan.
Qed.

(** ** Growth of one cluster *)

Lemma admissions_snoc members later c :
  admissions members (later ++ [c])
  = admissions members later ++ [avgSimilarity (members ++ later) c].
Proof.
  revert members. induction later as [|x later IH]; intros members; simpl.
  - by rewrite app_nil_r.
  - by rewrite IH, <- app_assoc.
Qed.

(** Each later member of the list [members ++ candidate :: rest] is
    listed with its average against exactly the members before it. *)
Lemma admission_averages_lookup members candidate rest :
  members <> [] ->
  admission_averages (members ++ candidate :: rest) !! (length members - 1)
  = Some (avgSimilarity members candidate).
Proof.
  destruct members as [|seed later]; [done|intros _]. simpl.
  rewrite Nat.sub_0_r.
  assert (forall ms, admissions ms (later ++ candidate :: rest) !! length later
                     = Some (avgSimilarity (ms ++ later) candidate)) as H.
  { induction later as [|x later IH]; intros ms; simpl.
    - by rewrite app_nil_r.
    - by rewrite IH, <- app_assoc. }
  apply H.
Qed.

Lemma well_grown_seed threshold a :
  well_grown threshold {| articles := [a]; similarity := Fin 1 |}.
Proof. split; [by exists a, []|]. split; [constructor|done]. Qed.

Lemma consider_well_grown threshold assigned C candidate :
  well_grown threshold C ->
  well_grown threshold (consider threshold (assigned, C) candidate).2.
Proof.
  intros HC. unfold consider.
  destruct (decide (id candidate ∈ assigned)); [done|].
  destruct (Num.geb _ threshold) eqn:Hge; [|done].
  destruct HC as ([seed [later Hm]] & Hall & Hscore). simpl.
  rewrite Hm in *. simpl in *.
  split; [by exists seed, (later ++ [candidate])|].
  unfold admission_averages in *. simpl.
  rewrite admissions_snoc. split.
  - apply Forall_app. split; [done|]. by constructor.
  - by rewrite fold_left_app, <- Hscore.
Qed.

Lemma fold_consider_well_grown threshold candidates assigned C :
  well_grown threshold C ->
  well_grown threshold (fold_left (consider threshold) candidates (assigned, C)).2.
Proof.
  revert assigned C.
  induction candidates as [|c candidates IH]; intros assigned C HC; [done|].
  cbn [fold_left].
  pose proof (consider_well_grown threshold assigned C c HC) as H.
  destruct (consider threshold (assigned, C) c) as [assigned' C'].
  by apply IH.
Qed.

Lemma open_cluster_well_grown threshold sorted assigned found article :
  Forall (well_grown threshold) found ->
  Forall (well_grown threshold)
         (open_cluster threshold sorted (assigned, found) article).2.
Proof.
  intros Hfound. unfold open_cluster.
  destruct (decide (id article ∈ assigned)); [done|].
  pose proof (fold_consider_well_grown threshold sorted
                ({[id article]} ∪ assigned) _
                (well_grown_seed threshold article)) as H.
  destruct (fold_left _ sorted _) as [assigned' C]. simpl in *.
  apply Forall_app. split; [done|]. by constructor.
Qed.

Lemma fold_open_cluster_well_grown threshold sorted rest assigned found :
  Forall (well_grown threshold) found ->
  Forall (well_grown threshold)
         (fold_left (open_cluster threshold sorted) rest (assigned, found)).2.
Proof.
  revert assigned found.
  induction rest as [|a rest IH]; intros assigned found Hfound; [done|].
  cbn [fold_left].
  pose proof (open_cluster_well_grown threshold sorted assigned found a Hfound) as H.
  destruct (open_cluster threshold sorted (assigned, found) a) as [assigned' found'].
  by apply IH.
Qed.

Lemma score_after_step threshold members k :
  Forall (fun v => Num.geb v threshold = true) (admission_averages members) ->
  Num.le (score_after members (S k)) (score_after members k).
Proof.
  intros Hall. unfold score_after.
  assert (Forall (fun v => Num.is_nan v = false) (admission_averages members)) as Hnn.
  { eapply Forall_impl; [exact Hall|]. intros v. apply geb_not_nan_l. }
  destruct (admission_averages members !! k) as [v|] eqn:Hk.
  - rewrite (take_S_r _ _ _ Hk), fold_left_app. simpl.
    apply min_le_l.
    + apply fold_min_not_nan; [done|]. by apply Forall_take.
    + eapply Forall_lookup_1 in Hnn; [|exact Hk]. done.
  - apply lookup_ge_None in Hk.
    rewrite !take_ge by lia.
    apply le_refl_not_nan, fold_min_not_nan; done.
Qed.

Lemma clusterArticles_well_grown
    (Date_getTime : string -> option Z) (input : list Article) (threshold : num) :
  Forall (well_grown threshold) (clusterArticles Date_getTime input threshold).
Proof.
  unfold clusterArticles.
  apply (fold_open_cluster_well_grown threshold). constructor.
Qed.

(** C1: every member after the seed entered its cluster with an average
    similarity to the members already there that is at least the threshold;
    the score of the cluster is the minimum of 1 and these averages, and it
    does not go up from one admission to the next. *)
Theorem clusterArticles_admission
    (Date_getTime : string -> option Z) (input : list Article) (threshold : num) :
  Forall (fun C =>
            (exists seed later, articles C = seed :: later)
            /\ Forall (fun avg => Num.geb avg threshold = true)
                      (admission_averages (articles C))
            /\ similarity C
               = fold_left Num.min (admission_averages (articles C)) (Fin 1)
            /\ forall k, Num.le (score_after (articles C) (S k))
                                (score_after (articles C) k))
         (clusterArticles Date_getTime input threshold).
Proof.
  pose proof (clusterArticles_well_grown Date_getTime input threshold) as H.
  eapply Forall_impl; [exact H|].
  intros C (Hm & Hall & Hscore). repeat split; try done.
  intros k. by eapply score_after_step.
Qed.

(** ** The recency sort *)

Section Sorting.

Context (Date_getTime : string -> option Z).

Lemma sort_insert_perm x l : sort_insert Date_getTime x l ≡ₚ x :: l.
Proof.
  induction l as [|y l IH]; simpl; [done|].
  destruct (moves_behind Date_getTime x y); [|done].
  rewrite IH. apply Permutation_swap.
Qed.

Lemma sort_by_recency_perm l : sort_by_recency Date_getTime l ≡ₚ l.
Proof.
  induction l as [|x l IH]; simpl; [done|].
  by rewrite sort_insert_perm, IH.
Qed.

(** The sort is stable: articles with the same time value, or all with
    an invalid date, keep the order they had in the input. *)
Lemma sort_insert_stable (t : option Z) x l :
  filter (fun a => Date_getTime (published_at a) = t) (sort_insert Date_getTime x l)
  = filter (fun a => Date_getTime (published_at a) = t) (x :: l).
Proof.
  induction l as [|y l IH]; simpl; [done|].
  destruct (moves_behind Date_getTime x y) eqn:E; [|done].
  unfold moves_behind, by_recency in E.
  destruct (Date_getTime (published_at y)) as [ty|] eqn:Hy; [|done].
  destruct (Date_getTime (published_at x)) as [tx|] eqn:Hx; [|done].
  apply Z.ltb_lt in E.
  rewrite (filter_cons _ y), IH, !filter_cons, Hx, Hy.
  repeat case_decide; simplify_eq; try done; lia.
Qed.

Lemma sort_by_recency_stable (t : option Z) l :
  filter (fun a => Date_getTime (published_at a) = t) (sort_by_recency Date_getTime l)
  = filter (fun a => Date_getTime (published_at a) = t) l.
Proof.
  induction l as [|x l IH]; simpl; [done|].
  by rewrite sort_insert_stable, !filter_cons, IH.
Qed.

Lemma not_older_trans a b c :
  not_older Date_getTime a b -> not_older Date_getTime b c ->
  not_older Date_getTime a c.
Proof.
  intros (ta & tb & Ha & Hb & Hab) (tb' & tc & Hb' & Hc & Hbc).
  exists ta, tc. repeat split; try done.
  rewrite Hb in Hb'. injection Hb' as <-. lia.
Qed.

Lemma sort_insert_sorted x l :
  dated Date_getTime x -> Forall (dated Date_getTime) l ->
  StronglySorted (not_older Date_getTime) l ->
  StronglySorted (not_older Date_getTime) (sort_insert Date_getTime x l).
Proof.
  intros [tx Hx] Hl Hs.
  induction l as [|y l IH]; simpl.
  - repeat constructor.
  - apply Forall_cons in Hl as [[ty Hy] Hl].
    apply StronglySorted_cons in Hs as [Hyl Hs].
    unfold moves_behind, by_recency. rewrite Hx, Hy.
    destruct (0 <? ty - tx)%Z eqn:E.
    + apply Z.ltb_lt in E.
      apply StronglySorted_cons. split; [|by apply IH].
      rewrite sort_insert_perm. constructor; [|done].
      exists ty, tx. repeat split; try done. lia.
    + apply Z.ltb_ge in E.
      assert (not_older Date_getTime x y) as Hxy.
      { exists tx, ty. repeat split; try done. lia. }
      apply StronglySorted_cons. split.
      * constructor; [done|].
        eapply Forall_impl; [exact Hyl|]. intros z Hz.
        by eapply not_older_trans.
      * by apply StronglySorted_cons.
Qed.

Lemma sort_by_recency_sorted l :
  Forall (dated Date_getTime) l ->
  StronglySorted (not_older Date_getTime) (sort_by_recency Date_getTime l).
Proof.
  induction 1 as [|x l Hx Hl IH]; simpl; [constructor|].
  apply sort_insert_sorted; [done| |done].
  by rewrite sort_by_recency_perm.
Qed.

End Sorting.

(** ** The inner loop *)

Lemma consider_assigned threshold assigned C candidate :
  id candidate ∈ assigned ->
  consider threshold (assigned, C) candidate = (assigned, C).
Proof. intros H. unfold consider. by rewrite decide_True. Qed.

Lemma fold_consider_skip threshold candidates assigned C :
  (forall c, c ∈ candidates -> id c ∈ assigned) ->
  fold_left (consider threshold) candidates (assigned, C) = (assigned, C).
Proof.
  induction candidates as [|c candidates IH]; intros H; [done|].
  cbn [fold_left]. rewrite consider_assigned by (apply H; constructor).
  apply IH. intros c' Hc'. apply H. by constructor.
Qed.

(** The three ways a turn of the inner loop can go. *)
Lemma consider_cases threshold assigned C candidate :
  consider threshold (assigned, C) candidate = (assigned, C)
  \/ ((id candidate ∉ assigned)
      /\ consider threshold (assigned, C) candidate
         = ({[ id candidate ]} ∪ assigned,
            {| articles := articles C ++ [candidate];
               similarity := Num.min (similarity C)
                               (avgSimilarity (articles C) candidate) |})).
Proof.
  unfold consider. destruct (decide (id candidate ∈ assigned)); [by left|].
  destruct (Num.geb _ threshold); [by right|by left].
Qed.

Lemma fold_consider_grows threshold candidates assigned C :
  let result := fold_left (consider threshold) candidates (assigned, C) in
  assigned ⊆ result.1
  /\ exists added, articles result.2 = articles C ++ added
                   /\ (added `sublist_of` candidates).
Proof.
  revert assigned C.
  induction candidates as [|c candidates IH]; intros assigned C; cbn [fold_left].
  - split; [done|]. exists []. by rewrite app_nil_r.
  - destruct (consider_cases threshold assigned C c) as [E|[_ E]]; rewrite E.
    + destruct (IH assigned C) as (Hsub & added & Hm & Hs).
      split; [done|]. exists added. split; [done|]. by apply sublist_cons.
    + destruct (IH ({[id c]} ∪ assigned)
                   {| articles := articles C ++ [c];
                      similarity := Num.min (similarity C)
                                      (avgSimilarity (articles C) c) |})
        as (Hsub & added & Hm & Hs).
      split; [by etrans; [apply union_subseteq_r|exact Hsub]|].
      exists (c :: added). split.
      * rewrite Hm. simpl. by rewrite <- app_assoc.
      * by apply sublist_skip.
Qed.

(** ** Clusters follow the sorted order *)

Lemma open_cluster_ordered threshold before article after assigned found :
  (forall x, x ∈ before -> id x ∈ assigned) ->
  let sorted := before ++ article :: after in
  let result := open_cluster threshold sorted (assigned, found) article in
  Forall (fun C => articles C `sublist_of` sorted) found ->
  (forall x, x ∈ before ++ [article] -> id x ∈ result.1)
  /\ Forall (fun C => articles C `sublist_of` sorted) result.2.
Proof.
  intros Hbefore sorted result Hfound. subst result. unfold open_cluster.
  destruct (decide (id article ∈ assigned)) as [Hin|Hout]; simpl.
  - split; [|done]. intros x Hx. apply elem_of_app in Hx as [Hx|Hx]; [by apply Hbefore|].
    apply list_elem_of_singleton in Hx. by subst.
  - subst sorted.
    replace (before ++ article :: after) with ((before ++ [article]) ++ after) in *
      by (by rewrite <- app_assoc).
    rewrite fold_left_app.
    rewrite fold_consider_skip.
    2:{ intros c Hc. apply elem_of_app in Hc as [Hc|Hc].
        - apply elem_of_union_r. by apply Hbefore.
        - apply list_elem_of_singleton in Hc. subst. set_solver. }
    pose proof (fold_consider_grows threshold after ({[id article]} ∪ assigned)
                  {| articles := [article]; similarity := Fin 1 |}) as H.
    destruct (fold_left _ after _) as [assigned' C]. simpl in *.
    destruct H as (Hsub & added & Hm & Hs). split.
    + intros x Hx. apply Hsub. apply elem_of_app in Hx as [Hx|Hx].
      * apply elem_of_union_r. by apply Hbefore.
      * apply list_elem_of_singleton in Hx. subst. set_solver.
    + apply Forall_app. split; [done|]. constructor; [|done].
      rewrite Hm. rewrite <- app_assoc. apply sublist_inserts_l.
      simpl. by apply sublist_skip.
Qed.

Lemma fold_open_cluster_ordered threshold after before assigned found :
  (forall x, x ∈ before -> id x ∈ assigned) ->
  let sorted := before ++ after in
  Forall (fun C => articles C `sublist_of` sorted) found ->
  Forall (fun C => articles C `sublist_of` sorted)
         (fold_left (open_cluster threshold sorted) after (assigned, found)).2.
Proof.
  revert before assigned found.
  induction after as [|a after IH]; intros before assigned found Hbefore sorted Hfound;
    [done|].
  cbn [fold_left]. subst sorted.
  pose proof (open_cluster_ordered threshold before a after assigned found
                Hbefore Hfound) as [H1 H2].
  destruct (open_cluster threshold (before ++ a :: after) (assigned, found) a)
    as [assigned' found'].
  replace (before ++ a :: after) with ((before ++ [a]) ++ after) in *
    by (by rewrite <- app_assoc).
  by apply IH.
Qed.

Lemma clusterArticles_sublist Date_getTime input threshold :
  Forall (fun C => articles C `sublist_of` sort_by_recency Date_getTime input)
         (clusterArticles Date_getTime input threshold).
Proof.
  unfold clusterArticles.
  apply (fold_open_cluster_ordered threshold (sort_by_recency Date_getTime input) []).
  - intros x Hx. by apply elem_of_nil in Hx.
  - constructor.
Qed.

(** ** Clusters partition the input *)

Lemma same_id_same_article (l : list Article) x y :
  NoDup (map id l) -> x ∈ l -> y ∈ l -> id x = id y -> x = y.
Proof.
  induction l as [|z l IH]; intros Hnd Hx Hy Hid; [by apply elem_of_nil in Hx|].
  simpl in Hnd. apply NoDup_cons in Hnd as [Hz Hnd].
  apply elem_of_cons in Hx as [->|Hx]; apply elem_of_cons in Hy as [->|Hy].
  - done.
  - exfalso. apply Hz. rewrite Hid. by apply list_elem_of_fmap_2.
  - exfalso. apply Hz. rewrite <- Hid. by apply list_elem_of_fmap_2.
  - by apply IH.
Qed.

Lemma tracked_add sorted assigned members c :
  c ∈ sorted -> id c ∉ assigned ->
  tracked sorted assigned members ->
  tracked sorted ({[ id c ]} ∪ assigned) (members ++ [c]).
Proof.
  intros Hc Hout [Hs Ho Ha]. split.
  - intros x Hx. apply elem_of_app in Hx as [Hx|Hx]; [by apply Hs|].
    apply list_elem_of_singleton in Hx. by subst.
  - rewrite map_app. cbn [map].
    apply NoDup_app. split; [done|]. split; [|apply NoDup_singleton].
    intros i Hi Hi'. apply list_elem_of_singleton in Hi'. subst.
    apply Hout. by apply Ha.
  - intros i. rewrite map_app. cbn [map].
    rewrite elem_of_union, elem_of_singleton, elem_of_app,
      list_elem_of_singleton, (Ha i). tauto.
Qed.

Lemma fold_consider_tracked threshold sorted closed candidates assigned C :
  (forall c, c ∈ candidates -> c ∈ sorted) ->
  tracked sorted assigned (closed ++ articles C) ->
  let result := fold_left (consider threshold) candidates (assigned, C) in
  tracked sorted result.1 (closed ++ articles result.2).
Proof.
  revert assigned C.
  induction candidates as [|c candidates IH]; intros assigned C Hin Hinv;
    cbn [fold_left]; [done|].
  assert (forall c', c' ∈ candidates -> c' ∈ sorted) as Hin'
    by (intros c' Hc'; apply Hin; by constructor).
  destruct (consider_cases threshold assigned C c) as [E|[Hout E]]; rewrite E.
  - by apply IH.
  - apply IH; [done|]. simpl. rewrite app_assoc.
    apply tracked_add; try done. apply Hin. constructor.
Qed.

Lemma open_cluster_tracked threshold sorted assigned found article :
  article ∈ sorted ->
  tracked sorted assigned (members_of found) ->
  let result := open_cluster threshold sorted (assigned, found) article in
  tracked sorted result.1 (members_of result.2)
  /\ assigned ⊆ result.1 /\ id article ∈ result.1.
Proof.
  intros Hin Hinv. unfold open_cluster.
  destruct (decide (id article ∈ assigned)) as [Ha|Ha]; simpl; [done|].
  pose proof (fold_consider_tracked threshold sorted (members_of found) sorted
                ({[id article]} ∪ assigned)
                {| articles := [article]; similarity := Fin 1 |}
                (fun c H => H)) as H1.
  pose proof (fold_consider_grows threshold sorted ({[id article]} ∪ assigned)
                {| articles := [article]; similarity := Fin 1 |}) as [H2 _].
  destruct (fold_left _ sorted _) as [assigned' C]. simpl in *.
  split; [|split].
  - unfold members_of. rewrite map_app, concat_app. simpl. rewrite app_nil_r.
    apply H1. by apply tracked_add.
  - etrans; [|exact H2]. apply union_subseteq_r.
  - apply H2. apply elem_of_union_l. by apply elem_of_singleton.
Qed.

Lemma fold_open_cluster_tracked threshold sorted rest assigned found :
  (forall a, a ∈ rest -> a ∈ sorted) ->
  tracked sorted assigned (members_of found) ->
  let result := fold_left (open_cluster threshold sorted) rest (assigned, found) in
  tracked sorted result.1 (members_of result.2)
  /\ assigned ⊆ result.1
  /\ forall a, a ∈ rest -> id a ∈ result.1.
Proof.
  revert assigned found.
  induction rest as [|a rest IH]; intros assigned found Hin Hinv; cbn [fold_left].
  - split; [done|]. split; [done|]. intros a Ha. by apply elem_of_nil in Ha.
  - pose proof (open_cluster_tracked threshold sorted assigned found a
                  (Hin a ltac:(constructor)) Hinv) as (H1 & H2 & H3).
    destruct (open_cluster threshold sorted (assigned, found) a)
      as [assigned' found']. simpl in *.
    destruct (IH assigned' found') as (H4 & H5 & H6); [|done|].
    { intros a' Ha'. apply Hin. by constructor. }
    split; [done|]. split; [by etrans|].
    intros a' Ha'. apply elem_of_cons in Ha' as [->|Ha']; [by apply H5|by apply H6].
Qed.

Lemma tracked_initial sorted : tracked sorted ∅ (members_of []).
Proof.
  split.
  - intros x Hx. by apply elem_of_nil in Hx.
  - constructor.
  - intros i. split; intros H; [by apply not_elem_of_empty in H|by apply elem_of_nil in H].
Qed.

(** The builder takes the id for the article: whatever the input, every
    member of a cluster is an input article, no id is carried by two
    members, and every id of the input is carried by a member. *)
Lemma clusterArticles_ids
    (Date_getTime : string -> option Z) (input : list Article) (threshold : num) :
  let found := clusterArticles Date_getTime input threshold in
  (forall x, x ∈ members_of found -> x ∈ input)
  /\ NoDup (map id (members_of found))
  /\ (forall i, i ∈ map id input <-> i ∈ map id (members_of found)).
Proof.
  intros found.
  pose proof (sort_by_recency_perm Date_getTime input) as Hperm.
  pose proof (fold_open_cluster_tracked threshold
                (sort_by_recency Date_getTime input)
                (sort_by_recency Date_getTime input) ∅ []
                (fun a H => H) (tracked_initial _)) as ([Hs Ho Ha] & _ & Hall).
  fold (clusterArticles Date_getTime input threshold) in *. fold found in Hs, Ho, Ha, Hall.
  split_and!.
  - intros x Hx. rewrite <- Hperm. by apply Hs.
  - done.
  - intros i. split.
    + intros Hi. apply list_elem_of_fmap in Hi as (x & -> & Hx).
      apply Ha, Hall. by rewrite Hperm.
    + intros Hi. apply list_elem_of_fmap in Hi as (x & -> & Hx).
      apply list_elem_of_fmap_2. rewrite <- Hperm. by apply Hs.
Qed.

Lemma elem_of_concat {A} (x : A) (ls : list (list A)) :
  x ∈ concat ls <-> exists l, l ∈ ls /\ x ∈ l.
Proof.
  induction ls as [|l ls IH]; simpl.
  - split; [intros H; by apply elem_of_nil in H|].
    intros (l & H & _). by apply elem_of_nil in H.
  - rewrite elem_of_app, IH. split.
    + intros [H|(l' & H1 & H2)].
      * exists l. split; [constructor|done].
      * exists l'. split; [by constructor|done].
    + intros (l' & H1 & H2). apply elem_of_cons in H1 as [->|H1]; [by left|].
      right. by exists l'.
Qed.

Lemma NoDup_concat_lookup {A} (ls : list (list A)) i j l1 l2 x :
  NoDup (concat ls) -> ls !! i = Some l1 -> ls !! j = Some l2 ->
  x ∈ l1 -> x ∈ l2 -> i = j.
Proof.
  revert i j. induction ls as [|l ls IH]; intros i j Hnd Hi Hj H1 H2; [done|].
  simpl in Hnd. apply NoDup_app in Hnd as (_ & Hdis & Hnd).
  assert (forall k l', ls !! k = Some l' -> x ∈ l' -> x ∈ concat ls) as Hc.
  { intros k l' Hk Hx. apply elem_of_concat. exists l'. split; [|done].
    by eapply list_elem_of_lookup_2. }
  destruct i as [|i], j as [|j]; simpl in *.
  - done.
  - injection Hi as <-. exfalso. eapply Hdis; [exact H1|]. by eapply Hc.
  - injection Hj as <-. exfalso. eapply Hdis; [exact H2|]. by eapply Hc.
  - f_equal. by apply IH.
Qed.

(** C2 (amended): when the ids of the input are pairwise distinct, the
    returned clusters partition the input: their members, taken together,
    are the input articles, each once; every input article is in one
    cluster and in no other; and no cluster is empty. *)
Theorem clusterArticles_partition
    (Date_getTime : string -> option Z) (input : list Article) (threshold : num) :
  NoDup (map id input) ->
  let found := clusterArticles Date_getTime input threshold in
  members_of found ≡ₚ input
  /\ (forall a, a ∈ input ->
        exists i C, found !! i = Some C /\ a ∈ articles C
                    /\ forall j C', found !! j = Some C' -> a ∈ articles C' -> j = i)
  /\ Forall (fun C => exists seed later, articles C = seed :: later) found.
Proof.
  intros Hnd found.
  destruct (clusterArticles_ids Date_getTime input threshold) as (Hs & Hids & Hall).
  fold found in Hs, Hids, Hall.
  assert (NoDup (members_of found)) as Ho by (by eapply NoDup_fmap_1).
  assert (members_of found ≡ₚ input) as Hpart.
  { apply NoDup_Permutation; [done|by eapply NoDup_fmap_1|].
    intros x. split; [apply Hs|]. intros Hx.
    assert (id x ∈ map id (members_of found)) as Hi
      by (by apply Hall, list_elem_of_fmap_2).
    apply list_elem_of_fmap in Hi as (y & Hid & Hy).
    by rewrite (same_id_same_article input x y Hnd Hx (Hs y Hy) Hid). }
  split; [done|]. split.
  - intros a Hin. rewrite <- Hpart in Hin.
    apply elem_of_concat in Hin as (l & Hin & Hl).
    apply list_elem_of_lookup in Hin as [i Hi].
    rewrite list_lookup_fmap in Hi.
    destruct (found !! i) as [C|] eqn:HC; [|done]. injection Hi as <-.
    exists i, C. split; [done|]. split; [done|].
    intros j C' HC' Hin'.
    apply (NoDup_concat_lookup (map articles found) j i (articles C') (articles C) a);
      [exact Ho| | |done|done].
    + by rewrite list_lookup_fmap, HC'.
    + by rewrite list_lookup_fmap, HC.
  - pose proof (clusterArticles_well_grown Date_getTime input threshold) as H.
    eapply Forall_impl; [exact H|]. by intros C [? _].
Qed.

(** ** Members in order of recency *)

Lemma StronglySorted_sublist {A} (R : A -> A -> Prop) (l1 l2 : list A) :
  l1 `sublist_of` l2 -> StronglySorted R l2 -> StronglySorted R l1.
Proof.
  induction 1 as [|x l1 l2 Hsub IH|x l1 l2 Hsub IH]; intros Hs.
  - constructor.
  - apply StronglySorted_cons in Hs as [Hx Hs].
    apply StronglySorted_cons. split; [|by apply IH].
    eapply Forall_forall. intros y Hy.
    eapply Forall_forall in Hx; [exact Hx|]. by eapply sublist_subseteq.
  - apply StronglySorted_cons in Hs as [_ Hs]. by apply IH.
Qed.

Lemma hero_image_first seed later :
  truthy (image_url seed) = true -> hero_image (seed :: later) = image_url seed.
Proof. intros H. unfold hero_image. simpl. by rewrite H. Qed.

(** C10 (amended): when the dates of the input are valid, the members of every
    returned cluster are a subsequence of the recency-sorted input, hence
    in descending order of publication time; the first member is not older
    than any other, the basic synthesis takes its title and excerpt, and
    its image, when it has one, is the hero image. *)
Theorem clusterArticles_recency_order
    (Date_getTime : string -> option Z) (input : list Article) (threshold : num) :
  Forall (dated Date_getTime) input ->
  Forall (fun C =>
            (articles C `sublist_of` sort_by_recency Date_getTime input)
            /\ StronglySorted (not_older Date_getTime) (articles C)
            /\ exists seed later,
                 articles C = seed :: later
                 /\ Forall (not_older Date_getTime seed) later
                 /\ syn_title (basic_synthesis (articles C) seed) = Some (title seed)
                 /\ syn_summary (basic_synthesis (articles C) seed) = Some (excerpt seed)
                 /\ (truthy (image_url seed) = true ->
                     hero_image (articles C) = image_url seed))
         (clusterArticles Date_getTime input threshold).
Proof.
  intros Hdated.
  pose proof (sort_by_recency_sorted Date_getTime input Hdated) as Hsorted.
  pose proof (clusterArticles_sublist Date_getTime input threshold) as Hsub.
  pose proof (clusterArticles_well_grown Date_getTime input threshold) as Hadm.
  apply Forall_forall. intros C HC.
  eapply Forall_forall in Hsub; [|exact HC].
  eapply Forall_forall in Hadm; [|exact HC].
  destruct Hadm as ([seed [later Hm]] & _).
  assert (StronglySorted (not_older Date_getTime) (articles C)) as Hs
    by (by eapply StronglySorted_sublist).
  split; [done|]. split; [done|].
  exists seed, later. rewrite Hm in *.
  apply StronglySorted_cons in Hs as [Hseed _].
  repeat split; try done. apply hero_image_first.
Qed.

(** ** Two runs *)

Lemma sort_insert_ext (f g : string -> option Z) x l :
  f (published_at x) = g (published_at x) ->
  (forall a, a ∈ l -> f (published_at a) = g (published_at a)) ->
  sort_insert f x l = sort_insert g x l.
Proof.
  intros Hx. induction l as [|y l IH]; intros Hl; simpl; [done|].
  unfold moves_behind, by_recency.
  rewrite Hx, (Hl y) by constructor.
  rewrite IH; [done|]. intros a Ha. apply Hl. by constructor.
Qed.

Lemma sort_by_recency_ext (f g : string -> option Z) l :
  (forall a, a ∈ l -> f (published_at a) = g (published_at a)) ->
  sort_by_recency f l = sort_by_recency g l.
Proof.
  induction l as [|x l IH]; intros Hl; simpl; [done|].
  rewrite <- IH by (intros a Ha; apply Hl; by constructor).
  apply sort_insert_ext; [apply Hl; constructor|].
  intros a Ha. apply Hl. constructor.
  by rewrite sort_by_recency_perm in Ha.
Qed.

(** C9: two runs on the same article list and threshold return the same
    clusters, with the same members in the same order, the same scores and
    in the same order; the runs may even differ in how the engine reads
    date strings, as long as it reads the dates of these articles alike. *)
Theorem clusterArticles_deterministic
    (getTime1 getTime2 : string -> option Z) (input : list Article)
    (threshold : num) :
  (forall a, a ∈ input -> getTime1 (published_at a) = getTime2 (published_at a)) ->
  let first_run := clusterArticles getTime1 input threshold in
  let second_run := clusterArticles getTime2 input threshold in
  second_run = first_run
  /\ map articles second_run = map articles first_run
  /\ map similarity second_run = map similarity first_run.
Proof.
  intros Hsame first_run second_run.
  assert (second_run = first_run) as ->; [|done].
  subst first_run second_run. unfold clusterArticles.
  by rewrite (sort_by_recency_ext getTime1 getTime2 input Hsame).
Qed.

(** ** The builder on sample inputs *)

(** Closing a decidable statement about concrete data by evaluation. *)
Ltac decided :=
  match goal with
  | |- ?P => refine (bool_decide_unpack P _); vm_compute; exact I
  end.

Lemma geb_Fin x y : (y <= x)%R -> Num.geb (Fin x) (Fin y) = true.
Proof. intros H. simpl. by destruct (Rle_dec y x). Qed.

Example tokenize_rates :
  tokenize (article_text rates_ap)
  = ["central"; "bank"; "raises"; "interest"; "rates"; "markets"; "react"].
Proof. vm_compute. reflexivity. Qed.

Lemma similarity_rates a b :
  article_text a = article_text rates_ap ->
  article_text b = article_text rates_ap ->
  calculateSimilarity a b = Fin 1.
Proof.
  intros Ha Hb. unfold calculateSimilarity. rewrite Ha, Hb, tokenize_rates.
  set (tokens := ["central"; "bank"; "raises"; "interest"; "rates"; "markets"; "react"]).
  assert (jaccardSimilarity tokens tokens = Num.ratio 7 7) as ->
    by (unfold jaccardSimilarity; f_equal; vm_compute; reflexivity).
  assert (cosine_sums tokens tokens = (7, 7, 7)) as Hsums
    by (vm_compute; reflexivity).
  unfold cosineSimilarity. rewrite Hsums.
  cbn [Nat.eqb orb Num.ratio Num.add Num.div_count]. f_equal.
  rewrite sqrt_sqrt by apply pos_INR.
  simpl. field.
Qed.

Example average_same_text : avgSimilarity [rates_ap] rates_reuters = Fin 1.
Proof.
  unfold avgSimilarity. cbn [map fold_left length].
  rewrite similarity_rates by done. simpl. f_equal. lra.
Qed.

Example cluster_same_text :
  clusterArticles sample_getTime [rates_ap; rates_reuters] default_threshold
  = [rates_cluster].
Proof.
  unfold clusterArticles.
  replace (sort_by_recency sample_getTime [rates_ap; rates_reuters])
    with [rates_ap; rates_reuters] by (vm_compute; reflexivity).
  cbn [fold_left]. unfold open_cluster at 2.
  rewrite decide_False by decided.
  cbn [fold_left]. rewrite consider_assigned by decided.
  unfold consider. rewrite decide_False by decided.
  cbn [articles similarity]. rewrite average_same_text.
  unfold default_threshold. rewrite geb_Fin by lra.
  unfold open_cluster. rewrite decide_True by decided.
  cbn. rewrite Rmin_left by lra. reflexivity.
Qed.

(** C2, as stated for every input, fails on an input in which two
    articles carry the same id: the second of them is in no cluster. *)
Lemma clusterArticles_drops_repeated_id :
  let input := [rates_ap; storm_same_id] in
  let found := clusterArticles sample_getTime input default_threshold in
  found = [ {| articles := [rates_ap]; similarity := Fin 1 |} ]
  /\ storm_same_id ∈ input
  /\ ~ (exists C, C ∈ found /\ storm_same_id ∈ articles C)
  /\ ~ (members_of found ≡ₚ input).
Proof.
  intros input found.
  assert (found = [ {| articles := [rates_ap]; similarity := Fin 1 |} ]) as E.
  { subst found input. unfold clusterArticles.
    replace (sort_by_recency sample_getTime [rates_ap; storm_same_id])
      with [rates_ap; storm_same_id] by (vm_compute; reflexivity).
    cbn [fold_left]. unfold open_cluster at 2.
    rewrite decide_False by decided.
    rewrite fold_consider_skip.
    2:{ intros c Hc. apply elem_of_cons in Hc as [->|Hc]; [decided|].
        apply list_elem_of_singleton in Hc. subst c. decided. }
    unfold open_cluster. rewrite decide_True by decided.
    reflexivity. }
  rewrite E. split; [done|]. split; [subst input; decided|]. split.
  - intros (C & HC & Hin). apply list_elem_of_singleton in HC. subst C.
    cbn in Hin. apply list_elem_of_singleton in Hin. discriminate Hin.
  - intros Hperm. apply Permutation_length in Hperm. discriminate Hperm.
Qed.

(** C10, as stated for every input, fails when a date does not parse:
    the comparator is [NaN] on every pair with the undated article, which
    counts as a tie, so no neighbours are out of order and the sort leaves
    the list as it is; the three reports form one cluster whose first
    member is older than its last. *)
Lemma clusterArticles_undated_breaks_order :
  let input := [rates_earlier; rates_undated; rates_ap] in
  clusterArticles sample_getTime input default_threshold
  = [ {| articles := input; similarity := Fin 1 |} ]
  /\ sample_getTime (published_at rates_earlier) = Some 1768723200000%Z
  /\ sample_getTime (published_at rates_undated) = None
  /\ sample_getTime (published_at rates_ap) = Some 1768730400000%Z
  /\ ~ not_older sample_getTime rates_earlier rates_ap
  /\ ~ StronglySorted (not_older sample_getTime) input.
Proof.
  intros input.
  assert (~ not_older sample_getTime rates_earlier rates_ap) as Hno.
  { intros (ta & tb & Ha & Hb & Hle). vm_compute in Ha, Hb.
    injection Ha as <-. injection Hb as <-. lia. }
  split; [|split_and!; try (vm_compute; reflexivity); [done|]].
  - subst input. unfold clusterArticles.
    replace (sort_by_recency sample_getTime [rates_earlier; rates_undated; rates_ap])
      with [rates_earlier; rates_undated; rates_ap] by (vm_compute; reflexivity).
    cbn [fold_left]. unfold open_cluster at 3.
    rewrite decide_False by decided.
    cbn [fold_left].
    rewrite consider_assigned by decided.
    unfold consider at 2. rewrite decide_False by decided.
    unfold avgSimilarity at 1. cbn [articles similarity map fold_left length].
    rewrite similarity_rates by done.
    cbn [Num.add Num.div_count]. unfold default_threshold.
    rewrite geb_Fin by (simpl; lra).
    unfold consider. rewrite decide_False by decided.
    unfold avgSimilarity. cbn [articles similarity map fold_left length app].
    rewrite !similarity_rates by done.
    cbn [Num.add Num.div_count]. rewrite geb_Fin by (simpl; lra).
    unfold open_cluster.
    rewrite decide_True by decided.
    rewrite decide_True by decided.
    cbn. do 3 f_equal.
    replace ((0 + 1) / 1)%R with 1%R by field.
    replace ((0 + 1 + 1) / (1 + 1))%R with 1%R by field.
    by rewrite !(Rmin_left 1 1) by lra.
  - intros Hs. apply StronglySorted_cons in Hs as [Hall _].
    apply Forall_cons in Hall as [_ Hall]. apply Forall_cons in Hall as [H _]. done.
Qed.

(** ** The similarity scorer away from the empty case *)

Lemma fold_Set_add xs acc :
  NoDup acc ->
  NoDup (fold_left Set_add xs acc)
  /\ forall x, x ∈ fold_left Set_add xs acc <-> x ∈ acc \/ x ∈ xs.
Proof.
  revert acc. induction xs as [|y xs IH]; intros acc Hnd; simpl.
  - split; [done|]. intros x. rewrite elem_of_nil. tauto.
  - unfold Set_add at 2 4, Set_has.
    destruct (bool_decide_reflect (y ∈ acc)) as [Hin|Hout].
    + destruct (IH acc Hnd) as [H1 H2]. split; [done|].
      intros x. rewrite H2, elem_of_cons. split; [tauto|].
      intros [H|[->|H]]; tauto.
    + assert (NoDup (acc ++ [y])) as Hnd'.
      { apply NoDup_app. split; [done|]. split; [|apply NoDup_singleton].
        intros x Hx Hx'. apply list_elem_of_singleton in Hx'. by subst. }
      destruct (IH _ Hnd') as [H1 H2]. split; [done|].
      intros x. rewrite H2, elem_of_app, list_elem_of_singleton, elem_of_cons. tauto.
Qed.

Lemma Set_of_NoDup xs : NoDup (Set_of xs).
Proof. apply fold_Set_add. constructor. Qed.

Lemma elem_of_Set_of xs x : x ∈ Set_of xs <-> x ∈ xs.
Proof.
  unfold Set_of. destruct (fold_Set_add xs [] (NoDup_nil_2)) as [_ H].
  rewrite H, elem_of_nil. tauto.
Qed.

(** The size of a [Set] built from a list is the size of the set of its
    elements. *)
Lemma Set_of_size xs (X : gset string) :
  (forall x, x ∈ xs <-> x ∈ X) -> length (Set_of xs) = size X.
Proof.
  intros H. rewrite <- (size_list_to_set (C := gset string)) by apply Set_of_NoDup.
  f_equal. apply set_eq. intros x.
  by rewrite elem_of_list_to_set, elem_of_Set_of.
Qed.

(** [jaccardSimilarity] is the quotient of the sizes of intersection and
    union of the two token sets. *)
Lemma jaccardSimilarity_sets tokens1 tokens2 :
  jaccardSimilarity tokens1 tokens2
  = Num.ratio (size (list_to_set tokens1 ∩ list_to_set tokens2 : gset string))
              (size (list_to_set tokens1 ∪ list_to_set tokens2 : gset string)).
Proof.
  unfold jaccardSimilarity. f_equal.
  - apply Set_of_size. intros x.
    rewrite list_elem_of_filter, elem_of_intersection, !elem_of_list_to_set,
      elem_of_Set_of.
    unfold Set_has. rewrite bool_decide_spec, elem_of_Set_of. tauto.
  - apply Set_of_size. intros x.
    by rewrite elem_of_app, elem_of_union, !elem_of_list_to_set, !elem_of_Set_of.
Qed.

(** It agrees with the Jaccard index of the specification except when
    both token lists are empty, where it is [NaN] instead of 0. *)
Lemma jaccardSimilarity_index tokens1 tokens2 :
  (tokens1 <> [] \/ tokens2 <> [] ->
   jaccardSimilarity tokens1 tokens2 = jaccard_index tokens1 tokens2)
  /\ (tokens1 = [] /\ tokens2 = [] ->
      jaccardSimilarity tokens1 tokens2 = NaN
      /\ jaccard_index tokens1 tokens2 = Fin 0).
Proof.
  split.
  - intros Hne. rewrite jaccardSimilarity_sets. unfold jaccard_index.
    destruct (decide _) as [Hz|Hnz].
    + exfalso. apply size_empty_inv in Hz.
      destruct Hne as [Hne|Hne]; apply Hne.
      * destruct tokens1 as [|t ts]; [done|].
        exfalso. apply (not_elem_of_empty (C := gset string) t).
        rewrite <- Hz. apply elem_of_union_l, elem_of_list_to_set. constructor.
      * destruct tokens2 as [|t ts]; [done|].
        exfalso. apply (not_elem_of_empty (C := gset string) t).
        rewrite <- Hz. apply elem_of_union_r, elem_of_list_to_set. constructor.
    + unfold Num.ratio. by destruct (size (_ ∪ _)).
  - intros [-> ->]. split; [by vm_compute|].
    unfold jaccard_index. by rewrite decide_True by (by vm_compute).
Qed.

Lemma jaccardSimilarity_bounds tokens1 tokens2 :
  tokens1 <> [] \/ tokens2 <> [] ->
  in_unit_interval (jaccardSimilarity tokens1 tokens2).
Proof.
  intros Hne.
  rewrite (proj1 (jaccardSimilarity_index tokens1 tokens2) Hne).
  unfold jaccard_index. destruct (decide _) as [Hz|Hnz].
  - exists 0%R. split; [done|lra].
  - eexists. split; [done|].
    set (i := size _). set (u := size (_ ∪ _)) in *.
    assert (i <= u) as Hle.
    { subst i u. apply subseteq_size. intros x Hx.
      apply elem_of_intersection in Hx as [Hx _]. by apply elem_of_union_l. }
    assert (0 < INR u)%R as Hu by (apply lt_0_INR; lia).
    apply le_INR in Hle. pose proof (pos_INR i).
    split.
    + unfold Rdiv. apply Rmult_le_pos; [lra|].
      left. by apply Rinv_0_lt_compat.
    + apply (Rmult_le_reg_r (INR u)); [done|].
      unfold Rdiv. rewrite Rmult_assoc, Rinv_l by lra. lra.
Qed.

(** One more term keeps the dot product below the two magnitudes
    (the Cauchy-Schwarz inequality, term by term). *)
Lemma dot_product_step (d m1 m2 a b : nat) :
  d * d <= m1 * m2 ->
  (d + a * b) * (d + a * b) <= (m1 + a * a) * (m2 + b * b).
Proof.
  intros H.
  assert (2 * (d * (a * b)) <= m1 * (b * b) + m2 * (a * a)) as Hmid.
  { apply Nat.square_le_simpl_nonneg; [lia|].
    set (p := m1 * (b * b)). set (q := m2 * (a * a)).
    assert (4 * (p * q) <= (p + q) * (p + q)) as Hpq.
    { destruct (Nat.le_ge_cases p q) as [Hle|Hle].
      - replace q with (p + (q - p)) by lia. generalize (q - p). intros k. nia.
      - replace p with (q + (p - q)) by lia. generalize (p - q). intros k. nia. }
    assert (2 * (d * (a * b)) * (2 * (d * (a * b)))
            = 4 * ((d * d) * ((a * a) * (b * b)))) as -> by ring.
    assert (4 * (p * q) = 4 * ((m1 * m2) * ((a * a) * (b * b)))) as Hpq'
      by (subst p q; ring).
    etrans; [|exact Hpq]. rewrite Hpq'.
    apply Nat.mul_le_mono_l, Nat.mul_le_mono_r. exact H. }
  nia.
Qed.

Lemma fold_sums_bound (v1 v2 : string -> nat) terms (acc : nat * nat * nat) :
  (let '(d, m1, m2) := acc in d * d <= m1 * m2) ->
  let '(d, m1, m2) :=
    fold_left (fun '(d, m1, m2) term =>
                 (d + v1 term * v2 term, m1 + v1 term * v1 term,
                  m2 + v2 term * v2 term))
              terms acc in
  d * d <= m1 * m2.
Proof.
  revert acc. induction terms as [|t terms IH]; intros [[d m1] m2] Hacc; simpl;
    [done|].
  apply IH. by apply dot_product_step.
Qed.

Lemma cosine_sums_bound tokens1 tokens2 :
  let '(dotProduct, magnitude1, magnitude2) := cosine_sums tokens1 tokens2 in
  dotProduct * dotProduct <= magnitude1 * magnitude2.
Proof.
  unfold cosine_sums.
  apply (fold_sums_bound
           (fun term => default 0 (Map_get (term_frequencies tokens1) term))
           (fun term => default 0 (Map_get (term_frequencies tokens2) term))
           _ (0, 0, 0)).
  simpl. lia.
Qed.

Lemma cosineSimilarity_bounds tokens1 tokens2 :
  in_unit_interval (cosineSimilarity tokens1 tokens2).
Proof.
  unfold cosineSimilarity.
  pose proof (cosine_sums_bound tokens1 tokens2) as Hcs.
  destruct (cosine_sums tokens1 tokens2) as [[d m1] m2].
  destruct (Nat.eqb_spec m1 0) as [|H1]; simpl; [exists 0%R; split; [done|lra]|].
  destruct (Nat.eqb_spec m2 0) as [|H2]; simpl; [exists 0%R; split; [done|lra]|].
  eexists. split; [done|].
  assert (0 < INR m1)%R as Hm1 by (apply lt_0_INR; lia).
  assert (0 < INR m2)%R as Hm2 by (apply lt_0_INR; lia).
  assert (0 < sqrt (INR m1) * sqrt (INR m2))%R as Hden
    by (apply Rmult_lt_0_compat; by apply sqrt_lt_R0).
  assert (INR d <= sqrt (INR m1) * sqrt (INR m2))%R as Hd.
  { rewrite <- sqrt_mult by lra.
    rewrite <- (sqrt_square (INR d)) by apply pos_INR.
    apply sqrt_le_1; [apply Rmult_le_pos; apply pos_INR|apply Rmult_le_pos; lra|].
    rewrite <- !mult_INR. by apply le_INR. }
  pose proof (pos_INR d). split.
  - unfold Rdiv. apply Rmult_le_pos; [lra|]. left. by apply Rinv_0_lt_compat.
  - apply (Rmult_le_reg_r (sqrt (INR m1) * sqrt (INR m2))); [done|].
    unfold Rdiv. rewrite Rmult_assoc, Rinv_l by lra. lra.
Qed.

(** The combined similarity is a number between 0 and 1 as soon as one
    of the two texts has a token. *)
Lemma calculateSimilarity_bounds article1 article2 :
  tokenize (article_text article1) <> [] \/ tokenize (article_text article2) <> [] ->
  in_unit_interval (calculateSimilarity article1 article2).
Proof.
  intros Hne. unfold calculateSimilarity.
  destruct (jaccardSimilarity_bounds _ _ Hne) as (j & -> & Hj).
  destruct (cosineSimilarity_bounds (tokenize (article_text article1))
              (tokenize (article_text article2))) as (c & -> & Hc).
  eexists. split; [done|]. simpl. lra.
Qed.

(** And it is [NaN] whenever neither text has a token. *)
Lemma calculateSimilarity_tokenless article1 article2 :
  tokenize (article_text article1) = [] ->
  tokenize (article_text article2) = [] ->
  calculateSimilarity article1 article2 = NaN.
Proof. intros H1 H2. unfold calculateSimilarity. by rewrite H1, H2. Qed.

(** ** Computations and the world *)

Lemma bind_run {A B} (m : Eff A) (k : A -> Eff B) w :
  (m ≫= k) w = match m w with
               | (inr x, w') => k x w'
               | (inl e, w') => (inl e, w')
               end.
Proof. reflexivity. Qed.

Section Preservation.

Context {X : Type} (f : World -> X).

Lemma preserves_ret {A} (x : A) : preserves f (ret x).
Proof. by intros w. Qed.

Lemma preserves_throw {A} e : preserves f (@throw A e).
Proof. by intros w. Qed.

Lemma preserves_get_world : preserves f get_world.
Proof. by intros w. Qed.

Lemma preserves_defined {A} (x : option A) : preserves f (defined x).
Proof. by destruct x. Qed.

Lemma preserves_bind {A B} (m : Eff A) (k : A -> Eff B) :
  preserves f m -> (forall x, preserves f (k x)) -> preserves f (m ≫= k).
Proof.
  intros Hm Hk w. rewrite bind_run. specialize (Hm w).
  destruct (m w) as [[e|x] w']; simpl in *; [done|].
  by rewrite Hk.
Qed.

Lemma preserves_try_catch {A} (m : Eff A) (h : Exn -> Eff A) :
  preserves f m -> (forall e, preserves f (h e)) -> preserves f (try_catch m h).
Proof.
  intros Hm Hh w. unfold try_catch. specialize (Hm w).
  destruct (m w) as [[e|x] w']; simpl in *; [|done].
  by rewrite Hh.
Qed.

Lemma preserves_for_each {A} (body : A -> Eff unit) xs :
  (forall x, preserves f (body x)) -> preserves f (for_each body xs).
Proof.
  intros Hb. induction xs as [|x xs IH]; simpl; [apply preserves_ret|].
  apply preserves_bind; [apply Hb|done].
Qed.

Lemma preserves_map_each {A B} (g : A -> Eff B) xs :
  (forall x, preserves f (g x)) -> preserves f (map_each g xs).
Proof.
  intros Hg. induction xs as [|x xs IH]; simpl; [apply preserves_ret|].
  apply preserves_bind; [apply Hg|]. intros y.
  apply preserves_bind; [done|]. intros ys. apply preserves_ret.
Qed.

Lemma preserves_modify (g : World -> World) :
  (forall w, f (g w) = f w) -> preserves f (modify g).
Proof. intros Hg w. apply Hg. Qed.

Lemma preserves_served : ignores f with_faults -> preserves f served.
Proof. intros Hf w. apply Hf. Qed.

Lemma preserves_fresh_uuid : ignores f with_next_uuid -> preserves f fresh_uuid.
Proof. intros Hf w. apply Hf. Qed.

Lemma preserves_next_completion :
  ignores f with_completions -> preserves f next_completion.
Proof. intros Hf w. apply Hf. Qed.

End Preservation.

Lemma returns_ret {A} (x : A) : returns (ret x).
Proof. intros w. by exists x. Qed.

Lemma returns_bind {A B} (m : Eff A) (k : A -> Eff B) :
  returns m -> (forall x, returns (k x)) -> returns (m ≫= k).
Proof.
  intros Hm Hk w. rewrite bind_run. destruct (Hm w) as [x Hx].
  destruct (m w) as [[e|x'] w']; simpl in *; [done|]. apply Hk.
Qed.

Lemma returns_try_catch {A} (m : Eff A) (h : Exn -> Eff A) :
  (forall e, returns (h e)) -> returns (try_catch m h).
Proof.
  intros Hh w. unfold try_catch.
  destruct (m w) as [[e|x] w']; [apply Hh|by exists x].
Qed.

Lemma returns_for_each {A} (body : A -> Eff unit) xs :
  (forall x, returns (body x)) -> returns (for_each body xs).
Proof.
  intros Hb. induction xs as [|x xs IH]; simpl; [apply returns_ret|].
  apply returns_bind; [apply Hb|done].
Qed.

Lemma returns_modify g : returns (modify g).
Proof. intros w. by exists tt. Qed.

Lemma returns_served : returns served.
Proof. intros w. by eexists. Qed.

Lemma synthesizeArticles_preserves {X} (f : World -> X) articles :
  ignores f with_completions -> preserves f (synthesizeArticles articles).
Proof.
  intros Hf. unfold synthesizeArticles.
  destruct articles as [|first rest]; [apply preserves_throw|].
  apply preserves_try_catch; [|intros e; apply preserves_ret].
  unfold attempt_synthesis. apply preserves_bind.
  - unfold request_synthesis.
    apply preserves_bind; [by apply preserves_next_completion|].
    intros [| | |p]; first [apply preserves_throw|apply preserves_ret].
  - intros result. apply preserves_bind; [apply preserves_defined|].
    intros sections. apply preserves_bind; [|intros mapped; apply preserves_ret].
    apply preserves_map_each. intros section.
    apply preserves_bind; [apply preserves_defined|].
    intros citations. apply preserves_ret.
Qed.

(** ** Database requests and the tables *)

Section RequestFacts.

Context {X : Type} (f : World -> X) (Hfaults : ignores f with_faults).

Lemma story_articles_insert_preserves rows :
  ignores f with_story_articles -> preserves f (story_articles_insert rows).
Proof.
  intros Ht. unfold story_articles_insert.
  apply preserves_bind; [by apply preserves_served|]. intros ok.
  apply preserves_modify. intros w. case_match; [apply Ht|done].
Qed.

Lemma story_impacts_insert_preserves rows :
  ignores f with_story_impacts -> preserves f (story_impacts_insert rows).
Proof.
  intros Ht. unfold story_impacts_insert.
  apply preserves_bind; [by apply preserves_served|]. intros ok.
  apply preserves_modify. intros w. case_match; [apply Ht|done].
Qed.

Lemma story_entities_upsert_preserves row :
  ignores f with_story_entities -> preserves f (story_entities_upsert row).
Proof.
  intros Ht. unfold story_entities_upsert.
  apply preserves_bind; [by apply preserves_served|]. intros ok.
  apply preserves_modify. intros w. case_match; [apply Ht|done].
Qed.

Lemma entity_connections_upsert_preserves row :
  ignores f with_entity_connections -> preserves f (entity_connections_upsert row).
Proof.
  intros Ht. unfold entity_connections_upsert.
  apply preserves_bind; [by apply preserves_served|]. intros ok.
  apply preserves_modify. intros w. destruct ok; [apply Ht|done].
Qed.

Lemma entities_insert_preserves name type :
  ignores f with_entities -> ignores f with_next_uuid ->
  preserves f (entities_insert name type).
Proof.
  intros Ht Hu. unfold entities_insert.
  apply preserves_bind; [by apply preserves_served|]. intros ok.
  apply preserves_bind; [apply preserves_get_world|]. intros w.
  case_match; [|apply preserves_ret].
  apply preserves_bind; [by apply preserves_fresh_uuid|]. intros i.
  apply preserves_bind; [|intros _; apply preserves_ret].
  apply preserves_modify. intros w'. apply Ht.
Qed.

Context (ilike : string -> string -> bool).

Lemma entities_find_preserves pattern : preserves f (entities_find ilike pattern).
Proof.
  unfold entities_find.
  apply preserves_bind; [by apply preserves_served|]. intros ok.
  apply preserves_bind; [apply preserves_get_world|]. intros w.
  apply preserves_ret.
Qed.

Lemma save_entity_preserves story entity :
  ignores f with_entities -> ignores f with_next_uuid ->
  ignores f with_story_entities ->
  preserves f (save_entity ilike story entity).
Proof.
  intros Ht Hu Hs. unfold save_entity.
  apply preserves_bind; [apply entities_find_preserves|]. intros existing.
  apply preserves_bind.
  - destruct existing; [apply preserves_ret|by apply entities_insert_preserves].
  - intros [i|]; [by apply story_entities_upsert_preserves|apply preserves_ret].
Qed.

Lemma save_connection_preserves story connection :
  ignores f with_entity_connections ->
  preserves f (save_connection ilike story connection).
Proof.
  intros Ht. unfold save_connection.
  apply preserves_bind; [apply entities_find_preserves|]. intros src.
  apply preserves_bind; [apply entities_find_preserves|]. intros tgt.
  destruct src as [s|]; [|apply preserves_ret].
  destruct tgt as [t|]; [|apply preserves_ret].
  by apply entity_connections_upsert_preserves.
Qed.

End RequestFacts.

Section PipelineFacts.

Context (ilike : string -> string -> bool).

Lemma entities_find_returns pattern : returns (entities_find ilike pattern).
Proof. intros w. by eexists. Qed.

Lemma save_entity_returns story entity :
  returns (save_entity ilike story entity).
Proof.
  unfold save_entity.
  apply returns_bind; [apply entities_find_returns|]. intros existing.
  apply returns_bind.
  - destruct existing; [apply returns_ret|].
    unfold entities_insert. apply returns_bind; [apply returns_served|]. intros ok.
    intros w. rewrite bind_run. cbn [get_world].
    case_match; by eexists.
  - intros [i|]; [|apply returns_ret].
    unfold story_entities_upsert.
    apply returns_bind; [apply returns_served|]. intros ok. apply returns_modify.
Qed.

Lemma save_connection_returns story connection :
  returns (save_connection ilike story connection).
Proof.
  unfold save_connection.
  apply returns_bind; [apply entities_find_returns|]. intros src.
  apply returns_bind; [apply entities_find_returns|]. intros tgt.
  destruct src as [s|]; [|apply returns_ret].
  destruct tgt as [t|]; [|apply returns_ret].
  unfold entity_connections_upsert.
  apply returns_bind; [apply returns_served|]. intros ok. apply returns_modify.
Qed.

End PipelineFacts.

(** ** The synthesis fallback *)

Lemma attempt_fails_on_bad_answer articles first w :
  match head (completions w) with
  | None | Some Rejected | Some NoContent | Some Unparsable => True
  | Some (Payload _) => False
  end ->
  synthesis_fails articles first w.
Proof.
  intros H. unfold synthesis_fails, attempt_synthesis, request_synthesis,
    next_completion.
  rewrite !bind_run. cbn.
  destruct (head (completions w)) as [[| | |p]|]; cbn; try done; by eexists.
Qed.

Lemma synthesizeArticles_fallback first rest w :
  synthesis_fails (first :: rest) first w ->
  (synthesizeArticles (first :: rest) w).1
  = inr (basic_synthesis (first :: rest) first).
Proof.
  intros [e He]. unfold synthesizeArticles, try_catch.
  by destruct (attempt_synthesis (first :: rest) first w) as [[e'|x] w'].
Qed.

Lemma yields_ret {A} (v : A) : yields (ret v) v.
Proof. by intros w. Qed.

Lemma yields_bind {A B} (m : Eff A) (k : A -> Eff B) v :
  returns m -> (forall x, yields (k x) v) -> yields (m ≫= k) v.
Proof.
  intros Hm Hk w. rewrite bind_run. destruct (Hm w) as [x Hx].
  destruct (m w) as [[e|x'] w']; simpl in *; [done|]. apply Hk.
Qed.

Lemma stories_insert_run title summary sections hero w :
  stories_insert title summary sections hero w
  = match title, next_served w with
    | Some t, true =>
        (inr (Some (next_uuid w)),
         with_stories
           (stories w ++
              [ {| story_id := next_uuid w; story_title := t;
                   story_summary := summary; story_synthesis := sections;
                   story_hero_image_url := hero; story_status := "published";
                   story_published_at := clock w |} ])
           (with_next_uuid (S (next_uuid w)) (after_request w)))
    | _, _ => (inr None, after_request w)
    end.
Proof.
  cbv [stories_insert mbind Eff_bind bind served fresh_uuid modify ret].
  by destruct title, (next_served w).
Qed.

Section StoryFacts.

Context (ilike : string -> string -> bool).

Lemma fill_story_stories C syn story_id :
  preserves stories (fill_story ilike C syn story_id).
Proof.
  unfold fill_story.
  apply preserves_bind; [by apply story_articles_insert_preserves|]. intros _.
  apply preserves_bind; [apply preserves_defined|]. intros found.
  apply preserves_bind.
  { apply preserves_for_each. intros entity. by apply save_entity_preserves. }
  intros _. apply preserves_bind; [apply preserves_defined|]. intros connections.
  apply preserves_bind.
  { apply preserves_for_each. intros connection. by apply save_connection_preserves. }
  intros _. apply preserves_bind; [apply preserves_defined|]. intros impacts.
  apply preserves_bind; [|intros _; apply preserves_ret].
  case_match; [by apply story_impacts_insert_preserves|apply preserves_ret].
Qed.

Lemma fill_story_complete C syn story_id found connections impacts :
  syn_entities syn = Some found ->
  syn_connections syn = Some connections ->
  syn_impacts syn = Some impacts ->
  yields (fill_story ilike C syn story_id) (Some story_id).
Proof.
  intros H1 H2 H3. unfold fill_story. rewrite H1, H2, H3.
  apply yields_bind; [|intros _].
  { unfold story_articles_insert.
    apply returns_bind; [apply returns_served|]. intros ok. apply returns_modify. }
  apply yields_bind; [apply returns_ret|intros ?].
  apply yields_bind; [apply returns_for_each, save_entity_returns|intros _].
  apply yields_bind; [apply returns_ret|intros ?].
  apply yields_bind; [apply returns_for_each, save_connection_returns|intros _].
  apply yields_bind; [apply returns_ret|intros ?].
  apply yields_bind; [|intros _; apply yields_ret].
  case_match; [|apply returns_ret].
  unfold story_impacts_insert.
  apply returns_bind; [apply returns_served|]. intros ok. apply returns_modify.
Qed.

Lemma materialize_unfold C w :
  materialize ilike C w
  = match synthesizeArticles (articles C) w with
    | (inl e, w0) => (inl e, w0)
    | (inr syn, w0) =>
        match stories_insert (syn_title syn) (syn_summary syn) (syn_sections syn)
                (hero_image (articles C)) w0 with
        | (inl e, w1) => (inl e, w1)
        | (inr None, w1) => (inr None, w1)
        | (inr (Some story_id), w1) => fill_story ilike C syn story_id w1
        end
    end.
Proof.
  unfold materialize. rewrite bind_run.
  destruct (synthesizeArticles _ w) as [[e|syn] w0]; [done|].
  rewrite bind_run.
  by destruct (stories_insert _ _ _ _ w0) as [[e|[story_id|]] w1].
Qed.

End StoryFacts.

Ltac cases_done :=
  split_and!;
  try done; try (simpl; lia); try (by intros [? ?]); try (intros; lia).

Section MaterialisationFacts.

Context (ilike : string -> string -> bool).

(** How one call of [createStoryFromCluster] ends: always with a value,
    with at most one story row added; a reported story was added, and a
    cluster of fewer than two members leaves the world as it was. *)
Lemma createStoryFromCluster_cases C w :
  exists r w' new,
    createStoryFromCluster ilike C w = (inr r, w')
    /\ stories w' = stories w ++ new
    /\ length new <= 1
    /\ (is_Some r -> length new = 1)
    /\ (length (articles C) < 2 -> r = None /\ w' = w).
Proof.
  unfold createStoryFromCluster.
  destruct (Nat.ltb_spec (length (articles C)) 2) as [Hlt|Hge].
  { exists None, w, []. rewrite app_nil_r. cases_done. }
  unfold try_catch. rewrite materialize_unfold.
  pose proof (synthesizeArticles_preserves stories (articles C)
                ltac:(done) w) as Hs.
  destruct (synthesizeArticles (articles C) w) as [[e|syn] w0]; simpl in Hs.
  { exists None, w0, []. rewrite app_nil_r. cases_done. }
  rewrite stories_insert_run.
  destruct (syn_title syn) as [t|], (next_served w0).
  2,3,4: exists None, (after_request w0), []; rewrite app_nil_r; cases_done.
  match goal with
  | |- context [fill_story ilike C syn ?i ?W] =>
      pose proof (fill_story_stories ilike C syn i W) as Hfill;
      destruct (fill_story ilike C syn i W) as [[e|r] w1]
  end; simpl in Hfill.
  - eexists None, w1, [_]. rewrite Hfill. simpl. rewrite Hs. cases_done.
  - eexists r, w1, [_]. rewrite Hfill. simpl. rewrite Hs. cases_done.
Qed.

Lemma createStoryFromCluster_returns C : returns (createStoryFromCluster ilike C).
Proof.
  intros w. destruct (createStoryFromCluster_cases C w) as (r & w' & new & E & _).
  exists r. by rewrite E.
Qed.

(** The loop over the clusters: it ends with a count, it adds at least as
    many story rows as it counts and at most one row for each cluster of
    two or more members. *)
Lemma create_stories_bound found counted w :
  exists k w' new,
    create_stories ilike found counted w = (inr (counted + k), w')
    /\ stories w' = stories w ++ new
    /\ k <= length new
    /\ length new
       <= length (filter (fun C => Is_true (2 <=? length (articles C))) found).
Proof.
  revert counted w. induction found as [|C found IH]; intros counted w.
  - exists 0, w, []. rewrite app_nil_r, Nat.add_0_r. repeat split; simpl; lia.
  - cbn [create_stories]. rewrite bind_run.
    destruct (createStoryFromCluster_cases C w)
      as (r & w1 & new1 & E & Hst & Hle & Hsome & Hsmall).
    rewrite E.
    destruct (IH (if r is Some _ then counted + 1 else counted) w1)
      as (k & w' & new & E' & Hst' & Hk & Hnew).
    rewrite E'.
    rewrite filter_cons.
    destruct (decide (Is_true (2 <=? length (articles C)))) as [Hbig|Hsmall'].
    + destruct r as [i|].
      * exists (1 + k), w', (new1 ++ new).
        rewrite Hst', Hst, <- app_assoc, length_app.
        specialize (Hsome ltac:(by eexists)). cbn [length].
        split_and!; try done; try lia. do 2 f_equal. lia.
      * exists k, w', (new1 ++ new).
        rewrite Hst', Hst, <- app_assoc, length_app. cbn [length].
        split_and!; try done; lia.
    + assert (length (articles C) < 2) as Hlt.
      { apply Nat.leb_gt. by destruct (2 <=? length (articles C)). }
      destruct (Hsmall Hlt) as [-> ->].
      exists k, w', new. by repeat split.
Qed.

End MaterialisationFacts.

Lemma getUnassignedArticles_run w :
  exists batch w0,
    getUnassignedArticles w = (inr batch, w0) /\ stories w0 = stories w.
Proof.
  cbv [getUnassignedArticles mbind Eff_bind bind served get_world ret].
  destruct (next_served w); cbn -[next_served]; by eexists _, _.
Qed.

(** C4: when the request to the text-generation service fails, the
    synthesis of a non-empty article list is the basic one: the title of
    the first article, one section whose content joins the excerpts of all
    articles, each followed by its source in brackets, and no entities,
    connections or impacts; and for a cluster of two or more articles,
    as long as the database takes the story row, a story with that
    content is stored and reported. *)
Theorem synthesis_failure_still_yields_story
    (ilike : string -> string -> bool) (first : Article) (rest : list Article)
    (w : World) :
  synthesis_fails (first :: rest) first w ->
  let batch := first :: rest in
  (exists syn,
     (synthesizeArticles batch w).1 = inr syn
     /\ syn_title syn = Some (title first)
     /\ (exists section,
           syn_sections syn = [section]
           /\ sec_content section
              = join " " (map (fun a => (excerpt a ++ " [" ++ source a ++ "]")%string)
                              batch))
     /\ syn_entities syn = Some []
     /\ syn_connections syn = Some []
     /\ syn_impacts syn = Some [])
  /\ (forall C,
        articles C = batch -> 2 <= length batch -> next_served w = true ->
        let created := createStoryFromCluster ilike C w in
        created.1 = inr (Some (next_uuid w))
        /\ stories created.2 = stories w ++ [basic_story C first w]).
Proof.
  intros Hfail batch.
  pose proof (synthesizeArticles_fallback first rest w Hfail) as Hsyn.
  fold batch in Hsyn. split.
  - exists (basic_synthesis batch first). split; [done|].
    repeat split. by exists (summary_section batch).
  - intros C HC Hlen Hserved created. subst created.
    unfold createStoryFromCluster.
    destruct (Nat.ltb_spec (length (articles C)) 2) as [Hlt|_];
      [rewrite HC in Hlt; lia|].
    unfold try_catch. rewrite materialize_unfold. rewrite HC.
    pose proof (synthesizeArticles_preserves stories batch ltac:(done) w) as Hs.
    pose proof (synthesizeArticles_preserves faults batch ltac:(done) w) as Hf.
    pose proof (synthesizeArticles_preserves next_uuid batch ltac:(done) w) as Hu.
    pose proof (synthesizeArticles_preserves clock batch ltac:(done) w) as Hc.
    destruct (synthesizeArticles batch w) as [r w0]. simpl in *. subst r.
    rewrite stories_insert_run.
    assert (next_served w0 = true) as -> by (unfold next_served in *; by rewrite Hf).
    cbn [syn_title basic_synthesis].
    match goal with
    | |- context [fill_story ilike C ?syn ?i ?W] =>
        pose proof (fill_story_stories ilike C syn i W) as Hfill;
        pose proof (fill_story_complete ilike C syn i [] [] []
                      eq_refl eq_refl eq_refl W) as Hdone;
        destruct (fill_story ilike C syn i W) as [[e|r] w1]
    end; simpl in *; [done|].
    injection Hdone as ->. rewrite Hfill, Hu. split; [done|].
    cbn. unfold basic_story. by rewrite ?Hs, ?Hu, ?Hc, ?HC.
Qed.

(** C8: a cluster of fewer than two articles makes
    [createStoryFromCluster] return [null] and leaves the world as it was;
    a run of the job stores at most one story for each cluster of two or
    more members of its batch, and reports the number of these clusters. *)
Theorem small_clusters_create_no_story
    (Date_getTime : string -> option Z) (ilike : string -> string -> bool) :
  (forall C w,
     length (articles C) < 2 -> createStoryFromCluster ilike C w = (inr None, w))
  /\ (forall w,
        exists batch w0 r w' new,
          getUnassignedArticles w = (inr batch, w0)
          /\ runClusteringJob Date_getTime ilike w = (inr r, w')
          /\ stories w' = stories w ++ new
          /\ storiesCreated r <= length new
          /\ length new <= clusters r
          /\ clusters r
             = if length batch <? 2 then 0
               else length (filter (fun C => Is_true (2 <=? length (articles C)))
                              (clusterArticles Date_getTime batch default_threshold))).
Proof.
  split.
  - intros C w Hlt.
    destruct (createStoryFromCluster_cases ilike C w)
      as (r & w' & new & E & _ & _ & _ & Hsmall).
    destruct (Hsmall Hlt) as [-> ->]. exact E.
  - intros w. destruct (getUnassignedArticles_run w) as (batch & w0 & E & Hs).
    exists batch, w0. unfold runClusteringJob. rewrite bind_run, E.
    destruct (length batch <? 2).
    + eexists _, w0, []. rewrite app_nil_r. repeat split; simpl; try done; lia.
    + rewrite bind_run.
      destruct (create_stories_bound ilike
                  (filter (fun C => Is_true (2 <=? length (articles C)))
                     (clusterArticles Date_getTime batch default_threshold)) 0 w0)
        as (k & w' & new & E' & Hst & Hk & Hnew).
      rewrite E'. eexists _, w', new. rewrite Hst, Hs.
      repeat split; simpl; try done.
      rewrite list_filter_filter in Hnew.
      etrans; [exact Hnew|]. apply Nat.eq_le_incl. f_equal.
      apply list_filter_iff. tauto.
Qed.

(** ** Merging connections *)

Lemma same_triple_iff r row : same_triple r row = true <-> triple r = triple row.
Proof.
  unfold same_triple, triple.
  rewrite !andb_true_iff, !Nat.eqb_eq, String.eqb_eq.
  split; [intros [[-> ->] ->]; done|]. by intros [= -> -> ->].
Qed.

Lemma upsert_connection_triples row table :
  NoDup (map triple table) -> NoDup (map triple (upsert_connection row table)).
Proof.
  induction table as [|r table IH]; simpl; intros Hnd.
  - apply NoDup_singleton.
  - apply NoDup_cons in Hnd as [Hr Hnd].
    destruct (same_triple r row) eqn:E; simpl.
    + apply same_triple_iff in E. rewrite <- E. by apply NoDup_cons.
    + apply NoDup_cons. split; [|by apply IH].
      intros Hin. apply list_elem_of_fmap in Hin as (r' & Hk & Hin).
      assert (forall x, x ∈ upsert_connection row table -> x = row \/ x ∈ table) as Hup.
      { clear. induction table as [|r table IH]; simpl; intros x Hx.
        - apply list_elem_of_singleton in Hx. by left.
        - destruct (same_triple r row).
          + apply elem_of_cons in Hx as [->|Hx]; [by left|]. right. by right.
          + apply elem_of_cons in Hx as [->|Hx]; [right; by left|].
            destruct (IH x Hx); [by left|]. right. by right. }
      destruct (Hup r' Hin) as [->|Hin'].
      * apply same_triple_iff in Hk. by rewrite Hk in E.
      * apply Hr. rewrite Hk. by apply list_elem_of_fmap_2.
Qed.

Lemma filter_none {A} (P : A -> Prop) `{!forall x, Decision (P x)} (l : list A) :
  (forall x, x ∈ l -> ~ P x) -> filter P l = [].
Proof.
  induction l as [|x l IH]; intros Hl; [done|].
  rewrite filter_cons_False by (apply Hl; constructor).
  apply IH. intros y Hy. apply Hl. by constructor.
Qed.

Lemma upsert_connection_one_row row table key :
  key = triple row ->
  NoDup (map triple table) ->
  filter (fun r => triple r = key) (upsert_connection row table) = [row].
Proof.
  intros ->.
  induction table as [|r table IH]; simpl; intros Hnd.
  - by rewrite filter_cons_True.
  - apply NoDup_cons in Hnd as [Hr Hnd].
    destruct (same_triple r row) eqn:E.
    + apply same_triple_iff in E.
      rewrite filter_cons_True by done. f_equal.
      apply filter_none. intros x Hx Hk.
      apply Hr. rewrite E, <- Hk. by apply list_elem_of_fmap_2.
    + rewrite filter_cons_False; [by apply IH|].
      intros Hk. apply same_triple_iff in Hk. by rewrite Hk in E.
Qed.

Lemma served_next_S n w :
  served_next (S n) w -> next_served w = true /\ served_next n (after_request w).
Proof.
  unfold served_next, next_served, after_request.
  destruct w as [? ? ? ? ? ? ? ? ? ? fs]. simpl.
  destruct fs as [|f fs]; simpl.
  - intros _. split; [done|]. by rewrite take_nil.
  - intros H. apply Forall_cons in H as [-> H]. done.
Qed.

Lemma served_next_le m n w : m <= n -> served_next n w -> served_next m w.
Proof.
  unfold served_next. intros Hle H.
  replace m with (m `min` n) by lia. rewrite <- take_take. by apply Forall_take.
Qed.

Section ConnectionFacts.

Context (ilike : string -> string -> bool).

Lemma save_connection_run story connection w :
  let w1 := after_request w in
  let w2 := after_request w1 in
  let w3 := after_request w2 in
  save_connection ilike story connection w
  = match (if next_served w
           then resolve ilike (entities w) (con_source connection) else None),
          (if next_served w1
           then resolve ilike (entities w) (con_target connection) else None) with
    | Some src, Some tgt =>
        (inr tt,
         if next_served w2
         then with_entity_connections
                (upsert_connection (connection_row story src tgt connection)
                                   (entity_connections w)) w3
         else w3)
    | _, _ => (inr tt, w2)
    end.
Proof.
  cbv [save_connection entities_find entity_connections_upsert mbind Eff_bind bind
       served get_world modify ret].
  cbn [entities after_request with_faults].
  destruct (next_served w), (next_served (after_request w));
    repeat case_match; reflexivity.
Qed.

Lemma save_connection_served story connection src tgt w :
  served_next 3 w ->
  resolve ilike (entities w) (con_source connection) = Some src ->
  resolve ilike (entities w) (con_target connection) = Some tgt ->
  save_connection ilike story connection w
  = (inr tt,
     with_entity_connections
       (upsert_connection (connection_row story src tgt connection)
                          (entity_connections w))
       (after_request (after_request (after_request w)))).
Proof.
  intros Hserved Hs Ht.
  apply served_next_S in Hserved as [Ha Hserved].
  apply served_next_S in Hserved as [Hb Hserved].
  apply served_next_S in Hserved as [Hc _].
  rewrite save_connection_run. by rewrite Ha, Hb, Hc, Hs, Ht.
Qed.

End ConnectionFacts.

(** C6: saving a connection never changes the table of entities; when
    one of the two names does not resolve to an entity the connection is
    skipped, every table stays as it was and no exception is raised; and
    when the same source, target and relationship type are saved twice the
    table holds one row for them, with the label, strength, evidence and
    story of the second call. *)
Theorem connection_merge (ilike : string -> string -> bool) :
  (forall story connection w,
     entities (save_connection ilike story connection w).2 = entities w)
  /\ (forall story connection w,
        resolve ilike (entities w) (con_source connection) = None
        \/ resolve ilike (entities w) (con_target connection) = None ->
        (save_connection ilike story connection w).1 = inr tt
        /\ same_tables w (save_connection ilike story connection w).2)
  /\ (forall story1 story2 c1 c2 src tgt w,
        NoDup (map triple (entity_connections w)) ->
        served_next 6 w ->
        resolve ilike (entities w) (con_source c1) = Some src ->
        resolve ilike (entities w) (con_target c1) = Some tgt ->
        resolve ilike (entities w) (con_source c2) = Some src ->
        resolve ilike (entities w) (con_target c2) = Some tgt ->
        con_relationship c2 = con_relationship c1 ->
        let w1 := (save_connection ilike story1 c1 w).2 in
        let w2 := (save_connection ilike story2 c2 w1).2 in
        filter (fun r => triple r = (src, tgt, con_relationship c1))
               (entity_connections w2)
        = [ {| source_entity_id := src;
               target_entity_id := tgt;
               relationship_type := con_relationship c1;
               relationship_label := relationship_label_of (con_relationship c1);
               strength := con_strength c2;
               evidence := con_evidence c2;
               conn_story_id := story2 |} ]).
Proof.
  split; [|split].
  - intros story connection w. by apply save_connection_preserves.
  - intros story connection w Hnone.
    rewrite save_connection_run.
    destruct Hnone as [-> | ->]; repeat case_match; simpl; by repeat split.
  - intros story1 story2 c1 c2 src tgt w Hnd Hserved Hs1 Ht1 Hs2 Ht2 Hrel w1 w2.
    subst w2 w1.
    pose proof (served_next_le 3 6 w ltac:(lia) Hserved) as Hfirst.
    do 3 (apply served_next_S in Hserved as [_ Hserved]).
    rewrite (save_connection_served ilike story1 c1 src tgt w) by done.
    cbn [snd].
    rewrite (save_connection_served ilike story2 c2 src tgt) by done.
    cbn [snd entity_connections with_entity_connections].
    rewrite <- Hrel.
    apply (upsert_connection_one_row (connection_row story2 src tgt c2)); [done|].
    by apply upsert_connection_triples.
Qed.

(** ** A story that is stored and not counted *)

(** C7 fails on the code: the answer of the text-generation service parses
    and has its sections but no [entities] key. The story row and the
    links to its two articles are written, then iterating over the missing
    entities raises an exception, which [createStoryFromCluster] catches
    by returning [null]: the run reports no story created although one is
    stored. *)
Theorem runClusteringJob_uncounted_story :
  let out := runClusteringJob sample_getTime sample_ilike entityless_world in
  stories entityless_world = []
  /\ out.1 = inr {| articlesProcessed := 2; storiesCreated := 0; clusters := 1 |}
  /\ map story_title (stories out.2) = ["Central bank raises rates"]
  /\ map sa_article_id (story_articles out.2) = ["a1"; "a2"].
Proof.
  intros out. subst out. unfold runClusteringJob. rewrite bind_run.
  replace (getUnassignedArticles entityless_world)
    with (@inr Exn _ [rates_ap; rates_reuters],
          after_request (after_request entityless_world))
    by (vm_compute; reflexivity).
  cbn [length Nat.ltb Nat.leb].
  rewrite cluster_same_text.
  vm_compute. by repeat split.
Qed.

(** ** The similarity of two texts without tokens *)

(** C3 fails on the code: when neither text has a token the union is
    empty, the Jaccard quotient is 0 / 0, and the combined similarity is
    [NaN], which is neither 0 nor a value between 0 and 1. The cosine part
    has a guard for this case and is 0. *)
Theorem calculateSimilarity_without_tokens :
  tokenize (article_text blank_one) = []
  /\ tokenize (article_text blank_two) = []
  /\ jaccardSimilarity [] [] = NaN
  /\ cosineSimilarity [] [] = Fin 0
  /\ calculateSimilarity blank_one blank_two = NaN
  /\ ~ (Num.le (Fin 0) (calculateSimilarity blank_one blank_two)
        /\ Num.le (calculateSimilarity blank_one blank_two) (Fin 1)).
Proof.
  assert (calculateSimilarity blank_one blank_two = NaN) as E
    by (vm_compute; reflexivity).
  split_and!; try (vm_compute; reflexivity).
  rewrite E. by intros [[] _].
Qed.

(** ** The running flag *)

Module SchedulerFacts.
Import Scheduler.

Lemma update_same {A} job (x : A) f : update job x f job = x.
Proof. unfold update. by rewrite decide_True. Qed.

Lemma update_other {A} job k (x : A) f : k <> job -> update job x f k = f k.
Proof. intros H. unfold update. by rewrite decide_False. Qed.

(** In every state the scheduler can be in, a job has a body running
    exactly when its flag is set, and never more than one. *)
Lemma reachable_in_flight s :
  reachable s ->
  forall job, in_flight s job = if isRunning (jobStatus s job) then 1 else 0.
Proof.
  induction 1 as [|s e s' _ IH Hstep]; intros job; [done|].
  destruct e as [job' now|job' outcome]; simpl in Hstep.
  - injection Hstep as <-. unfold trigger.
    destruct (isRunning (jobStatus s job')) eqn:Hrun; [apply IH|]. simpl.
    destruct (decide (job = job')) as [->|Hne].
    + rewrite !update_same. simpl. by rewrite IH, Hrun.
    + rewrite !update_other by done. apply IH.
  - unfold settle in Hstep.
    pose proof (IH job') as Hjob.
    destruct (in_flight s job') as [|n] eqn:Hn; [done|].
    injection Hstep as <-. simpl.
    destruct (decide (job = job')) as [->|Hne].
    + rewrite !update_same. simpl.
      destruct (isRunning (jobStatus s job')); lia.
    + rewrite !update_other by done. apply IH.
Qed.

Lemma trigger_while_running job now s :
  isRunning (jobStatus s job) = true -> trigger job now s = s.
Proof. intros H. unfold trigger. by rewrite H. Qed.

Lemma trigger_when_idle job now s :
  isRunning (jobStatus s job) = false ->
  executions (trigger job now s) job = S (executions s job)
  /\ isRunning (jobStatus (trigger job now s) job) = true.
Proof. intros H. unfold trigger. rewrite H. simpl. by rewrite !update_same. Qed.

Lemma step_other_job s e s' job :
  step s e = Some s' -> triggers job e = false -> settles job e = false ->
  executions s' job = executions s job
  /\ isRunning (jobStatus s' job) = isRunning (jobStatus s job).
Proof.
  intros Hstep Ht Hs. destruct e as [job' now|job' outcome]; simpl in *.
  - apply bool_decide_eq_false in Ht. injection Hstep as <-. unfold trigger.
    destruct (isRunning (jobStatus s job')); [done|]. simpl.
    by rewrite !update_other by done.
  - apply bool_decide_eq_false in Hs. unfold settle in Hstep.
    destruct (in_flight s job'); [done|]. injection Hstep as <-. simpl.
    by rewrite !update_other by done.
Qed.

(** While the flag of a job is set and its body has not ended, no event
    enters the body again. *)
Lemma run_while_running job events s s' :
  isRunning (jobStatus s job) = true ->
  forallb (fun e => negb (settles job e)) events = true ->
  run s events = Some s' ->
  executions s' job = executions s job /\ isRunning (jobStatus s' job) = true.
Proof.
  revert s. induction events as [|e events IH]; intros s Hrun Hns Hr; simpl in *.
  - by injection Hr as <-.
  - apply andb_true_iff in Hns as [He Hns]. apply negb_true_iff in He.
    destruct (step s e) as [s1|] eqn:Hstep; [|done].
    destruct (triggers job e) eqn:Ht.
    + destruct e as [job' now|]; [|done]. simpl in Ht.
      apply bool_decide_eq_true in Ht. subst job'. simpl in Hstep.
      rewrite trigger_while_running in Hstep by done. injection Hstep as <-.
      by apply IH.
    + destruct (step_other_job s e s1 job Hstep Ht He) as [Hx Hf].
      rewrite <- Hx. apply IH; [by rewrite Hf|done|done].
Qed.

(** From a state in which the job is idle, any number of triggers that
    arrive before the body ends enter the body once. *)
Lemma run_from_idle job events s s' :
  isRunning (jobStatus s job) = false ->
  forallb (fun e => negb (settles job e)) events = true ->
  run s events = Some s' ->
  executions s' job
  = executions s job + (if existsb (triggers job) events then 1 else 0).
Proof.
  revert s. induction events as [|e events IH]; intros s Hidle Hns Hr; simpl in *.
  - injection Hr as <-. lia.
  - apply andb_true_iff in Hns as [He Hns]. apply negb_true_iff in He.
    destruct (step s e) as [s1|] eqn:Hstep; [|done].
    destruct (triggers job e) eqn:Ht; simpl.
    + destruct e as [job' now|]; [|done]. simpl in Ht.
      apply bool_decide_eq_true in Ht. subst job'. simpl in Hstep.
      injection Hstep as <-.
      destruct (trigger_when_idle job now s Hidle) as [Hx Hrun].
      destruct (run_while_running job events _ s' Hrun Hns Hr) as [Hx' _].
      lia.
    + destruct (step_other_job s e s1 job Hstep Ht He) as [Hx Hf].
      rewrite <- Hx. apply IH; [by rewrite Hf|done|done].
Qed.

End SchedulerFacts.

(** C5: for each job, in every state the scheduler can reach: a trigger
    that finds the flag set changes nothing, so the body is not entered;
    at most one body is running; two triggers in a row on an idle job, and
    more generally any events without the end of that body among which
    the job is triggered, enter the body exactly once; when the body
    ends, with a result or with an exception, the flag is cleared and the
    outcome recorded; the flag is set exactly while a body is running, so
    that a body that was entered can always end, whatever its outcome, and
    the flag is never left set without one; and a run from an idle job to
    the end of its body, with a result or with an exception, has entered
    the body once and leaves the flag cleared, in a state the scheduler
    can be in. *)
Theorem single_flight (s : Scheduler.State) (job : Scheduler.Job) :
  Scheduler.reachable s ->
  (forall now,
     Scheduler.isRunning (Scheduler.jobStatus s job) = true ->
     Scheduler.trigger job now s = s)
  /\ Scheduler.in_flight s job <= 1
  /\ (forall now1 now2,
        Scheduler.isRunning (Scheduler.jobStatus s job) = false ->
        Scheduler.executions
          (Scheduler.trigger job now2 (Scheduler.trigger job now1 s)) job
        = S (Scheduler.executions s job))
  /\ (forall events s',
        Scheduler.isRunning (Scheduler.jobStatus s job) = false ->
        forallb (fun e => negb (Scheduler.settles job e)) events = true ->
        existsb (Scheduler.triggers job) events = true ->
        Scheduler.run s events = Some s' ->
        Scheduler.executions s' job = S (Scheduler.executions s job))
  /\ (forall outcome s',
        Scheduler.settle job outcome s = Some s' ->
        Scheduler.isRunning (Scheduler.jobStatus s' job) = false
        /\ Scheduler.lastResult (Scheduler.jobStatus s' job) = Some outcome
        /\ Scheduler.in_flight s' job = 0)
  /\ (forall outcome,
        is_Some (Scheduler.settle job outcome s)
        <-> Scheduler.isRunning (Scheduler.jobStatus s job) = true)
  /\ (forall now outcome,
        Scheduler.isRunning (Scheduler.jobStatus s job) = false ->
        exists s',
          Scheduler.run s [Scheduler.Trigger job now; Scheduler.Settle job outcome]
          = Some s'
          /\ Scheduler.reachable s'
          /\ Scheduler.executions s' job = S (Scheduler.executions s job)
          /\ Scheduler.isRunning (Scheduler.jobStatus s' job) = false
          /\ Scheduler.lastResult (Scheduler.jobStatus s' job) = Some outcome).
Proof.
  intros Hreach.
  pose proof (SchedulerFacts.reachable_in_flight s Hreach job) as Hin.
  split_and!.
  - intros now. apply SchedulerFacts.trigger_while_running.
  - rewrite Hin. destruct (Scheduler.isRunning _); lia.
  - intros now1 now2 Hidle.
    destruct (SchedulerFacts.trigger_when_idle job now1 s Hidle) as [Hx Hrun].
    by rewrite SchedulerFacts.trigger_while_running.
  - intros events s' Hidle Hns Hex Hrun.
    rewrite (SchedulerFacts.run_from_idle job events s s' Hidle Hns Hrun), Hex. lia.
  - intros outcome s' Hsettle. unfold Scheduler.settle in Hsettle.
    destruct (Scheduler.in_flight s job) as [|n] eqn:Hn; [done|].
    injection Hsettle as <-. simpl.
    rewrite !SchedulerFacts.update_same. simpl.
    split_and!; try done. destruct (Scheduler.isRunning _); lia.
  - intros outcome. unfold Scheduler.settle. rewrite Hin.
    destruct (Scheduler.isRunning _); [by split; [|eexists]|].
    split; [by intros [? ?]|done].
  - intros now outcome Hidle.
    destruct (SchedulerFacts.trigger_when_idle job now s Hidle) as [Hx Hrun].
    assert (Scheduler.reachable (Scheduler.trigger job now s)) as Hreach1
      by (by eapply (Scheduler.reachable_step s (Scheduler.Trigger job now))).
    pose proof (SchedulerFacts.reachable_in_flight _ Hreach1 job) as Hin1.
    rewrite Hrun in Hin1.
    cbn [Scheduler.run Scheduler.step]. unfold Scheduler.settle at 1.
    rewrite Hin1. eexists. split; [reflexivity|]. split.
    + eapply (Scheduler.reachable_step _ (Scheduler.Settle job outcome));
        [exact Hreach1|]. simpl. unfold Scheduler.settle. by rewrite Hin1.
    + simpl. by rewrite !SchedulerFacts.update_same.
Qed.

(** ** The statements at sample inputs *)

(** C2 (amended) on the two reports of the rate decision. *)
Lemma clusterArticles_partition_witness :
  NoDup (map id [rates_ap; rates_reuters])
  /\ members_of (clusterArticles sample_getTime [rates_ap; rates_reuters]
                   default_threshold)
     ≡ₚ [rates_ap; rates_reuters].
Proof.
  assert (NoDup (map id [rates_ap; rates_reuters])) as H.
  { refine (bool_decide_unpack (NoDup (map id [rates_ap; rates_reuters])) _).
    vm_compute. exact I. }
  split; [exact H|].
  exact (proj1 (clusterArticles_partition sample_getTime
                  [rates_ap; rates_reuters] default_threshold H)).
Defined.

(** C10 (amended) on the two reports of the rate decision. *)
Lemma clusterArticles_recency_order_witness :
  Forall (dated sample_getTime) [rates_ap; rates_reuters]
  /\ Forall (fun C => StronglySorted (not_older sample_getTime) (articles C))
            (clusterArticles sample_getTime [rates_ap; rates_reuters]
               default_threshold).
Proof.
  assert (Forall (dated sample_getTime) [rates_ap; rates_reuters]) as H.
  { repeat constructor; unfold dated; vm_compute; eexists; reflexivity. }
  split; [exact H|].
  eapply Forall_impl;
    [exact (clusterArticles_recency_order sample_getTime
              [rates_ap; rates_reuters] default_threshold H)|].
  intros C HC. exact (proj1 (proj2 HC)).
Defined.

(** C9 on the two reports of the rate decision. *)
Lemma clusterArticles_deterministic_witness :
  clusterArticles sample_getTime [rates_ap; rates_reuters] default_threshold
  = clusterArticles sample_getTime [rates_ap; rates_reuters] default_threshold.
Proof.
  exact (proj1 (clusterArticles_deterministic sample_getTime sample_getTime
                  [rates_ap; rates_reuters] default_threshold
                  (fun a _ => eq_refl))).
Defined.

(** C4 in a world whose text-generation service answers without a
    content. *)
Lemma synthesis_failure_still_yields_story_witness :
  synthesis_fails [rates_ap; rates_reuters] rates_ap silent_world
  /\ (createStoryFromCluster sample_ilike rates_cluster silent_world).1
     = inr (Some 1)
  /\ stories (createStoryFromCluster sample_ilike rates_cluster silent_world).2
     = [basic_story rates_cluster rates_ap silent_world].
Proof.
  assert (synthesis_fails [rates_ap; rates_reuters] rates_ap silent_world) as H.
  { unfold synthesis_fails. vm_compute. eexists. reflexivity. }
  split; [exact H|].
  refine (proj2 (synthesis_failure_still_yields_story sample_ilike rates_ap
                   [rates_reuters] silent_world H) rates_cluster _ _ _).
  - reflexivity.
  - simpl. lia.
  - reflexivity.
Defined.

(** C6 on two reports of the same relationship, the second in another
    letter case. *)
Lemma connection_merge_witness :
  let w1 := (save_connection sample_ilike 7 first_report graph_world).2 in
  let w2 := (save_connection sample_ilike 8 second_report w1).2 in
  filter (fun r => triple r = (1, 2, "works_for")) (entity_connections w2)
  = [ {| source_entity_id := 1;
         target_entity_id := 2;
         relationship_type := "works_for";
         relationship_label := "works for";
         strength := Fin (6 / 10);
         evidence := "Signed the annual report";
         conn_story_id := 8 |} ].
Proof.
  refine (proj2 (proj2 (connection_merge sample_ilike))
            7 8 first_report second_report 1 2 graph_world _ _ _ _ _ _ _).
  - simpl. constructor.
  - unfold served_next. simpl. constructor.
  - vm_compute. reflexivity.
  - vm_compute. reflexivity.
  - vm_compute. reflexivity.
  - vm_compute. reflexivity.
  - reflexivity.
Defined.

(** C8 on a cluster of one article. *)
Lemma small_clusters_create_no_story_witness :
  length (articles lone_cluster) < 2
  /\ createStoryFromCluster sample_ilike lone_cluster empty_world
     = (inr None, empty_world).
Proof.
  assert (length (articles lone_cluster) < 2) as H by (simpl; lia).
  split; [exact H|].
  exact (proj1 (small_clusters_create_no_story sample_getTime sample_ilike)
           lone_cluster empty_world H).
Defined.

(** C5 at start-up: two calls of [runClusteringJobWrapper] in a row enter
    the body once; and while that body is running, a further call changes
    nothing and the body can end with an exception, which clears the
    flag. *)
Lemma single_flight_witness :
  Scheduler.reachable Scheduler.init
  /\ Scheduler.executions
       (Scheduler.runClusteringJobWrapper "2026-01-18T12:30:01Z"
          (Scheduler.runClusteringJobWrapper "2026-01-18T12:30:00Z"
             Scheduler.init))
       Scheduler.Clustering
     = 1
  /\ Scheduler.reachable
       (Scheduler.runClusteringJobWrapper "2026-01-18T12:30:00Z" Scheduler.init)
  /\ Scheduler.runClusteringJobWrapper "2026-01-18T12:30:01Z"
       (Scheduler.runClusteringJobWrapper "2026-01-18T12:30:00Z" Scheduler.init)
     = Scheduler.runClusteringJobWrapper "2026-01-18T12:30:00Z" Scheduler.init
  /\ exists s',
       Scheduler.settle Scheduler.Clustering (Scheduler.Failed "fetch failed")
         (Scheduler.runClusteringJobWrapper "2026-01-18T12:30:00Z" Scheduler.init)
       = Some s'
       /\ Scheduler.isRunning (Scheduler.jobStatus s' Scheduler.Clustering) = false.
Proof.
  assert (Scheduler.reachable
            (Scheduler.runClusteringJobWrapper "2026-01-18T12:30:00Z"
               Scheduler.init)) as Hreach.
  { eapply (Scheduler.reachable_step Scheduler.init
              (Scheduler.Trigger Scheduler.Clustering "2026-01-18T12:30:00Z"));
      [exact Scheduler.reachable_init|reflexivity]. }
  split; [exact Scheduler.reachable_init|]. split.
  { refine (proj1 (proj2 (proj2 (single_flight Scheduler.init Scheduler.Clustering
                                   Scheduler.reachable_init))) _ _ _).
    reflexivity. }
  split; [exact Hreach|].
  destruct (single_flight _ Scheduler.Clustering Hreach)
    as (Hskip & _ & _ & _ & Hclear & Hends & _).
  split; [exact (Hskip "2026-01-18T12:30:01Z" eq_refl)|].
  destruct (proj2 (Hends (Scheduler.Failed "fetch failed")) eq_refl) as [s' Hs'].
  exists s'. split; [exact Hs'|]. exact (proj1 (Hclear _ _ Hs')).
Defined.

(** * Further properties *)

(** ** The tokenizer *)

Lemma append_cons c (s t : string) :
  (String c s ++ t)%string = String c (s ++ t)%string.
Proof. reflexivity. Qed.

Lemma chars_string_map f s : chars (string_map f s) = map f (chars s).
Proof. induction s as [|c s IH]; simpl; [done|]. by f_equal. Qed.

Lemma chars_app s t : chars (s ++ t)%string = chars s ++ chars t.
Proof.
  induction s as [|c s IH]; [done|].
  rewrite append_cons. simpl. f_equal. exact IH.
Qed.

Lemma chars_length s : length (chars s) = String.length s.
Proof. induction s as [|c s IH]; simpl; [done|]. f_equal. exact IH. Qed.

Lemma string_map_app f s t :
  string_map f (s ++ t)%string = (string_map f s ++ string_map f t)%string.
Proof.
  induction s as [|c s IH]; [done|].
  rewrite append_cons. simpl. rewrite append_cons. by f_equal.
Qed.

Lemma string_map_id f s :
  Forall (fun c => f c = c) (chars s) -> string_map f s = s.
Proof.
  induction s as [|c s IH]; simpl; [done|].
  intros H. apply Forall_cons in H as [-> H]. f_equal. by apply IH.
Qed.

Lemma string_app_nil_r (s : string) : (s ++ "")%string = s.
Proof. induction s as [|c s IH]; [done|]. rewrite append_cons. by f_equal. Qed.

Lemma string_app_assoc (s t u : string) :
  ((s ++ t) ++ u)%string = (s ++ (t ++ u))%string.
Proof. induction s as [|c s IH]; [done|]. rewrite !append_cons. by f_equal. Qed.

(** Every character of a piece was in the piece under way or is a
    character of the text that is not white space. *)
Lemma split_ws_chars s piece in_run p c :
  p ∈ split_ws s piece in_run -> c ∈ chars p ->
  c ∈ chars piece \/ (c ∈ chars s /\ is_space c = false).
Proof.
  revert piece in_run. induction s as [|x s IH]; intros piece in_run; simpl.
  - intros ->%list_elem_of_singleton Hc. by left.
  - destruct (is_space x) eqn:Hx.
    + destruct in_run.
      * intros Hp Hc. destruct (IH _ _ Hp Hc) as [H|[H1 H2]]; [by left|].
        right. split; [by right|done].
      * intros [->|Hp]%elem_of_cons Hc; [by left|].
        destruct (IH _ _ Hp Hc) as [H|[H1 H2]]; [by apply elem_of_nil in H|].
        right. split; [by right|done].
    + intros Hp Hc. destruct (IH _ _ Hp Hc) as [H|[H1 H2]].
      * rewrite chars_app in H. apply elem_of_app in H as [H|H]; [by left|].
        simpl in H. apply list_elem_of_singleton in H as ->.
        right. split; [by left|done].
      * right. split; [by right|done].
Qed.

(** The characters that reach [split]: lower-cased, and every one that is
    neither a word character nor white space turned into a blank. *)
Lemma normalised_char text c :
  c ∈ chars (strip_punctuation (toLowerCase text)) ->
  is_space c = false -> is_token_char c = true.
Proof.
  unfold strip_punctuation, toLowerCase. rewrite !chars_string_map.
  intros (c1 & -> & (c0 & -> & _)%list_elem_of_fmap)%list_elem_of_fmap.
  destruct c0 as [[] [] [] [] [] [] [] []]; vm_compute; intros H;
    first [reflexivity|discriminate H].
Qed.

Lemma keeps_word_iff word :
  Is_true ((2 <? String.length word) && negb (existsb (String.eqb word) stopWords))
  <-> 2 < String.length word /\ word ∉ stopWords.
Proof.
  rewrite andb_True, negb_True, Is_true_true, Nat.ltb_lt.
  apply and_iff_compat_l. rewrite Is_true_true, existsb_exists.
  split.
  - intros H Hin. apply H. exists word. split; [|apply String.eqb_refl].
    by apply list_elem_of_In.
  - intros H (x & Hin & ->%String.eqb_eq). by apply H, list_elem_of_In.
Qed.

(** X1: whatever the text, every token that [tokenize] returns has at
    least three characters, all of them among [a-z0-9_], and is not a stop
    word. *)
Theorem tokenize_yields_clean_tokens (text : string) :
  Forall clean_token (tokenize text).
Proof.
  apply Forall_forall. intros t Ht. unfold tokenize in Ht.
  apply list_elem_of_filter in Ht as [Hkeep Ht].
  apply keeps_word_iff in Hkeep as [Hlen Hstop].
  split_and!; [done|done|].
  apply Forall_forall. intros c Hc. apply Is_true_true.
  destruct (split_ws_chars _ _ _ _ _ Ht Hc) as [H|[H1 H2]];
    [by apply elem_of_nil in H|].
  by apply (normalised_char text).
Qed.

(** A run of white space that was already entered leaves at most one more
    empty piece, which no filter that rejects the empty string sees. *)
Lemma split_ws_blank (P : string -> Prop) `{!forall x, Decision (P x)} b :
  ~ P "" ->
  filter P (split_ws b "" true) = filter P (split_ws b "" false).
Proof.
  intros Hempty. destruct b as [|x b]; simpl; [done|].
  destruct (is_space x); [|done].
  by rewrite filter_cons_False.
Qed.

Lemma split_ws_app_space (P : string -> Prop) `{!forall x, Decision (P x)}
    a c b piece in_run :
  ~ P "" -> is_space c = true -> (in_run = true -> piece = "") ->
  filter P (split_ws (a ++ String c b) piece in_run)
  = filter P (split_ws a piece in_run) ++ filter P (split_ws b "" false).
Proof.
  intros Hempty Hc. revert piece in_run.
  induction a as [|x a IH]; intros piece in_run Hinv.
  - change ("" ++ String c b)%string with (String c b). simpl. rewrite Hc.
    destruct in_run.
    + rewrite (Hinv eq_refl), filter_cons_False by done.
      by rewrite split_ws_blank.
    + rewrite !filter_cons, filter_nil, split_ws_blank by done.
      by destruct (decide (P piece)).
  - rewrite append_cons. simpl. destruct (is_space x).
    + destruct in_run.
      * by apply IH.
      * rewrite !filter_cons, IH by done. by destruct (decide (P piece)).
    + by apply IH.
Qed.

Lemma split_ws_cons c s piece in_run :
  split_ws (String c s) piece in_run
  = if is_space c then
      if in_run then split_ws s piece true else piece :: split_ws s "" true
    else split_ws s (piece ++ String c "")%string false.
Proof. reflexivity. Qed.

(** A word is read in one piece. *)
Lemma split_ws_word x t rest piece in_run :
  Forall (fun c => is_space c = false) (x :: chars t) ->
  split_ws (String x t ++ rest) piece in_run
  = split_ws rest (piece ++ String x t) false.
Proof.
  revert x piece in_run. induction t as [|y t IH]; intros x piece in_run H;
    apply Forall_cons in H as [Hx H]; rewrite append_cons, split_ws_cons, Hx.
  - done.
  - rewrite IH by done. f_equal.
    rewrite string_app_assoc. by rewrite append_cons.
Qed.

Lemma split_ws_join t ts in_run :
  Forall (fun w => w <> "" /\ Forall (fun c => is_space c = false) (chars w))
         (t :: ts) ->
  split_ws (join " " (t :: ts)) "" in_run = t :: ts.
Proof.
  revert t in_run. induction ts as [|t' ts IH]; intros t in_run H;
    apply Forall_cons in H as [[Hne Ht] H];
    destruct t as [|x t]; try done.
  - cbn [join]. rewrite <- (string_app_nil_r (String x t)) at 1.
    by rewrite split_ws_word.
  - change (join " " (String x t :: t' :: ts))
      with (String x t ++ String " " (join " " (t' :: ts)))%string.
    rewrite split_ws_word by done. simpl. f_equal. by apply IH.
Qed.

Lemma token_char_facts c :
  is_token_char c = true ->
  is_space c = false /\ is_upper c = false /\ is_word c = true.
Proof.
  destruct c as [[] [] [] [] [] [] [] []]; vm_compute; intros H;
    first [done|discriminate H].
Qed.

(** X2: a list of such tokens, joined by blanks, is tokenized back into
    the same list: the tokenizer loses nothing of a text that is already
    made of tokens, and keeps their order and their repetitions. *)
Theorem tokenize_join_round_trip (tokens : list string) :
  Forall clean_token tokens -> tokenize (join " " tokens) = tokens.
Proof.
  intros Hclean. destruct tokens as [|t ts]; [by vm_compute|].
  unfold tokenize.
  assert (strip_punctuation (toLowerCase (join " " (t :: ts)))
          = join " " (t :: ts)) as ->.
  { unfold strip_punctuation, toLowerCase.
    assert (Forall (fun c => Is_true (is_token_char c) \/ c = " "%char)
                   (chars (join " " (t :: ts)))) as Hchars.
    { clear -Hclean. revert t Hclean.
      induction ts as [|t' ts IH]; intros t Hclean;
        apply Forall_cons in Hclean as [(_ & _ & Ht) Hclean].
      - cbn [join]. eapply Forall_impl; [exact Ht|]. by left.
      - change (join " " (t :: t' :: ts))
          with (t ++ String " " (join " " (t' :: ts)))%string.
        rewrite chars_app. apply Forall_app. split.
        + eapply Forall_impl; [exact Ht|]. by left.
        + simpl. apply Forall_cons. split; [by right|by apply IH]. }
    rewrite (string_map_id _ (join " " (t :: ts))).
    - apply string_map_id. eapply Forall_impl; [exact Hchars|].
      intros c [Hc| ->]; [|done].
      apply Is_true_true, token_char_facts in Hc as (_ & _ & ->). done.
    - eapply Forall_impl; [exact Hchars|].
      intros c [Hc| ->]; [|done].
      apply Is_true_true, token_char_facts in Hc as (_ & -> & _). done. }
  rewrite split_ws_join.
  - induction Hclean as [|w ws (Hlen & Hstop & _) _ IH]; [done|].
    rewrite filter_cons_True by (by apply keeps_word_iff). by f_equal.
  - eapply Forall_impl; [exact Hclean|].
    intros w (Hlen & _ & Hw). split.
    + intros ->. simpl in Hlen. lia.
    + eapply Forall_impl; [exact Hw|].
      intros c Hc. by apply Is_true_true, token_char_facts in Hc as (-> & _).
Qed.

(** X2 on a list of four tokens, one of them repeated. *)
Lemma tokenize_join_round_trip_witness :
  Forall clean_token ["central"; "bank"; "raises"; "bank"]
  /\ tokenize (join " " ["central"; "bank"; "raises"; "bank"])
     = ["central"; "bank"; "raises"; "bank"].
Proof.
  assert (Forall clean_token ["central"; "bank"; "raises"; "bank"]) as H.
  { repeat constructor; simpl; try lia;
      refine (bool_decide_unpack _ _); vm_compute; exact I. }
  split; [exact H|].
  exact (tokenize_join_round_trip ["central"; "bank"; "raises"; "bank"] H).
Defined.

(** X3: the tokens of two texts put together with a blank between them
    are the tokens of the first followed by the tokens of the second; so
    the tokens that [calculateSimilarity] compares are those of the title
    followed by those of the excerpt, and no token runs across the two. *)
Theorem tokenize_title_then_excerpt :
  (forall s1 s2 : string,
     tokenize (s1 ++ " " ++ s2) = tokenize s1 ++ tokenize s2)
  /\ (forall a : Article,
        tokenize (article_text a) = tokenize (title a) ++ tokenize (excerpt a)).
Proof.
  assert (forall s1 s2 : string,
            tokenize (s1 ++ " " ++ s2) = tokenize s1 ++ tokenize s2) as Happ.
  { intros s1 s2.
    unfold tokenize, toLowerCase, strip_punctuation.
    change (" " ++ s2)%string with (String " " s2).
    rewrite !string_map_app. cbn [string_map].
    match goal with
    | |- context [String ?c (string_map _ (string_map _ s2))] =>
        change c with " "%char
    end.
    rewrite split_ws_app_space; [done| |done|done].
    by vm_compute. }
  split; [exact Happ|]. intros a. apply Happ.
Qed.

(** ** Term frequencies *)

Lemma Map_get_set m k v k' :
  Map_get (Map_set m k v) k' = if String.eqb k k' then Some v else Map_get m k'.
Proof.
  induction m as [|[k0 v0] m IH]; simpl; [done|].
  destruct (String.eqb_spec k0 k) as [->|Hne]; simpl.
  - by destruct (String.eqb k k').
  - rewrite IH. destruct (String.eqb_spec k0 k') as [->|Hne']; [|done].
    by rewrite (proj2 (String.eqb_neq k k')).
Qed.

Lemma Map_keys_set m k v : Map_keys (Map_set m k v) = Set_add (Map_keys m) k.
Proof.
  unfold Set_add, Set_has, Map_keys.
  induction m as [|[k0 v0] m IH]; simpl.
  - reflexivity.
  - destruct (String.eqb_spec k0 k) as [->|Hne]; simpl.
    + by rewrite bool_decide_eq_true_2 by left.
    + rewrite IH. destruct (bool_decide_reflect (k ∈ map fst m)) as [Hin|Hout].
      * by rewrite bool_decide_eq_true_2 by (by right).
      * rewrite bool_decide_eq_false_2; [done|].
        intros [->|?]%elem_of_cons; [by apply Hne|by apply Hout].
Qed.

Lemma Map_get_None m k : Map_get m k = None <-> k ∉ Map_keys m.
Proof.
  unfold Map_keys. induction m as [|[k0 v0] m IH]; simpl.
  - split; [intros _; apply not_elem_of_nil|done].
  - rewrite not_elem_of_cons.
    destruct (String.eqb_spec k0 k) as [->|Hne]; [by split; [|intros []]|].
    rewrite IH. split; [by split|tauto].
Qed.

Lemma occurrences_cons t x tokens :
  occurrences t (x :: tokens)
  = (if String.eqb x t then 1 else 0) + occurrences t tokens.
Proof.
  unfold occurrences. rewrite filter_cons.
  destruct (String.eqb_spec x t) as [->|Hne].
  - by rewrite decide_True.
  - by rewrite decide_False by (by intros ->).
Qed.

Lemma occurrences_pos t tokens : 0 < occurrences t tokens <-> t ∈ tokens.
Proof.
  induction tokens as [|x tokens IH].
  - split; [by vm_compute; lia|by intros ?%elem_of_nil].
  - rewrite occurrences_cons, elem_of_cons.
    destruct (String.eqb_spec x t) as [->|Hne].
    + split; [by left|lia].
    + rewrite <- IH. simpl. split; [by right|]. by intros [->|].
Qed.

Lemma occurrences_perm t tokens tokens' :
  tokens ≡ₚ tokens' -> occurrences t tokens = occurrences t tokens'.
Proof. intros H. unfold occurrences. by rewrite H. Qed.

(** The running frequency map: every token read adds one to its entry. *)
Lemma term_frequencies_fold tokens m t :
  let freq := fold_left (fun freq t => Map_set freq t (default 0 (Map_get freq t) + 1))
                        tokens m in
  default 0 (Map_get freq t) = default 0 (Map_get m t) + occurrences t tokens
  /\ Map_keys freq = fold_left Set_add tokens (Map_keys m).
Proof.
  revert m. induction tokens as [|x tokens IH]; intros m; cbn [fold_left].
  - split; [|done]. unfold occurrences. simpl. lia.
  - destruct (IH (Map_set m x (default 0 (Map_get m x) + 1))) as [H1 H2].
    cbv zeta in *. rewrite H1, H2, Map_get_set, Map_keys_set, occurrences_cons.
    split; [|done].
    destruct (String.eqb_spec x t) as [->|Hne]; simpl; lia.
Qed.

Lemma term_frequencies_keys tokens :
  Map_keys (term_frequencies tokens) = Set_of tokens.
Proof. apply (term_frequencies_fold tokens [] ""). Qed.

Lemma term_frequencies_default tokens t :
  default 0 (Map_get (term_frequencies tokens) t) = occurrences t tokens.
Proof. apply (term_frequencies_fold tokens [] t). Qed.

(** ** The three sums of the cosine similarity *)

Lemma fold_sums (v1 v2 : string -> nat) terms d m1 m2 :
  fold_left (fun '(d, m1, m2) term =>
               (d + v1 term * v2 term, m1 + v1 term * v1 term,
                m2 + v2 term * v2 term))
            terms (d, m1, m2)
  = (d + sum_list_with (fun x => v1 x * v2 x) terms,
     m1 + sum_list_with (fun x => v1 x * v1 x) terms,
     m2 + sum_list_with (fun x => v2 x * v2 x) terms).
Proof.
  revert d m1 m2. induction terms as [|x terms IH]; intros d m1 m2; simpl.
  - by rewrite !Nat.add_0_r.
  - rewrite IH. f_equal; [f_equal|]; lia.
Qed.

(** All terms of two token lists, as [cosineSimilarity] collects them. *)
Lemma cosine_sums_closed tokens1 tokens2 :
  let allTerms := Set_of (Set_of tokens1 ++ Set_of tokens2) in
  cosine_sums tokens1 tokens2
  = (sum_list_with (fun x => occurrences x tokens1 * occurrences x tokens2) allTerms,
     sum_list_with (fun x => occurrences x tokens1 * occurrences x tokens1) allTerms,
     sum_list_with (fun x => occurrences x tokens2 * occurrences x tokens2) allTerms).
Proof.
  intros allTerms. unfold cosine_sums.
  rewrite !term_frequencies_keys. fold allTerms.
  rewrite (fold_sums (fun term => default 0 (Map_get (term_frequencies tokens1) term))
                     (fun term => default 0 (Map_get (term_frequencies tokens2) term))).
  simpl. f_equal; [f_equal|]; induction allTerms as [|x l IH]; simpl;
    rewrite ?term_frequencies_default; try done; by rewrite IH.
Qed.

Lemma allTerms_elem tokens1 tokens2 x :
  x ∈ Set_of (Set_of tokens1 ++ Set_of tokens2) <-> x ∈ tokens1 \/ x ∈ tokens2.
Proof. by rewrite elem_of_Set_of, elem_of_app, !elem_of_Set_of. Qed.

Lemma allTerms_perm tokens1 tokens2 tokens1' tokens2' :
  (forall x, x ∈ tokens1 \/ x ∈ tokens2 <-> x ∈ tokens1' \/ x ∈ tokens2') ->
  Set_of (Set_of tokens1 ++ Set_of tokens2)
  ≡ₚ Set_of (Set_of tokens1' ++ Set_of tokens2').
Proof.
  intros H. apply NoDup_Permutation; try apply Set_of_NoDup.
  intros x. by rewrite !allTerms_elem.
Qed.

Lemma sum_list_with_zero {A} (f : A -> nat) l :
  sum_list_with f l = 0 <-> forall x, x ∈ l -> f x = 0.
Proof.
  induction l as [|y l IH]; simpl.
  - split; [by intros _ x ?%elem_of_nil|done].
  - rewrite Nat.eq_add_0, IH. split.
    + intros [Hy Hl] x [->|Hx]%elem_of_cons; auto.
    + intros H. split; [apply H; by left|]. intros x Hx. apply H. by right.
Qed.

Lemma magnitude_zero tokens terms :
  (forall x, x ∈ tokens -> x ∈ terms) ->
  sum_list_with (fun x => occurrences x tokens * occurrences x tokens) terms = 0
  <-> tokens = [].
Proof.
  intros Hsub. rewrite sum_list_with_zero. split.
  - intros H. destruct tokens as [|t tokens]; [done|]. exfalso.
    assert (t ∈ t :: tokens) as Hin by left.
    specialize (H t (Hsub t Hin)). apply occurrences_pos in Hin. nia.
  - by intros -> x _.
Qed.

Lemma dot_product_zero tokens1 tokens2 :
  sum_list_with (fun x => occurrences x tokens1 * occurrences x tokens2)
                (Set_of (Set_of tokens1 ++ Set_of tokens2)) = 0
  <-> ~ share_token tokens1 tokens2.
Proof.
  rewrite sum_list_with_zero. split.
  - intros H (t & H1 & H2).
    specialize (H t (proj2 (allTerms_elem _ _ _) (or_introl H1))).
    apply occurrences_pos in H1, H2. nia.
  - intros H x _. destruct (decide (x ∈ tokens1)) as [H1|H1].
    + destruct (decide (x ∈ tokens2)) as [H2|H2]; [destruct H; by exists x|].
      rewrite <- occurrences_pos in H2. lia.
    + rewrite <- occurrences_pos in H1. lia.
Qed.

Lemma cosine_sums_facts tokens1 tokens2 :
  let '(dotProduct, magnitude1, magnitude2) := cosine_sums tokens1 tokens2 in
  (magnitude1 = 0 <-> tokens1 = [])
  /\ (magnitude2 = 0 <-> tokens2 = [])
  /\ (dotProduct = 0 <-> ~ share_token tokens1 tokens2).
Proof.
  rewrite cosine_sums_closed. cbv zeta. split_and!.
  - apply magnitude_zero. intros x Hx. apply allTerms_elem. by left.
  - apply magnitude_zero. intros x Hx. apply allTerms_elem. by right.
  - apply dot_product_zero.
Qed.

Lemma sum_list_with_ext {A} (f g : A -> nat) l :
  (forall x, f x = g x) -> sum_list_with f l = sum_list_with g l.
Proof. intros H. induction l as [|x l IH]; simpl; [done|]. by rewrite H, IH. Qed.

(** ** Symmetry and the order of the words *)

Lemma jaccardSimilarity_ext tokens1 tokens2 tokens1' tokens2' :
  (forall x, x ∈ tokens1 <-> x ∈ tokens1') ->
  (forall x, x ∈ tokens2 <-> x ∈ tokens2') ->
  jaccardSimilarity tokens1 tokens2 = jaccardSimilarity tokens1' tokens2'.
Proof.
  intros H1 H2. rewrite !jaccardSimilarity_sets.
  assert (list_to_set tokens1 = (list_to_set tokens1' : gset string)) as ->.
  { apply set_eq. intros x. by rewrite !elem_of_list_to_set. }
  assert (list_to_set tokens2 = (list_to_set tokens2' : gset string)) as ->.
  { apply set_eq. intros x. by rewrite !elem_of_list_to_set. }
  done.
Qed.

Lemma jaccardSimilarity_comm tokens1 tokens2 :
  jaccardSimilarity tokens1 tokens2 = jaccardSimilarity tokens2 tokens1.
Proof.
  rewrite !jaccardSimilarity_sets.
  by rewrite (comm_L (∩) (list_to_set tokens1)),
             (comm_L (∪) (list_to_set tokens1)).
Qed.

Lemma cosine_sums_perm tokens1 tokens2 tokens1' tokens2' :
  tokens1 ≡ₚ tokens1' -> tokens2 ≡ₚ tokens2' ->
  cosine_sums tokens1 tokens2 = cosine_sums tokens1' tokens2'.
Proof.
  intros H1 H2. rewrite !cosine_sums_closed. cbv zeta.
  assert (Set_of (Set_of tokens1 ++ Set_of tokens2)
          ≡ₚ Set_of (Set_of tokens1' ++ Set_of tokens2')) as HU
    by (apply allTerms_perm; intros x; by rewrite H1, H2).
  f_equal; [f_equal|]; rewrite HU; apply sum_list_with_ext; intros x;
    by rewrite ?(occurrences_perm x _ _ H1), ?(occurrences_perm x _ _ H2).
Qed.

Lemma cosine_sums_swap tokens1 tokens2 :
  cosine_sums tokens2 tokens1
  = let '(dotProduct, magnitude1, magnitude2) := cosine_sums tokens1 tokens2 in
    (dotProduct, magnitude2, magnitude1).
Proof.
  rewrite !cosine_sums_closed. cbv zeta.
  assert (Set_of (Set_of tokens2 ++ Set_of tokens1)
          ≡ₚ Set_of (Set_of tokens1 ++ Set_of tokens2)) as HU
    by (apply allTerms_perm; intros x; tauto).
  f_equal; [f_equal|]; rewrite HU; apply sum_list_with_ext; intros x; lia.
Qed.

Lemma cosineSimilarity_perm tokens1 tokens2 tokens1' tokens2' :
  tokens1 ≡ₚ tokens1' -> tokens2 ≡ₚ tokens2' ->
  cosineSimilarity tokens1 tokens2 = cosineSimilarity tokens1' tokens2'.
Proof.
  intros H1 H2. unfold cosineSimilarity.
  by rewrite (cosine_sums_perm _ _ _ _ H1 H2).
Qed.

Lemma cosineSimilarity_comm tokens1 tokens2 :
  cosineSimilarity tokens1 tokens2 = cosineSimilarity tokens2 tokens1.
Proof.
  unfold cosineSimilarity. rewrite (cosine_sums_swap tokens1 tokens2).
  destruct (cosine_sums tokens1 tokens2) as [[d m1] m2].
  rewrite (orb_comm (m2 =? 0)).
  destruct (_ || _); [done|]. f_equal. by rewrite (Rmult_comm (sqrt (INR m2))).
Qed.

Lemma calculateSimilarity_comm article1 article2 :
  calculateSimilarity article1 article2 = calculateSimilarity article2 article1.
Proof.
  unfold calculateSimilarity.
  by rewrite jaccardSimilarity_comm, cosineSimilarity_comm.
Qed.

(** ** Texts with the same words, texts with no word in common *)

Lemma quotient_zero (a b : R) : (0 < b)%R -> (a / b = 0 <-> a = 0)%R.
Proof.
  intros Hb. unfold Rdiv. split; [|intros ->; lra].
  intros E. apply (Rmult_eq_reg_r (/ b)); [|apply Rinv_neq_0_compat; lra].
  rewrite E. lra.
Qed.

Lemma size_pos_elem (X : gset string) x : x ∈ X -> 0 < size X.
Proof.
  intros Hx. destruct (size X) eqn:E; [|lia].
  apply size_empty_iff in E. by apply E in Hx.
Qed.

Lemma ratio_diag n : 0 < n -> Num.ratio n n = Fin 1.
Proof.
  intros Hn. destruct n as [|n]; [lia|]. unfold Num.ratio. f_equal.
  apply Rdiv_diag. apply not_0_INR. lia.
Qed.

Lemma jaccardSimilarity_same tokens tokens' :
  (forall x, x ∈ tokens <-> x ∈ tokens') -> tokens <> [] ->
  jaccardSimilarity tokens tokens' = Fin 1.
Proof.
  intros H Hne.
  rewrite (jaccardSimilarity_ext tokens tokens' tokens tokens) by done.
  rewrite jaccardSimilarity_sets.
  rewrite (idemp_L (∩)), (idemp_L (∪)).
  apply ratio_diag. destruct tokens as [|t tokens]; [done|].
  apply (size_pos_elem _ t), elem_of_list_to_set. by left.
Qed.

(** X9: two articles whose texts have the same set of tokens, in whatever
    order and however often each is repeated, and at least one token: the
    Jaccard part of their similarity is 1, and the combined similarity is
    a number of at least one half, so that it passes the default
    threshold. The bound is chosen to hold with machine numbers as well,
    where the cosine part of two equal texts is 1 up to rounding only. *)
Theorem same_words_pass_threshold (article1 article2 : Article) :
  (forall t, t ∈ tokens_of article1 <-> t ∈ tokens_of article2) ->
  tokens_of article1 <> [] ->
  jaccardSimilarity (tokens_of article1) (tokens_of article2) = Fin 1
  /\ (exists v, calculateSimilarity article1 article2 = Fin v /\ (1 / 2 <= v)%R)
  /\ Num.geb (calculateSimilarity article1 article2) default_threshold = true.
Proof.
  unfold tokens_of. intros H Hne.
  pose proof (jaccardSimilarity_same _ _ H Hne) as Hj.
  destruct (cosineSimilarity_bounds (tokenize (article_text article1))
              (tokenize (article_text article2))) as (c & Hc & Hc0 & _).
  assert (exists v, calculateSimilarity article1 article2 = Fin v
                    /\ (1 / 2 <= v)%R) as (v & Hv & Hhalf).
  { unfold calculateSimilarity. rewrite Hj, Hc. simpl.
    eexists. split; [reflexivity|]. lra. }
  split_and!; [done|by exists v|].
  rewrite Hv. unfold default_threshold. simpl.
  destruct (Rle_dec (35 / 100) v) as [|Hlow]; [done|]. exfalso. lra.
Qed.

Lemma jaccardSimilarity_zero tokens1 tokens2 :
  tokens1 <> [] \/ tokens2 <> [] ->
  jaccardSimilarity tokens1 tokens2 = Fin 0 <-> ~ share_token tokens1 tokens2.
Proof.
  intros Hne. rewrite jaccardSimilarity_sets.
  set (S1 := list_to_set tokens1 : gset string).
  set (S2 := list_to_set tokens2 : gset string).
  assert (0 < size (S1 ∪ S2)) as Hu.
  { destruct Hne as [Hne|Hne].
    - destruct tokens1 as [|t ts]; [done|].
      apply (size_pos_elem (S1 ∪ S2) t).
      apply elem_of_union_l, elem_of_list_to_set. by left.
    - destruct tokens2 as [|t ts]; [done|].
      apply (size_pos_elem (S1 ∪ S2) t).
      apply elem_of_union_r, elem_of_list_to_set. by left. }
  assert (size (S1 ∩ S2) = 0 <-> ~ share_token tokens1 tokens2) as <-.
  { rewrite size_empty_iff. unfold share_token. split.
    - intros He (t & H1 & H2). apply (not_elem_of_empty (C := gset string) t).
      rewrite <- He. apply elem_of_intersection.
      unfold S1, S2. by rewrite !elem_of_list_to_set.
    - intros H. apply set_equiv. intros t.
      unfold S1, S2. rewrite elem_of_intersection, !elem_of_list_to_set.
      split; [|by intros ?%not_elem_of_empty].
      intros [H1 H2]. destruct H. by exists t. }
  unfold Num.ratio. destruct (size (S1 ∪ S2)) as [|u] eqn:Eu; [lia|].
  assert (0 < INR (S u))%R as Hpos by (apply lt_0_INR; lia).
  split.
  - intros [= E]. apply quotient_zero in E; [|done]. by apply INR_eq.
  - intros ->. f_equal. by apply quotient_zero.
Qed.

Lemma cosineSimilarity_zero tokens1 tokens2 :
  cosineSimilarity tokens1 tokens2 = Fin 0 <-> ~ share_token tokens1 tokens2.
Proof.
  unfold cosineSimilarity.
  pose proof (cosine_sums_facts tokens1 tokens2) as H.
  destruct (cosine_sums tokens1 tokens2) as [[d m1] m2].
  destruct H as (H1 & H2 & Hd).
  destruct (Nat.eqb_spec m1 0) as [E1|E1]; simpl.
  { split; [|done]. intros _ (t & Ht & _).
    rewrite (proj1 H1 E1) in Ht. by apply elem_of_nil in Ht. }
  destruct (Nat.eqb_spec m2 0) as [E2|E2]; simpl.
  { split; [|done]. intros _ (t & _ & Ht).
    rewrite (proj1 H2 E2) in Ht. by apply elem_of_nil in Ht. }
  rewrite <- Hd.
  assert (0 < sqrt (INR m1) * sqrt (INR m2))%R as Hden.
  { apply Rmult_lt_0_compat; apply sqrt_lt_R0, lt_0_INR; lia. }
  split.
  - intros [= E]. apply quotient_zero in E; [|done]. by apply INR_eq.
  - intros ->. f_equal. by apply quotient_zero.
Qed.

(** X10: as long as one of the two texts has a token, the similarity of
    two articles is 0 exactly when their texts have no token in common. *)
Theorem similarity_zero_iff_no_common_token (article1 article2 : Article) :
  tokens_of article1 <> [] \/ tokens_of article2 <> [] ->
  calculateSimilarity article1 article2 = Fin 0
  <-> ~ share_token (tokens_of article1) (tokens_of article2).
Proof.
  unfold tokens_of. intros Hne. unfold calculateSimilarity.
  pose proof (jaccardSimilarity_zero _ _ Hne) as Hj.
  pose proof (cosineSimilarity_zero (tokenize (article_text article1))
                (tokenize (article_text article2))) as Hc.
  destruct (jaccardSimilarity_bounds _ _ Hne) as (j & Ej & Hj01).
  destruct (cosineSimilarity_bounds (tokenize (article_text article1))
              (tokenize (article_text article2))) as (c & Ec & Hc01).
  rewrite Ej, Ec in *. simpl. split.
  - intros [= E]. apply Hj. f_equal. lra.
  - intros H. apply Hj in H as Hj0. apply Hc in H as Hc0.
    injection Hj0 as ->. injection Hc0 as ->. f_equal. lra.
Qed.

(** X4: the frequency map that [cosineSimilarity] builds from a token
    list has the distinct tokens as its keys, in the order of their first
    occurrence, and maps each token to the number of times it occurs; a
    string that is not a token has no entry. *)
Theorem term_frequencies_count (tokens : list string) :
  Map_keys (term_frequencies tokens) = Set_of tokens
  /\ forall t,
       Map_get (term_frequencies tokens) t
       = if decide (t ∈ tokens) then Some (occurrences t tokens) else None.
Proof.
  split; [apply term_frequencies_keys|]. intros t.
  destruct (decide (t ∈ tokens)) as [Hin|Hout].
  - pose proof (term_frequencies_default tokens t) as H.
    destruct (Map_get (term_frequencies tokens) t) as [n|] eqn:E;
      [simpl in H; by rewrite H|].
    apply Map_get_None in E. rewrite term_frequencies_keys, elem_of_Set_of in E.
    done.
  - apply Map_get_None. by rewrite term_frequencies_keys, elem_of_Set_of.
Qed.

(** X5: the three similarity functions are symmetric in their two
    arguments. *)
Theorem similarity_symmetric :
  (forall tokens1 tokens2,
     jaccardSimilarity tokens1 tokens2 = jaccardSimilarity tokens2 tokens1)
  /\ (forall tokens1 tokens2,
        cosineSimilarity tokens1 tokens2 = cosineSimilarity tokens2 tokens1)
  /\ (forall article1 article2,
        calculateSimilarity article1 article2
        = calculateSimilarity article2 article1).
Proof.
  split_and!;
    [apply jaccardSimilarity_comm|apply cosineSimilarity_comm
    |apply calculateSimilarity_comm].
Qed.

(** X6: [cosineSimilarity] returns a number for every two token lists,
    never [NaN] and never a negative number: its division is guarded. The
    number is 0 exactly when the two lists have no token in common, in
    particular as soon as one of them is empty. No upper bound is stated:
    the numbers here are exact, and with the rounding of machine numbers
    the quotient of the code can exceed 1 in the last place. *)
Theorem cosineSimilarity_nonnegative_number (tokens1 tokens2 : list string) :
  (exists v, cosineSimilarity tokens1 tokens2 = Fin v /\ (0 <= v)%R)
  /\ (cosineSimilarity tokens1 tokens2 = Fin 0
      <-> ~ share_token tokens1 tokens2)
  /\ (tokens1 = [] \/ tokens2 = [] -> cosineSimilarity tokens1 tokens2 = Fin 0).
Proof.
  split_and!.
  - destruct (cosineSimilarity_bounds tokens1 tokens2) as (v & Hv & Hv0 & _).
    by exists v.
  - apply cosineSimilarity_zero.
  - intros Hempty. apply cosineSimilarity_zero.
    intros (t & H1 & H2). destruct Hempty as [-> | ->];
      [by apply elem_of_nil in H1|by apply elem_of_nil in H2].
Qed.

(** X7: the combined similarity of two articles is [NaN] exactly when
    neither text has a token, and a number between 0 and 1 in every other
    case. *)
Theorem calculateSimilarity_range (article1 article2 : Article) :
  (calculateSimilarity article1 article2 = NaN
   <-> tokens_of article1 = [] /\ tokens_of article2 = [])
  /\ (tokens_of article1 <> [] \/ tokens_of article2 <> [] ->
      in_unit_interval (calculateSimilarity article1 article2)).
Proof.
  unfold tokens_of. split; [|apply calculateSimilarity_bounds].
  split; [|intros [H1 H2]; by apply calculateSimilarity_tokenless].
  intros Hnan.
  destruct (tokenize (article_text article1)) as [|t1 l1] eqn:E1;
    destruct (tokenize (article_text article2)) as [|t2 l2] eqn:E2; [done|..].
  all: exfalso;
    destruct (calculateSimilarity_bounds article1 article2) as (v & Hv & _);
    [rewrite E1, E2; first [by left|by right]|congruence].
Qed.

(** X8: the similarity does not look at the order of the words: the
    Jaccard part depends on the two sets of tokens only, the cosine part is
    unchanged when the tokens of either side are permuted, and so is the
    combined similarity of two articles. *)
Theorem similarity_ignores_word_order :
  (forall tokens1 tokens2 tokens1' tokens2',
     (forall x, x ∈ tokens1 <-> x ∈ tokens1') ->
     (forall x, x ∈ tokens2 <-> x ∈ tokens2') ->
     jaccardSimilarity tokens1 tokens2 = jaccardSimilarity tokens1' tokens2')
  /\ (forall tokens1 tokens2 tokens1' tokens2',
        tokens1 ≡ₚ tokens1' -> tokens2 ≡ₚ tokens2' ->
        cosineSimilarity tokens1 tokens2 = cosineSimilarity tokens1' tokens2')
  /\ (forall a b a' b',
        tokens_of a ≡ₚ tokens_of a' -> tokens_of b ≡ₚ tokens_of b' ->
        calculateSimilarity a b = calculateSimilarity a' b').
Proof.
  split_and!; [apply jaccardSimilarity_ext|apply cosineSimilarity_perm|].
  unfold tokens_of, calculateSimilarity. intros a b a' b' Ha Hb.
  rewrite (jaccardSimilarity_ext _ _ (tokenize (article_text a'))
             (tokenize (article_text b')));
    [|intros x; by rewrite Ha|intros x; by rewrite Hb].
  by rewrite (cosineSimilarity_perm _ _ _ _ Ha Hb).
Qed.

(** X8 on the report of the rate decision and its reordered text. *)
Lemma similarity_ignores_word_order_witness :
  tokens_of rates_ap ≡ₚ tokens_of rates_reordered
  /\ calculateSimilarity rates_ap storm_report
     = calculateSimilarity rates_reordered storm_report.
Proof.
  assert (tokens_of rates_ap ≡ₚ tokens_of rates_reordered) as H.
  { refine (bool_decide_unpack _ _). vm_compute. exact I. }
  split; [exact H|].
  exact (proj2 (proj2 similarity_ignores_word_order)
           rates_ap storm_report rates_reordered storm_report H
           (Permutation_refl _)).
Defined.

(** X9 on the report of the rate decision and a text that repeats its
    words. *)
Lemma same_words_pass_threshold_witness :
  (forall t, t ∈ tokens_of rates_ap <-> t ∈ tokens_of rates_repeated)
  /\ tokens_of rates_ap <> []
  /\ length (tokens_of rates_ap) < length (tokens_of rates_repeated)
  /\ jaccardSimilarity (tokens_of rates_ap) (tokens_of rates_repeated) = Fin 1
  /\ Num.geb (calculateSimilarity rates_ap rates_repeated) default_threshold
     = true.
Proof.
  assert (forall t, t ∈ tokens_of rates_ap <-> t ∈ tokens_of rates_repeated)
    as H.
  { assert (Forall (fun t => t ∈ tokens_of rates_repeated) (tokens_of rates_ap))
      as H1 by (refine (bool_decide_unpack _ _); vm_compute; exact I).
    assert (Forall (fun t => t ∈ tokens_of rates_ap) (tokens_of rates_repeated))
      as H2 by (refine (bool_decide_unpack _ _); vm_compute; exact I).
    intros t. split;
      [apply (proj1 (Forall_forall _ _) H1)|apply (proj1 (Forall_forall _ _) H2)]. }
  assert (tokens_of rates_ap <> []) as Hne by (vm_compute; discriminate).
  split; [exact H|]. split; [exact Hne|].
  split; [vm_compute; lia|].
  destruct (same_words_pass_threshold rates_ap rates_repeated H Hne)
    as (Hj & _ & Hpass).
  split; [exact Hj|exact Hpass].
Defined.

(** X10 on the reports of two different events. *)
Lemma similarity_zero_iff_no_common_token_witness :
  tokens_of rates_ap <> []
  /\ ~ share_token (tokens_of rates_ap) (tokens_of storm_report)
  /\ calculateSimilarity rates_ap storm_report = Fin 0.
Proof.
  assert (tokens_of rates_ap <> []) as Hne by (vm_compute; discriminate).
  assert (~ share_token (tokens_of rates_ap) (tokens_of storm_report)) as Hno.
  { intros (t & H1 & H2). revert t H1 H2.
    apply (proj1 (Forall_forall (fun t => t ∈ tokens_of storm_report -> False)
                    (tokens_of rates_ap))).
    refine (bool_decide_unpack _ _). vm_compute. exact I. }
  split; [exact Hne|]. split; [exact Hno|].
  exact (proj2 (similarity_zero_iff_no_common_token rates_ap storm_report
                  (or_introl Hne)) Hno).
Defined.

(** ** The range of the averages and of the scores *)

Lemma calculateSimilarity_nan_or_unit article1 article2 :
  calculateSimilarity article1 article2 = NaN
  \/ in_unit_interval (calculateSimilarity article1 article2).
Proof.
  destruct (tokenize (article_text article1)) as [|t1 l1] eqn:E1;
    [destruct (tokenize (article_text article2)) as [|t2 l2] eqn:E2|].
  - left. by apply calculateSimilarity_tokenless.
  - right. apply calculateSimilarity_bounds. right. by rewrite E2.
  - right. apply calculateSimilarity_bounds. left. by rewrite E1.
Qed.

Lemma fold_add_nan sims : fold_left Num.add sims NaN = NaN.
Proof. induction sims as [|v sims IH]; simpl; [done|apply IH]. Qed.

Lemma fold_add_range sims s0 :
  Forall (fun v => v = NaN \/ in_unit_interval v) sims ->
  fold_left Num.add sims (Fin s0) = NaN
  \/ exists s, fold_left Num.add sims (Fin s0) = Fin s
               /\ (s0 <= s <= s0 + INR (length sims))%R.
Proof.
  intros H. revert s0.
  induction H as [|v sims [->|(x & -> & Hx)] _ IH]; intros s0.
  - right. exists s0. simpl. split; [done|lra].
  - left. simpl. apply fold_add_nan.
  - cbn [fold_left Num.add]. destruct (IH (s0 + x)%R) as [E|(s & E & Hs)];
      [by left|right].
    exists s. split; [done|]. cbn [length]. rewrite S_INR. lra.
Qed.

Lemma avgSimilarity_range members candidate :
  members <> [] ->
  avgSimilarity members candidate = NaN
  \/ in_unit_interval (avgSimilarity members candidate).
Proof.
  intros Hne. unfold avgSimilarity.
  destruct (fold_add_range
              (map (fun a => calculateSimilarity a candidate) members) 0)
    as [->|(s & -> & Hs)].
  - apply Forall_forall. intros v (a & -> & _)%list_elem_of_fmap.
    apply calculateSimilarity_nan_or_unit.
  - left. by destruct (length _).
  - right. rewrite length_map in *.
    destruct members as [|a members]; [done|]. cbn [length] in *.
    eexists. split; [reflexivity|].
    assert (0 < INR (S (length members)))%R as Hn by (apply lt_0_INR; lia).
    split.
    + unfold Rdiv. apply Rmult_le_pos; [lra|]. left. by apply Rinv_0_lt_compat.
    + apply (Rmult_le_reg_r (INR (S (length members)))); [done|].
      unfold Rdiv. rewrite Rmult_assoc, Rinv_l by lra. lra.
Qed.

Lemma admissions_range members later :
  members <> [] ->
  Forall (fun v => v = NaN \/ in_unit_interval v) (admissions members later).
Proof.
  revert members. induction later as [|c later IH]; intros members Hne; simpl;
    [done|].
  constructor; [by apply avgSimilarity_range|].
  apply IH. by destruct members.
Qed.

Lemma admission_averages_range members :
  Forall (fun v => v = NaN \/ in_unit_interval v) (admission_averages members).
Proof.
  destruct members as [|seed later]; simpl; [done|].
  by apply admissions_range.
Qed.

(** A threshold that 1 does not reach is reached by no average. *)
Lemma geb_above_one threshold v :
  Num.geb (Fin 1) threshold = false ->
  v = NaN \/ in_unit_interval v ->
  Num.geb v threshold = false.
Proof.
  intros H1 [->|(x & -> & Hx)]; [done|].
  destruct threshold as [| |t|]; simpl in *; try done.
  destruct (Rle_dec t 1); [done|].
  destruct (Rle_dec t x); [lra|done].
Qed.

Lemma fold_min_range vs v0 t :
  (Rmin t 1 <= v0 <= 1)%R ->
  Forall (fun v => exists x, v = Fin x /\ (t <= x <= 1)%R) vs ->
  exists x, fold_left Num.min vs (Fin v0) = Fin x /\ (Rmin t 1 <= x <= 1)%R.
Proof.
  intros Hv0 H. revert v0 Hv0.
  induction H as [|v vs (x & -> & Hx) _ IH]; intros v0 Hv0; simpl.
  - by exists v0.
  - apply IH. pose proof (Rmin_l t 1). pose proof (Rmin_l v0 x). split.
    + apply Rmin_glb; lra.
    + lra.
Qed.

(** No more members than articles. *)
Lemma clusterArticles_members_bound Date_getTime input threshold :
  length (members_of (clusterArticles Date_getTime input threshold))
  <= length input.
Proof.
  destruct (clusterArticles_ids Date_getTime input threshold) as (Hin & Hnd & _).
  rewrite <- (length_map id), <- (length_map id input).
  apply submseteq_length, NoDup_submseteq; [done|].
  intros i (a & -> & Ha)%list_elem_of_fmap. by apply list_elem_of_fmap_2, Hin.
Qed.

(** X11: whatever the input, also one in which several articles carry
    the same id: every member of a returned cluster is an article of the
    input, no id is carried by two members of the returned clusters,
    every id of the input is the id of a member, and the clusters have
    together no more members than the input has articles. *)
Theorem clusterArticles_one_member_per_id
    (Date_getTime : string -> option Z) (input : list Article) (threshold : num) :
  let found := clusterArticles Date_getTime input threshold in
  (forall a, a ∈ members_of found -> a ∈ input)
  /\ NoDup (map id (members_of found))
  /\ (forall i, i ∈ map id input <-> i ∈ map id (members_of found))
  /\ length (members_of found) <= length input.
Proof.
  intros found.
  destruct (clusterArticles_ids Date_getTime input threshold)
    as (Hin & Hnd & Hids).
  split_and!; [exact Hin|exact Hnd|exact Hids|].
  apply clusterArticles_members_bound.
Qed.

(** X12: with a threshold that 1 does not reach (a number above 1,
    infinity, or [NaN]) no candidate is ever admitted: every returned
    cluster has exactly one member and the score 1. *)
Theorem clusterArticles_unreachable_threshold
    (Date_getTime : string -> option Z) (input : list Article) (threshold : num) :
  Num.geb (Fin 1) threshold = false ->
  Forall (fun C => (exists seed, articles C = [seed]) /\ similarity C = Fin 1)
         (clusterArticles Date_getTime input threshold).
Proof.
  intros Hhigh.
  eapply Forall_impl; [apply clusterArticles_well_grown|].
  intros C ((seed & later & Hm) & Hall & Hscore).
  pose proof (admission_averages_range (articles C)) as Hrange.
  rewrite Hm in *. destruct later as [|c later].
  - split; [by exists seed|done].
  - exfalso. simpl in Hall, Hrange.
    apply Forall_cons in Hall as [Hadm _]. apply Forall_cons in Hrange as [Hr _].
    by rewrite (geb_above_one threshold _ Hhigh Hr) in Hadm.
Qed.

(** X12 with a threshold that is not a number. *)
Lemma clusterArticles_unreachable_threshold_witness :
  Num.geb (Fin 1) NaN = false
  /\ Forall (fun C => (exists seed, articles C = [seed]) /\ similarity C = Fin 1)
            (clusterArticles sample_getTime [rates_ap; rates_reuters] NaN).
Proof.
  split; [reflexivity|].
  exact (clusterArticles_unreachable_threshold sample_getTime
           [rates_ap; rates_reuters] NaN eq_refl).
Defined.

Lemma well_grown_score_range t C :
  well_grown (Fin t) C ->
  exists x, similarity C = Fin x /\ (Rmin t 1 <= x <= 1)%R.
Proof.
  intros (_ & Hall & ->).
  apply fold_min_range; [pose proof (Rmin_r t 1); lra|].
  pose proof (admission_averages_range (articles C)) as Hrange.
  apply Forall_forall. intros v Hv.
  rewrite Forall_forall in Hall, Hrange.
  specialize (Hall v Hv). destruct (Hrange v Hv) as [->|(x & -> & Hx)]; [done|].
  exists x. split; [done|]. simpl in Hall.
  destruct (Rle_dec t x); [lra|done].
Qed.

(** X13: with a finite threshold [t], the score of every returned cluster
    is a number between the smaller of [t] and 1, and 1; so is the
    relevance score stored with each link of a story to its articles. *)
Theorem clusterArticles_score_range
    (Date_getTime : string -> option Z) (input : list Article) (t : R) :
  Forall (fun C => exists x, similarity C = Fin x /\ (Rmin t 1 <= x <= 1)%R)
         (clusterArticles Date_getTime input (Fin t)).
Proof.
  eapply Forall_impl; [apply clusterArticles_well_grown|].
  intros C HC. destruct (well_grown_score_range t C HC) as (x & Hx & Hrange).
  exists x. split; [exact Hx|exact Hrange].
Qed.

(** ** What a computation ensures *)

Lemma ensures_weaken {A} (P P' : World -> Prop) (m : Eff A)
    (Q Q' : Exn + A -> World -> Prop) :
  ensures P m Q -> (forall w, P' w -> P w) -> (forall r w, Q r w -> Q' r w) ->
  ensures P' m Q'.
Proof. intros Hm HP HQ w Hw. apply HQ, Hm, HP, Hw. Qed.

Lemma ensures_bind {A B} (P : World -> Prop) (m : Eff A) (k : A -> Eff B)
    (Q1 : Exn + A -> World -> Prop) (Q : Exn + B -> World -> Prop) :
  ensures P m Q1 ->
  (forall e w, Q1 (inl e) w -> Q (inl e) w) ->
  (forall x, ensures (Q1 (inr x)) (k x) Q) ->
  ensures P (m ≫= k) Q.
Proof.
  intros Hm He Hk w Hw. rewrite bind_run. specialize (Hm w Hw).
  destruct (m w) as [[e|x] w']; simpl in *; [by apply He|by apply Hk].
Qed.

Section Keeps.

Context (I : World -> Prop).

Lemma keeps_ret {A} (x : A) : keeps I (ret x).
Proof. by intros w Hw. Qed.

Lemma keeps_throw {A} e : keeps I (@throw A e).
Proof. by intros w Hw. Qed.

Lemma keeps_get_world : keeps I get_world.
Proof. by intros w Hw. Qed.

Lemma keeps_defined {A} (x : option A) : keeps I (defined x).
Proof. destruct x; by intros w Hw. Qed.

Lemma keeps_modify g : (forall w, I w -> I (g w)) -> keeps I (modify g).
Proof. intros Hg w Hw. by apply Hg. Qed.

Lemma keeps_bind {A B} (m : Eff A) (k : A -> Eff B) :
  keeps I m -> (forall x, keeps I (k x)) -> keeps I (m ≫= k).
Proof. intros Hm Hk. by apply (ensures_bind I m k (fun _ => I)). Qed.

Lemma keeps_try_catch {A} (m : Eff A) (h : Exn -> Eff A) :
  keeps I m -> (forall e, keeps I (h e)) -> keeps I (try_catch m h).
Proof.
  intros Hm Hh w Hw. unfold try_catch. specialize (Hm w Hw).
  destruct (m w) as [[e|x] w']; simpl in *; [by apply Hh|done].
Qed.

Lemma keeps_for_each {A} (body : A -> Eff unit) xs :
  (forall x, keeps I (body x)) -> keeps I (for_each body xs).
Proof.
  intros Hb. induction xs as [|x xs IH]; simpl; [apply keeps_ret|].
  apply keeps_bind; [apply Hb|done].
Qed.

End Keeps.

(** ** The requests, one by one *)

Lemma entities_find_run ilike pattern w :
  entities_find ilike pattern w
  = (inr (if next_served w then resolve ilike (entities w) pattern else None),
     after_request w).
Proof. reflexivity. Qed.

Lemma resolve_stored ilike table pattern i :
  resolve ilike table pattern = Some i -> i ∈ map entity_id table.
Proof.
  unfold resolve.
  destruct (filter _ table) as [|e [|e' l]] eqn:E; try done.
  intros [= <-]. apply list_elem_of_fmap_2.
  assert (e ∈ filter (fun e => Is_true (ilike (entity_name e) pattern)) table) as H
    by (rewrite E; left).
  by apply list_elem_of_filter in H as [_ H].
Qed.

Lemma entities_insert_run name type w :
  entities_insert name type w
  = if next_served w
       && negb (existsb (fun e => String.eqb (entity_name e) name
                                  && String.eqb (entity_type e) type)
                        (entities w))
    then (inr (Some (next_uuid w)),
          with_entities
            (entities w ++ [ {| entity_id := next_uuid w; entity_name := name;
                                entity_type := type |} ])
            (with_next_uuid (S (next_uuid w)) (after_request w)))
    else (inr None, after_request w).
Proof.
  cbv [entities_insert mbind Eff_bind bind served get_world fresh_uuid modify ret].
  cbn [entities after_request with_faults].
  by destruct (next_served w && _).
Qed.

(** The keys of the connection table after an upsert: the same, or one
    more at the end. *)
Lemma upsert_connection_keys row table :
  map triple (upsert_connection row table) = map triple table
  \/ map triple (upsert_connection row table) = map triple table ++ [triple row].
Proof.
  induction table as [|r table IH]; cbn [upsert_connection map app]; [by right|].
  destruct (same_triple r row) eqn:E; cbn [map].
  - left. apply same_triple_iff in E. by rewrite E.
  - destruct IH as [-> | ->]; [by left|by right].
Qed.

Lemma Forall_upsert_connection (P : ConnectionRow -> Prop) row table :
  P row -> Forall P table -> Forall P (upsert_connection row table).
Proof.
  intros Hrow. induction 1 as [|r table Hr Ht IH]; simpl.
  - by constructor.
  - destruct (same_triple r row); by constructor.
Qed.

(** ** Properties that every run of the job keeps *)

Section Invariants.

Context (Date_getTime : string -> option Z) (ilike : string -> string -> bool).

(** [J] is the property of the world between two clusters, [I s] the
    property while the story [s] is being filled. *)
Context (J : World -> Prop) (I : Uuid -> World -> Prop).

Hypothesis J_faults : forall x w, J w -> J (with_faults x w).
Hypothesis J_completions : forall x w, J w -> J (with_completions x w).
Hypothesis J_next_uuid : forall x w, J w -> J (with_next_uuid x w).
Hypothesis J_story : forall row w,
  J w -> I (story_id row) (with_stories (stories w ++ [row]) w).
Hypothesis I_J : forall s w, I s w -> J w.
Hypothesis I_faults : forall s x w, I s w -> I s (with_faults x w).
Hypothesis I_next_uuid : forall s x w, I s w -> I s (with_next_uuid x w).
Hypothesis I_links : forall s rows w,
  I s w -> Forall (fun r => sa_story_id r = s) rows ->
  I s (with_story_articles (story_articles w ++ rows) w).
Hypothesis I_entity : forall s row w,
  I s w -> I s (with_entities (entities w ++ [row]) w).
Hypothesis I_mention : forall s row w,
  I s w -> se_story_id row = s -> se_entity_id row ∈ entity_ids w ->
  I s (with_story_entities (story_entities w ++ [row]) w).
Hypothesis I_connection : forall s row w,
  I s w -> conn_story_id row = s ->
  source_entity_id row ∈ entity_ids w -> target_entity_id row ∈ entity_ids w ->
  I s (with_entity_connections (upsert_connection row (entity_connections w)) w).
Hypothesis I_impacts : forall s rows w,
  I s w -> Forall (fun r => impact_story_id r = s) rows ->
  I s (with_story_impacts (story_impacts w ++ rows) w).

Lemma served_keeps s : keeps (I s) served.
Proof. intros w Hw. by apply I_faults. Qed.

Lemma entities_find_ensures s pattern :
  ensures (I s) (entities_find ilike pattern)
          (fun r w => I s w /\ forall i, r = inr (Some i) -> i ∈ entity_ids w).
Proof.
  intros w Hw. rewrite entities_find_run. simpl. split; [by apply I_faults|].
  intros i [= Hi]. destruct (next_served w); [|done].
  by apply resolve_stored in Hi.
Qed.

Lemma entities_insert_ensures s name type :
  ensures (I s) (entities_insert name type)
          (fun r w => I s w /\ forall i, r = inr (Some i) -> i ∈ entity_ids w).
Proof.
  intros w Hw. rewrite entities_insert_run. destruct (_ && _); simpl.
  - split.
    { apply (I_entity s _ (with_next_uuid (S (next_uuid w)) (after_request w))).
      by apply I_next_uuid, I_faults. }
    intros i [= <-]. unfold entity_ids. simpl. rewrite map_app.
    apply elem_of_app. right. by left.
  - split; [by apply I_faults|done].
Qed.

Lemma story_entities_upsert_keeps s row :
  se_story_id row = s ->
  ensures (fun w => I s w /\ se_entity_id row ∈ entity_ids w)
          (story_entities_upsert row) (fun _ => I s).
Proof.
  intros Hs w [Hw Hi]. cbv [story_entities_upsert mbind Eff_bind bind served modify].
  cbn [fst snd]. destruct (_ && _).
  - apply (I_mention s row (after_request w)); [by apply I_faults|done|done].
  - by apply I_faults.
Qed.

Lemma save_entity_keeps s entity : keeps (I s) (save_entity ilike s entity).
Proof.
  unfold save_entity.
  eapply ensures_bind; [apply entities_find_ensures|by intros e w [H _]|].
  intros existing.
  eapply (ensures_bind _ _ _
            (fun r w => I s w /\ forall i, r = inr (Some i) -> i ∈ entity_ids w)).
  - destruct existing as [i|].
    + intros w [Hw Hi]. split; [done|]. intros j [= <-]. by apply Hi.
    + eapply ensures_weaken; [apply entities_insert_ensures|by intros w [H _]|done].
  - by intros e w [H _].
  - intros [i|].
    + eapply ensures_weaken; [by apply (story_entities_upsert_keeps s)| |done].
      intros w [Hw Hi]. split; [done|]. by apply Hi.
    + by intros w [Hw _].
Qed.

Lemma save_connection_keeps s connection :
  keeps (I s) (save_connection ilike s connection).
Proof.
  unfold save_connection.
  eapply ensures_bind; [apply entities_find_ensures|by intros e w [H _]|].
  intros src.
  eapply (ensures_bind _ _ _
            (fun r w => (I s w /\ forall i, src = Some i -> i ∈ entity_ids w)
                        /\ forall i, r = inr (Some i) -> i ∈ entity_ids w)).
  - intros w [Hw Hsrc].
    destruct (entities_find_ensures s (con_target connection) w Hw) as [Hw' Ht].
    split; [|done]. split; [done|].
    intros i ->. rewrite entities_find_run. simpl. by apply Hsrc.
  - by intros e w [[H _] _].
  - intros tgt. destruct src as [i|]; [|by intros w [[H _] _]].
    destruct tgt as [j|]; [|by intros w [[H _] _]].
    intros w [[Hw Hi] Hj].
    cbv [entity_connections_upsert mbind Eff_bind bind served modify].
    cbn [fst snd]. destruct (next_served w).
    + apply (I_connection s _ (after_request w));
        [by apply I_faults|done|by apply Hi|by apply Hj].
    + by apply I_faults.
Qed.

Lemma fill_story_keeps C syn s : keeps (I s) (fill_story ilike C syn s).
Proof.
  unfold fill_story. apply keeps_bind.
  { intros w Hw. cbv [story_articles_insert mbind Eff_bind bind served modify].
    cbn [fst snd]. destruct (_ && _); [|by apply I_faults].
    apply (I_links s _ (after_request w)); [by apply I_faults|].
    apply Forall_forall. by intros r (a & -> & _)%list_elem_of_fmap. }
  intros _. apply keeps_bind; [apply keeps_defined|]. intros found.
  apply keeps_bind; [apply keeps_for_each, save_entity_keeps|]. intros _.
  apply keeps_bind; [apply keeps_defined|]. intros connections.
  apply keeps_bind; [apply keeps_for_each, save_connection_keeps|]. intros _.
  apply keeps_bind; [apply keeps_defined|]. intros impacts.
  apply keeps_bind; [|intros _; apply keeps_ret].
  destruct (0 <? length impacts); [|apply keeps_ret].
  intros w Hw. cbv [story_impacts_insert mbind Eff_bind bind served modify].
  cbn [fst snd]. destruct (_ && _); [|by apply I_faults].
  apply (I_impacts s _ (after_request w)); [by apply I_faults|].
  apply Forall_forall. by intros r (a & -> & _)%list_elem_of_fmap.
Qed.

Lemma synthesizeArticles_keeps batch : keeps J (synthesizeArticles batch).
Proof.
  intros w Hw.
  pose proof (synthesizeArticles_preserves (fun w => with_completions [] w) batch
                ltac:(done) w) as H. simpl in H.
  replace (synthesizeArticles batch w).2
    with (with_completions (completions (synthesizeArticles batch w).2)
            (with_completions [] (synthesizeArticles batch w).2))
    by (by destruct (synthesizeArticles batch w).2).
  rewrite H. by apply J_completions, J_completions.
Qed.

Lemma createStoryFromCluster_keeps C : keeps J (createStoryFromCluster ilike C).
Proof.
  unfold createStoryFromCluster.
  destruct (length (articles C) <? 2); [apply keeps_ret|].
  apply keeps_try_catch; [|intros e; apply keeps_ret].
  unfold materialize. apply keeps_bind; [apply synthesizeArticles_keeps|].
  intros syn w Hw. rewrite bind_run, stories_insert_run.
  destruct (syn_title syn) as [t|], (next_served w);
    try (by apply J_faults).
  eapply I_J. apply fill_story_keeps.
  match goal with
  | |- I _ (with_stories (_ ++ [?row]) ?W) => apply (J_story row W)
  end.
  by apply J_next_uuid, J_faults.
Qed.

Lemma create_stories_keeps found counted :
  keeps J (create_stories ilike found counted).
Proof.
  revert counted. induction found as [|C found IH]; intros counted; simpl;
    [apply keeps_ret|].
  apply keeps_bind; [apply createStoryFromCluster_keeps|]. intros r. apply IH.
Qed.

Lemma getUnassignedArticles_keeps : keeps J getUnassignedArticles.
Proof.
  intros w Hw.
  cbv [getUnassignedArticles mbind Eff_bind bind served get_world ret].
  destruct (next_served w); cbn -[next_served]; by repeat apply J_faults.
Qed.

Lemma runClusteringJob_keeps : keeps J (runClusteringJob Date_getTime ilike).
Proof.
  unfold runClusteringJob.
  apply keeps_bind; [apply getUnassignedArticles_keeps|]. intros input.
  destruct (length input <? 2); [apply keeps_ret|].
  apply keeps_bind; [apply create_stories_keeps|]. intros created.
  apply keeps_ret.
Qed.

End Invariants.

(** ** Rows are only added *)

Lemma grows_refl w : grows w w.
Proof. by repeat split. Qed.

Lemma grows_trans w1 w2 w3 : grows w1 w2 -> grows w2 w3 -> grows w1 w3.
Proof.
  intros (H1 & H2 & H3 & H4 & H5 & H6 & H7) (K1 & K2 & K3 & K4 & K5 & K6 & K7).
  split_and!; by etrans.
Qed.

Lemma grows_connection row w :
  grows w (with_entity_connections (upsert_connection row (entity_connections w)) w).
Proof.
  repeat split; try done. simpl.
  destruct (upsert_connection_keys row (entity_connections w)) as [-> | ->];
    [done|by apply prefix_app_r].
Qed.

(** X14: a run of the clustering job only adds rows: what the tables of
    stories, story links, entities, story entities and story impacts held
    before the run is the beginning of what they hold after it; the
    connections keep their keys, in their order, with new ones after them;
    the articles are not written. *)
Theorem runClusteringJob_append_only
    (Date_getTime : string -> option Z) (ilike : string -> string -> bool)
    (w : World) :
  let w' := (runClusteringJob Date_getTime ilike w).2 in
  stories w `prefix_of` stories w'
  /\ story_articles w `prefix_of` story_articles w'
  /\ entities w `prefix_of` entities w'
  /\ story_entities w `prefix_of` story_entities w'
  /\ map triple (entity_connections w) `prefix_of` map triple (entity_connections w')
  /\ story_impacts w `prefix_of` story_impacts w'
  /\ recent_articles w' = recent_articles w.
Proof.
  change (grows w (runClusteringJob Date_getTime ilike w).2).
  apply (runClusteringJob_keeps Date_getTime ilike (grows w) (fun _ => grows w)).
  - intros x w0 H. eapply grows_trans; [exact H|]. by repeat split.
  - intros x w0 H. eapply grows_trans; [exact H|]. by repeat split.
  - intros x w0 H. eapply grows_trans; [exact H|]. by repeat split.
  - intros row w0 H. eapply grows_trans; [exact H|].
    repeat split; try done. by apply prefix_app_r.
  - done.
  - intros _ x w0 H. eapply grows_trans; [exact H|]. by repeat split.
  - intros _ x w0 H. eapply grows_trans; [exact H|]. by repeat split.
  - intros _ rows w0 H _. eapply grows_trans; [exact H|].
    repeat split; try done. by apply prefix_app_r.
  - intros _ row w0 H. eapply grows_trans; [exact H|].
    repeat split; try done. by apply prefix_app_r.
  - intros _ row w0 H _ _. eapply grows_trans; [exact H|].
    repeat split; try done. by apply prefix_app_r.
  - intros _ row w0 H _ _ _. eapply grows_trans; [exact H|].
    apply grows_connection.
  - intros _ rows w0 H _. eapply grows_trans; [exact H|].
    repeat split; try done. by apply prefix_app_r.
  - apply grows_refl.
Qed.

(** ** Referential integrity *)

Lemma consistent_more_ids w w' :
  consistent w ->
  story_ids w `prefix_of` story_ids w' ->
  entity_ids w `prefix_of` entity_ids w' ->
  story_articles w' = story_articles w ->
  story_entities w' = story_entities w ->
  entity_connections w' = entity_connections w ->
  story_impacts w' = story_impacts w ->
  consistent w'.
Proof.
  intros [H1 H2 H3 H4] [ks Hs] [ke He] E1 E2 E3 E4.
  assert (forall i, i ∈ story_ids w -> i ∈ story_ids w') as Hsi
    by (intros i Hi; rewrite Hs; apply elem_of_app; by left).
  assert (forall i, i ∈ entity_ids w -> i ∈ entity_ids w') as Hei
    by (intros i Hi; rewrite He; apply elem_of_app; by left).
  split; rewrite ?E1, ?E2, ?E3, ?E4.
  - eapply Forall_impl; [exact H1|]. intros r Hr. by apply Hsi.
  - eapply Forall_impl; [exact H2|]. intros r [Ha Hb].
    split; [by apply Hsi|by apply Hei].
  - eapply Forall_impl; [exact H3|]. intros r (Ha & Hb & Hc).
    split_and!; [by apply Hei|by apply Hei|by apply Hsi].
  - eapply Forall_impl; [exact H4|]. intros r Hr. by apply Hsi.
Qed.

(** X15: a run of the clustering job keeps the references between the
    tables intact: if before the run every story link, story entity,
    connection and impact names a stored story and stored entities, so
    does every row after the run, whatever the answers of the
    text-generation service and whichever requests the database
    rejects. *)
Theorem runClusteringJob_keeps_references
    (Date_getTime : string -> option Z) (ilike : string -> string -> bool)
    (w : World) :
  consistent w -> consistent (runClusteringJob Date_getTime ilike w).2.
Proof.
  apply (runClusteringJob_keeps Date_getTime ilike consistent
           (fun s w => consistent w /\ s ∈ story_ids w)).
  - by intros x w0 [].
  - by intros x w0 [].
  - by intros x w0 [].
  - intros row w0 Hw. split.
    + eapply (consistent_more_ids w0); try done.
      unfold story_ids. simpl. rewrite map_app. by apply prefix_app_r.
    + unfold story_ids. simpl. rewrite map_app. apply elem_of_app. right. by left.
  - by intros s w0 [].
  - by intros s x w0 [[] ?].
  - by intros s x w0 [[] ?].
  - intros s rows w0 [[H1 H2 H3 H4] Hs] Hrows. split; [|done].
    split; try done. simpl. apply Forall_app. split; [done|].
    eapply Forall_impl; [exact Hrows|]. by intros r ->.
  - intros s row w0 [Hw Hs]. split; [|done].
    eapply (consistent_more_ids w0); try done.
    unfold entity_ids. simpl. rewrite map_app. by apply prefix_app_r.
  - intros s row w0 [[H1 H2 H3 H4] Hs] Hrow Hent. split; [|done].
    split; try done. simpl. apply Forall_app. split; [done|].
    apply Forall_singleton. by rewrite Hrow.
  - intros s row w0 [[H1 H2 H3 H4] Hs] Hrow Hsrc Htgt. split; [|done].
    split; try done. simpl. apply Forall_upsert_connection; [|done].
    by rewrite Hrow.
  - intros s rows w0 [[H1 H2 H3 H4] Hs] Hrows. split; [|done].
    split; try done. simpl. apply Forall_app. split; [done|].
    eapply Forall_impl; [exact Hrows|]. by intros r ->.
Qed.

(** X15 from empty tables. *)
Lemma runClusteringJob_keeps_references_witness :
  consistent entityless_world
  /\ consistent (runClusteringJob sample_getTime sample_ilike entityless_world).2.
Proof.
  assert (consistent entityless_world) as H by (by split).
  split; [exact H|].
  exact (runClusteringJob_keeps_references sample_getTime sample_ilike
           entityless_world H).
Defined.

(** ** The batch of unassigned articles *)

Lemma filter_ext_in {A} (P Q : A -> Prop)
    `{!forall x, Decision (P x)} `{!forall x, Decision (Q x)} (l : list A) :
  (forall x, x ∈ l -> P x <-> Q x) -> filter P l = filter Q l.
Proof.
  induction l as [|x l IH]; intros Hext; [done|].
  rewrite !filter_cons, IH by (intros y Hy; apply Hext; by right).
  destruct (decide (P x)) as [Hp|Hp], (decide (Q x)) as [Hq|Hq]; try done;
    exfalso; [apply Hq|apply Hp]; by apply (Hext x); [left|].
Qed.

Lemma filter_all {A} (P : A -> Prop) `{!forall x, Decision (P x)} (l : list A) :
  (forall x, x ∈ l -> P x) -> filter P l = l.
Proof.
  induction l as [|x l IH]; intros Hall; [done|].
  rewrite filter_cons_True by (apply Hall; by left).
  f_equal. apply IH. intros y Hy. apply Hall. by right.
Qed.

Lemma to_article_source row : source (to_article row) <> "".
Proof. unfold to_article. simpl. by destruct (row_source_name row) as [[|c s]|]. Qed.

(** X16: [getUnassignedArticles] writes nothing. When the query for the
    recent articles is rejected it returns no article; when both queries
    are served it returns, in the order of the first query, exactly the
    recent articles that no row of [story_articles] names; when only the
    query for the links is rejected it returns every recent article,
    linked or not. No article it returns has an empty source: the
    source reads [Unknown] when the row has none. *)
Theorem getUnassignedArticles_selection (w : World) :
  let out := getUnassignedArticles w in
  same_tables w out.2
  /\ (next_served w = false -> out.1 = inr [])
  /\ (served_next 2 w ->
      out.1 = inr (map to_article
                     (filter (fun a => row_id a ∉ map sa_article_id (story_articles w))
                             (recent_articles w))))
  /\ (next_served w = true -> next_served (after_request w) = false ->
      out.1 = inr (map to_article (recent_articles w)))
  /\ (forall batch, out.1 = inr batch -> Forall (fun a => source a <> "") batch).
Proof.
  cbv zeta.
  cbv [getUnassignedArticles mbind Eff_bind bind served get_world ret].
  destruct (next_served w) eqn:E1; cbn -[next_served filter].
  - split_and!; try done.
    + intros H. apply served_next_S in H as [_ H].
      apply served_next_S in H as [-> _]. do 2 f_equal.
      apply filter_ext_in. intros a Ha.
      rewrite list_elem_of_filter. split; [|tauto].
      intros Hn Hl. apply Hn. split; [|done]. by apply list_elem_of_fmap_2.
    + intros _ ->. do 2 f_equal.
      apply filter_all. intros a _. apply not_elem_of_nil.
    + intros batch [= <-]. apply Forall_forall.
      intros a (row & -> & _)%list_elem_of_fmap. apply to_article_source.
  - split_and!; try done.
    + intros H. apply served_next_S in H as [? _]. congruence.
    + by intros batch [= <-].
Qed.

(** X16 in a world with two recent articles and no link. *)
Lemma getUnassignedArticles_selection_witness :
  served_next 2 entityless_world
  /\ (getUnassignedArticles entityless_world).1 = inr [rates_ap; rates_reuters].
Proof.
  assert (served_next 2 entityless_world) as H by (vm_compute; constructor).
  split; [exact H|].
  exact (proj1 (proj2 (proj2 (getUnassignedArticles_selection entityless_world)))
           H).
Defined.

(** ** A story row that the database does not take *)

Lemma synthesizeArticles_same_tables batch w :
  same_tables w (synthesizeArticles batch w).2.
Proof.
  repeat split; by apply (synthesizeArticles_preserves _ batch).
Qed.

(** X17: when the database does not take the story row, because the
    request is rejected or because the synthesis has no title,
    [createStoryFromCluster] returns [null] and writes nothing: no link,
    entity, connection or impact is stored for a story that does not
    exist. *)
Theorem createStoryFromCluster_refused_story
    (ilike : string -> string -> bool) (C : Cluster) (w : World) :
  next_served w = false
  \/ (exists syn, (synthesizeArticles (articles C) w).1 = inr syn
                  /\ syn_title syn = None) ->
  (createStoryFromCluster ilike C w).1 = inr None
  /\ same_tables w (createStoryFromCluster ilike C w).2.
Proof.
  intros Hrefused. unfold createStoryFromCluster.
  destruct (length (articles C) <? 2); [by repeat split|].
  unfold try_catch. rewrite materialize_unfold.
  pose proof (synthesizeArticles_same_tables (articles C) w) as Htables.
  pose proof (synthesizeArticles_preserves next_served (articles C)
                ltac:(done) w) as Hserved.
  destruct (synthesizeArticles (articles C) w) as [[e|syn] w0]; simpl in *;
    [done|].
  rewrite stories_insert_run.
  assert (syn_title syn = None \/ next_served w0 = false) as [-> | ->].
  { destruct Hrefused as [H|(syn' & [= <-] & H)]; [right; congruence|by left]. }
  - done.
  - by destruct (syn_title syn).
Qed.

(** X17 in a world whose database rejects the coming request. *)
Lemma createStoryFromCluster_refused_story_witness :
  next_served (with_faults [true] silent_world) = false
  /\ (createStoryFromCluster sample_ilike rates_cluster
        (with_faults [true] silent_world)).1 = inr None
  /\ stories (createStoryFromCluster sample_ilike rates_cluster
                (with_faults [true] silent_world)).2 = [].
Proof.
  assert (next_served (with_faults [true] silent_world) = false) as H
    by reflexivity.
  split; [exact H|].
  destruct (createStoryFromCluster_refused_story sample_ilike rates_cluster
              (with_faults [true] silent_world) (or_introl H))
    as [Hnone (Hstories & _)].
  split; [exact Hnone|exact Hstories].
Defined.

(** ** The links of a story to its articles *)

Lemma story_articles_insert_run rows w :
  story_articles_insert rows w
  = (inr tt,
     if next_served w && bool_decide (NoDup (map link_key (story_articles w ++ rows)))
     then with_story_articles (story_articles w ++ rows) (after_request w)
     else after_request w).
Proof. reflexivity. Qed.

Section FillStory.

Context {X : Type} (f : World -> X) (ilike : string -> string -> bool).
Context (Hfaults : ignores f with_faults) (Hentities : ignores f with_entities)
  (Huuid : ignores f with_next_uuid) (Hmentions : ignores f with_story_entities)
  (Hconnections : ignores f with_entity_connections)
  (Himpacts : ignores f with_story_impacts).

(** What [fill_story] does once the links are written. *)
Lemma after_links_preserves syn story :
  preserves f
    (found ← defined (syn_entities syn);
     for_each (save_entity ilike story) found;;
     connections ← defined (syn_connections syn);
     for_each (save_connection ilike story) connections;;
     impacts ← defined (syn_impacts syn);
     (if 0 <? length impacts
      then story_impacts_insert (map (impact_row story) impacts)
      else ret tt);;
     ret (Some story)).
Proof.
  apply preserves_bind; [apply preserves_defined|]. intros found.
  apply preserves_bind.
  { apply preserves_for_each. intros entity. by apply save_entity_preserves. }
  intros _. apply preserves_bind; [apply preserves_defined|]. intros connections.
  apply preserves_bind.
  { apply preserves_for_each. intros connection. by apply save_connection_preserves. }
  intros _. apply preserves_bind; [apply preserves_defined|]. intros impacts.
  apply preserves_bind; [|intros _; apply preserves_ret].
  case_match; [by apply story_impacts_insert_preserves|apply preserves_ret].
Qed.

Lemma fill_story_preserves C syn story :
  ignores f with_story_articles -> preserves f (fill_story ilike C syn story).
Proof.
  intros Hlinks. unfold fill_story.
  apply preserves_bind; [by apply story_articles_insert_preserves|].
  intros _. apply after_links_preserves.
Qed.

End FillStory.

Lemma try_catch_world {A} (m : Eff (option A)) w :
  (try_catch m (fun _ => ret None) w).2 = (m w).2.
Proof. unfold try_catch. by destruct (m w) as [[e|x] w']. Qed.

Lemma cluster_links_keys story C :
  map link_key (cluster_links story C) = map (pair story) (map id (articles C)).
Proof. unfold cluster_links. rewrite !map_map. done. Qed.

Lemma links_accepted story C table :
  NoDup (map link_key table) ->
  NoDup (map id (articles C)) ->
  (forall r, r ∈ table -> sa_story_id r <> story) ->
  NoDup (map link_key (table ++ cluster_links story C)).
Proof.
  intros Htable Hids Hfresh. rewrite map_app. apply NoDup_app.
  split; [done|]. rewrite cluster_links_keys. split.
  - intros k (r & -> & Hr)%list_elem_of_fmap (i & E & _)%list_elem_of_fmap.
    apply (Hfresh r Hr). unfold link_key in E. by injection E.
  - apply (NoDup_fmap_2 (pair story)). done.
Qed.

(** X18: a cluster of two or more articles whose synthesis has a title,
    with the two coming requests served, gets its links: one row of
    [story_articles] for each member, in the order of the cluster, with
    the id of the new story and the score of the cluster as relevance
    score. This holds whatever happens when the entities, connections
    and impacts are stored afterwards. The conditions on the table are
    those of its primary key: no two members with the same id, and no
    link yet for the id the new story receives. *)
Theorem createStoryFromCluster_links
    (ilike : string -> string -> bool) (C : Cluster) (w : World) :
  2 <= length (articles C) ->
  served_next 2 w ->
  (exists syn, (synthesizeArticles (articles C) w).1 = inr syn
               /\ is_Some (syn_title syn)) ->
  NoDup (map link_key (story_articles w)) ->
  NoDup (map id (articles C)) ->
  (forall r, r ∈ story_articles w -> sa_story_id r <> next_uuid w) ->
  story_articles (createStoryFromCluster ilike C w).2
  = story_articles w
    ++ map (fun a => {| sa_story_id := next_uuid w; sa_article_id := id a;
                        sa_relevance_score := similarity C |})
           (articles C).
Proof.
  intros Hlen Hserved (syn' & Hsyn & t & Htitle) Htable Hids Hfresh.
  unfold createStoryFromCluster.
  rewrite (proj2 (Nat.ltb_ge _ _)) by done.
  rewrite try_catch_world, materialize_unfold.
  pose proof (synthesizeArticles_preserves story_articles (articles C)
                ltac:(done) w) as Hsa.
  pose proof (synthesizeArticles_preserves next_uuid (articles C)
                ltac:(done) w) as Hid.
  pose proof (synthesizeArticles_preserves faults (articles C)
                ltac:(done) w) as Hfs.
  destruct (synthesizeArticles (articles C) w) as [[e|syn] w0]; simpl in *;
    [done|].
  injection Hsyn as ->.
  assert (served_next 2 w0) as Hserved0 by (unfold served_next; by rewrite Hfs).
  apply served_next_S in Hserved0 as [H1 Hserved0].
  apply served_next_S in Hserved0 as [H2 _].
  rewrite stories_insert_run, Htitle, H1.
  unfold fill_story. rewrite bind_run, story_articles_insert_run.
  cbn -[next_served after_request with_story_articles].
  match goal with
  | |- context [(if ?b then ?Wa else ?Wb)] =>
      assert (b = true) as ->
  end.
  { apply andb_true_intro. split; [exact H2|].
    apply bool_decide_eq_true. cbn [story_articles with_stories with_next_uuid
      after_request with_faults]. rewrite Hsa, Hid.
    by apply links_accepted. }
  rewrite (after_links_preserves story_articles ilike) by done.
  cbn. by rewrite Hsa, Hid.
Qed.

(** X18 on the cluster of the two agency reports. *)
Lemma createStoryFromCluster_links_witness :
  story_articles (createStoryFromCluster sample_ilike rates_cluster silent_world).2
  = [ {| sa_story_id := 1; sa_article_id := "a1"; sa_relevance_score := Fin 1 |};
      {| sa_story_id := 1; sa_article_id := "a2"; sa_relevance_score := Fin 1 |} ].
Proof.
  refine (createStoryFromCluster_links sample_ilike rates_cluster silent_world
            _ _ _ _ _ _).
  - simpl. lia.
  - vm_compute. constructor.
  - eexists. split; [vm_compute; reflexivity|]. by eexists.
  - simpl. constructor.
  - refine (bool_decide_unpack _ _). vm_compute. exact I.
  - intros r Hr. by apply elem_of_nil in Hr.
Defined.

(** ** The requests to the text-generation service *)

Lemma attempt_synthesis_world batch first w :
  (attempt_synthesis batch first w).2
  = with_completions (tail (completions w)) w.
Proof.
  unfold attempt_synthesis. rewrite bind_run.
  unfold request_synthesis. rewrite bind_run.
  cbn [next_completion fst snd].
  destruct (default Rejected (head (completions w))) as [| | |p]; try done.
  cbn [ret].
  match goal with
  | |- (?k ?W).2 = _ => assert (preserves (fun w => w) k) as H; [|apply H]
  end.
  apply preserves_bind; [apply preserves_defined|]. intros sections.
  apply preserves_bind; [|intros mapped; apply preserves_ret].
  apply preserves_map_each. intros section.
  apply preserves_bind; [apply preserves_defined|].
  intros citations. apply preserves_ret.
Qed.

Lemma synthesizeArticles_world first rest w :
  (synthesizeArticles (first :: rest) w).2
  = with_completions (tail (completions w)) w.
Proof.
  unfold synthesizeArticles, try_catch.
  pose proof (attempt_synthesis_world (first :: rest) first w) as H.
  by destruct (attempt_synthesis (first :: rest) first w) as [[e|syn] w'].
Qed.

Lemma synthesizeArticles_returns first rest w :
  exists syn, (synthesizeArticles (first :: rest) w).1 = inr syn.
Proof.
  unfold synthesizeArticles, try_catch.
  destruct (attempt_synthesis (first :: rest) first w) as [[e|syn] w'];
    by eexists.
Qed.

Lemma createStoryFromCluster_completions ilike C w :
  2 <= length (articles C) ->
  completions (createStoryFromCluster ilike C w).2 = tail (completions w).
Proof.
  intros Hlen. unfold createStoryFromCluster.
  rewrite (proj2 (Nat.ltb_ge _ _)) by done.
  rewrite try_catch_world, materialize_unfold.
  destruct (articles C) as [|first rest] eqn:EC; [simpl in Hlen; lia|].
  pose proof (synthesizeArticles_world first rest w) as Hw.
  destruct (synthesizeArticles (first :: rest) w) as [[e|syn] w0]; simpl in Hw;
    subst w0; [done|].
  rewrite stories_insert_run.
  destruct (syn_title syn) as [t|]; [|done].
  destruct (next_served (with_completions (tail (completions w)) w)); [|done].
  by rewrite (fill_story_preserves completions ilike).
Qed.

Lemma create_stories_completions ilike found counted w :
  Forall (fun C => 2 <= length (articles C)) found ->
  completions (create_stories ilike found counted w).2
  = drop (length found) (completions w).
Proof.
  intros Hall. revert counted w.
  induction Hall as [|C found HC _ IH]; intros counted w; [done|].
  cbn [create_stories length]. rewrite bind_run.
  pose proof (createStoryFromCluster_completions ilike C w HC) as Hone.
  destruct (createStoryFromCluster_returns ilike C w) as [r Hr].
  destruct (createStoryFromCluster ilike C w) as [[e|r'] w1]; simpl in *;
    [done|].
  rewrite IH, Hone. destruct (completions w); simpl; [by rewrite drop_nil|done].
Qed.

Lemma getUnassignedArticles_completions w :
  completions (getUnassignedArticles w).2 = completions w.
Proof.
  cbv [getUnassignedArticles mbind Eff_bind bind served get_world ret].
  by destruct (next_served w).
Qed.

(** X19: a run of the clustering job sends exactly one request to the
    text-generation service for each cluster of two or more articles
    that it reports, and none besides: the answers that the service has
    ready are used up by that number, whatever they are. *)
Theorem runClusteringJob_one_request_per_cluster
    (Date_getTime : string -> option Z) (ilike : string -> string -> bool)
    (w : World) :
  exists r,
    (runClusteringJob Date_getTime ilike w).1 = inr r
    /\ completions (runClusteringJob Date_getTime ilike w).2
       = drop (clusters r) (completions w).
Proof.
  unfold runClusteringJob. rewrite bind_run.
  pose proof (getUnassignedArticles_completions w) as Hc.
  destruct (getUnassignedArticles_run w) as (batch & w0 & E & _).
  rewrite E in *. simpl in Hc.
  destruct (length batch <? 2); [by eexists|].
  rewrite bind_run.
  set (valid := filter _ _).
  pose proof (create_stories_completions ilike valid 0 w0) as Hn.
  destruct (create_stories_bound ilike valid 0 w0) as (k & w' & new & E' & _).
  rewrite E' in *. simpl in *. eexists. split; [done|]. simpl.
  rewrite Hn, Hc; [done|].
  apply Forall_forall. intros C [HC _]%list_elem_of_filter.
  destruct (length (articles C)) as [|[|n]]; [done|done|lia].
Qed.

(** ** The synthesis service *)

(** X20: [synthesizeArticles] raises an exception for the empty list,
    without a request; for every other list it returns a synthesis,
    whatever the answer of the text-generation service, uses up exactly
    one answer, and leaves the tables as they are. *)
Theorem synthesizeArticles_rejects_only_empty (batch : list Article) (w : World) :
  synthesizeArticles [] w
  = (inl (Error "No articles provided for synthesis"), w)
  /\ (batch <> [] ->
      (exists syn, (synthesizeArticles batch w).1 = inr syn)
      /\ (synthesizeArticles batch w).2 = with_completions (tail (completions w)) w
      /\ same_tables w (synthesizeArticles batch w).2).
Proof.
  split; [done|]. intros Hne. destruct batch as [|first rest]; [done|].
  split_and!.
  - apply synthesizeArticles_returns.
  - apply synthesizeArticles_world.
  - apply synthesizeArticles_same_tables.
Qed.

(** X20 on the two agency reports. *)
Lemma synthesizeArticles_rejects_only_empty_witness :
  [rates_ap; rates_reuters] <> []
  /\ exists syn, (synthesizeArticles [rates_ap; rates_reuters] silent_world).1
                 = inr syn.
Proof.
  assert ([rates_ap; rates_reuters] <> []) as H by discriminate.
  split; [exact H|].
  exact (proj1 (proj2 (synthesizeArticles_rejects_only_empty
                         [rates_ap; rates_reuters] silent_world) H)).
Defined.

Lemma resolve_citation_known batch first citation :
  first ∈ batch ->
  cit_article_id (resolve_citation batch first citation) ∈ map id batch.
Proof.
  intros Hfirst. unfold resolve_citation, article_at. simpl.
  destruct (0 <=? default 0 (raw_article_index citation))%Z;
    [|by apply list_elem_of_fmap_2].
  destruct (batch !! _) as [a|] eqn:E; [|by apply list_elem_of_fmap_2].
  apply list_elem_of_lookup_2 in E.
  destruct (String.eqb (id a) ""); by apply list_elem_of_fmap_2.
Qed.

Lemma map_each_Forall {A B} (f : A -> Eff B) (P : B -> Prop) xs w ys w' :
  (forall x w y w', f x w = (inr y, w') -> P y) ->
  map_each f xs w = (inr ys, w') -> Forall P ys.
Proof.
  intros Hf. revert w ys w'. induction xs as [|x xs IH]; intros w ys w'; simpl.
  - by intros [= <- <-].
  - rewrite bind_run. destruct (f x w) as [[e|y] w1] eqn:Ex; [done|].
    rewrite bind_run. destruct (map_each f xs w1) as [[e|ys'] w2] eqn:Ey; [done|].
    intros [= <- <-]. constructor; [by eapply Hf|by eapply IH].
Qed.

Lemma attempt_synthesis_citations batch first w syn w' :
  first ∈ batch ->
  attempt_synthesis batch first w = (inr syn, w') ->
  Forall (fun section =>
            Forall (fun c => cit_article_id c ∈ map id batch)
                   (sec_citations section))
         (syn_sections syn).
Proof.
  intros Hfirst. unfold attempt_synthesis. rewrite bind_run.
  destruct (request_synthesis w) as [[e|p] w1]; [done|].
  rewrite bind_run. destruct (raw_sections p) as [sections|]; [|done].
  cbn [defined ret]. rewrite bind_run.
  match goal with
  | |- context [map_each ?F sections w1] =>
      destruct (map_each F sections w1) as [[e|mapped] w2] eqn:Em; [done|]
  end.
  intros [= <- <-]. simpl.
  eapply map_each_Forall; [|exact Em].
  intros section w0 y w0'. cbv beta. rewrite bind_run.
  destruct (raw_sec_citations section) as [citations|]; [|done].
  intros [= <- <-]. simpl.
  apply Forall_forall. intros c (raw & -> & _)%list_elem_of_fmap.
  by apply resolve_citation_known.
Qed.

(** X21: every citation of a synthesis that [synthesizeArticles] returns
    carries the id of one of the articles it was given, whether the
    synthesis comes from the answer of the text-generation service,
    whatever article index that answer names, or is the basic one. *)
Theorem synthesizeArticles_cites_its_articles
    (batch : list Article) (w : World) (syn : SynthesisResult) :
  (synthesizeArticles batch w).1 = inr syn ->
  Forall (fun section =>
            Forall (fun c => cit_article_id c ∈ map id batch)
                   (sec_citations section))
         (syn_sections syn).
Proof.
  destruct batch as [|first rest]; [done|].
  unfold synthesizeArticles, try_catch.
  destruct (attempt_synthesis (first :: rest) first w) as [[e|syn'] w'] eqn:E.
  - intros [= <-]. simpl. constructor; [|done].
    apply Forall_forall. intros c (a & -> & Ha)%list_elem_of_fmap.
    change (id a ∈ map id (first :: rest)). by apply list_elem_of_fmap_2.
  - intros [= <-]. eapply attempt_synthesis_citations; [|exact E]. by left.
Qed.

(** X21 on the two agency reports and a payload that parses. *)
Lemma synthesizeArticles_cites_its_articles_witness :
  exists syn,
    (synthesizeArticles [rates_ap; rates_reuters] entityless_world).1 = inr syn
    /\ Forall (fun section =>
                 Forall (fun c => cit_article_id c ∈ ["a1"; "a2"])
                        (sec_citations section))
              (syn_sections syn).
Proof.
  destruct (synthesizeArticles_returns rates_ap [rates_reuters] entityless_world)
    as [syn H].
  exists syn. split; [exact H|].
  exact (synthesizeArticles_cites_its_articles [rates_ap; rates_reuters]
           entityless_world syn H).
Defined.

(** ** The two jobs of the scheduler *)

Lemma trigger_other_job job other now s :
  other <> job ->
  Scheduler.jobStatus (Scheduler.trigger job now s) other
  = Scheduler.jobStatus s other.
Proof.
  intros Hne. unfold Scheduler.trigger.
  destruct (Scheduler.isRunning _); [done|]. simpl.
  by rewrite SchedulerFacts.update_other.
Qed.

Lemma settle_other_job job other outcome s s' :
  other <> job -> Scheduler.settle job outcome s = Some s' ->
  Scheduler.jobStatus s' other = Scheduler.jobStatus s other.
Proof.
  intros Hne. unfold Scheduler.settle.
  destruct (Scheduler.in_flight s job); [done|]. intros [= <-]. simpl.
  by rewrite SchedulerFacts.update_other.
Qed.

Lemma step_leaves_other_job s e s' job :
  Scheduler.step s e = Some s' ->
  Scheduler.triggers job e = false -> Scheduler.settles job e = false ->
  Scheduler.jobStatus s' job = Scheduler.jobStatus s job
  /\ Scheduler.executions s' job = Scheduler.executions s job.
Proof.
  intros Hstep Ht Hs. destruct e as [job' now|job' outcome]; simpl in *.
  - apply bool_decide_eq_false in Ht. injection Hstep as <-.
    split; [by apply trigger_other_job|].
    unfold Scheduler.trigger. destruct (Scheduler.isRunning _); [done|]. simpl.
    by rewrite SchedulerFacts.update_other.
  - apply bool_decide_eq_false in Hs.
    split; [by eapply settle_other_job|].
    unfold Scheduler.settle in Hstep.
    destruct (Scheduler.in_flight s job'); [done|]. by injection Hstep as <-.
Qed.

Lemma run_leaves_other_job events s s' job :
  Scheduler.run s events = Some s' ->
  forallb (fun e => negb (Scheduler.triggers job e) && negb (Scheduler.settles job e))
          events = true ->
  Scheduler.jobStatus s' job = Scheduler.jobStatus s job
  /\ Scheduler.executions s' job = Scheduler.executions s job.
Proof.
  revert s. induction events as [|e events IH]; intros s Hrun Hother; simpl in *.
  - by injection Hrun as <-.
  - apply andb_true_iff in Hother as [He Hother].
    apply andb_true_iff in He as [Ht Hs].
    apply negb_true_iff in Ht, Hs.
    destruct (Scheduler.step s e) as [s1|] eqn:Hstep; [|done].
    destruct (step_leaves_other_job s e s1 job Hstep Ht Hs) as [<- <-].
    by apply IH.
Qed.

(** X22: the two jobs do not interfere. Whatever happens to one job, its
    triggers, manual or scheduled, and the ends of its runs, leaves the
    status of the other job and the number of its runs as they are; so a
    manual trigger of the ingestion never touches the clustering, and the
    other way round. *)
Theorem jobs_do_not_interfere
    (s s' : Scheduler.State) (events : list Scheduler.Event) (job : Scheduler.Job) :
  Scheduler.run s events = Some s' ->
  forallb (fun e => negb (Scheduler.triggers job e) && negb (Scheduler.settles job e))
          events = true ->
  (Scheduler.jobStatus s' job = Scheduler.jobStatus s job
   /\ Scheduler.executions s' job = Scheduler.executions s job)
  /\ (forall now,
        Scheduler.jobStatus (triggerIngestion now s) Scheduler.Clustering
        = Scheduler.jobStatus s Scheduler.Clustering)
  /\ (forall now,
        Scheduler.jobStatus (triggerClustering now s) Scheduler.Ingestion
        = Scheduler.jobStatus s Scheduler.Ingestion).
Proof.
  intros Hrun Hother. split_and!.
  - by eapply run_leaves_other_job.
  - by eapply run_leaves_other_job.
  - intros now. by apply trigger_other_job.
  - intros now. by apply trigger_other_job.
Qed.

(** X22 after one trigger of the ingestion. *)
Lemma jobs_do_not_interfere_witness :
  Scheduler.isRunning
    (Scheduler.jobStatus
       (triggerIngestion "2026-01-18T12:00:00.000Z" Scheduler.init)
       Scheduler.Clustering)
  = false.
Proof.
  refine (f_equal Scheduler.isRunning
            (proj1 (proj1 (jobs_do_not_interfere Scheduler.init
               (triggerIngestion "2026-01-18T12:00:00.000Z" Scheduler.init)
               [Scheduler.Trigger Scheduler.Ingestion "2026-01-18T12:00:00.000Z"]
               Scheduler.Clustering _ _)))).
  - reflexivity.
  - reflexivity.
Defined.

(** What the status of a job tells in a state the scheduler can be in. *)
Lemma reachable_status s :
  Scheduler.reachable s ->
  forall job,
    let st := Scheduler.jobStatus s job in
    (Scheduler.executions s job = 0 ->
     Scheduler.lastRun st = None /\ Scheduler.isRunning st = false
     /\ Scheduler.lastResult st = None)
    /\ (0 < Scheduler.executions s job ->
        is_Some (Scheduler.lastRun st)
        /\ (Scheduler.isRunning st = false -> is_Some (Scheduler.lastResult st))).
Proof.
  induction 1 as [|s e s' Hreach IH Hstep]; intros job; [by split; [|simpl; lia]|].
  pose proof (SchedulerFacts.reachable_in_flight s Hreach) as Hfl.
  destruct e as [job' now|job' outcome]; simpl in Hstep.
  - injection Hstep as <-. unfold Scheduler.trigger.
    destruct (Scheduler.isRunning (Scheduler.jobStatus s job')) eqn:Hrun;
      [apply IH|]. simpl.
    destruct (decide (job = job')) as [->|Hne].
    + rewrite !SchedulerFacts.update_same. simpl. split; [lia|].
      intros _. split; [by eexists|done].
    + rewrite !SchedulerFacts.update_other by done. apply IH.
  - unfold Scheduler.settle in Hstep.
    destruct (Scheduler.in_flight s job') as [|n] eqn:Hn; [done|].
    injection Hstep as <-. simpl.
    destruct (decide (job = job')) as [->|Hne].
    + rewrite !SchedulerFacts.update_same. simpl.
      specialize (Hfl job'). rewrite Hn in Hfl.
      destruct (IH job') as [H0 H1].
      destruct (Scheduler.executions s job') as [|k].
      * destruct (H0 eq_refl) as (_ & Hr & _). rewrite Hr in Hfl. lia.
      * split; [lia|]. intros _. split; [apply H1; lia|by eexists].
    + rewrite !SchedulerFacts.update_other by done. apply IH.
Qed.

(** X23: what [getJobStatus] reports is coherent in every state the
    scheduler can be in: a job whose last run is null is not running and
    has no result; for a job that is not running and has a last run, the
    last result has been assigned, with what the body returned or with
    the error. *)
Theorem getJobStatus_coherent (s : Scheduler.State) (job : Scheduler.Job) :
  Scheduler.reachable s ->
  let st := report_of job (getJobStatus s) in
  (Scheduler.lastRun st = None ->
   Scheduler.isRunning st = false /\ Scheduler.lastResult st = None)
  /\ (Scheduler.isRunning st = false -> is_Some (Scheduler.lastRun st) ->
      is_Some (Scheduler.lastResult st)).
Proof.
  intros Hreach.
  destruct (reachable_status s Hreach job) as [H0 H1].
  assert (report_of job (getJobStatus s)
          = {| Scheduler.lastRun := Scheduler.lastRun (Scheduler.jobStatus s job);
               Scheduler.isRunning := Scheduler.isRunning (Scheduler.jobStatus s job);
               Scheduler.lastResult := Scheduler.lastResult (Scheduler.jobStatus s job) |})
    as -> by (by destruct job).
  simpl. destruct (Scheduler.executions s job) as [|k].
  - destruct (H0 eq_refl) as (Hl & Hr & Hres). split; [done|].
    intros _ [t Ht]. congruence.
  - destruct (H1 ltac:(lia)) as ([t Ht] & Hres). split; [congruence|].
    intros Hidle _. by apply Hres.
Qed.

(** X23 in the initial state. *)
Lemma getJobStatus_coherent_witness :
  Scheduler.reachable Scheduler.init
  /\ Scheduler.isRunning
       (report_of Scheduler.Clustering (getJobStatus Scheduler.init)) = false.
Proof.
  assert (Scheduler.reachable Scheduler.init) as H by constructor.
  split; [exact H|].
  exact (proj1 (proj1 (getJobStatus_coherent Scheduler.init Scheduler.Clustering H)
                  eq_refl)).
Defined.

(** ** The line of a failing statement *)

Lemma join_cons sep x y l :
  join sep (x :: y :: l) = (x ++ sep ++ join sep (y :: l))%string.
Proof. reflexivity. Qed.

Lemma split_lines_cons s line :
  exists first rest, split_lines s line = first :: rest.
Proof.
  revert line. induction s as [|c s IH]; intros line; simpl; [by eexists _, _|].
  destruct (Ascii.eqb c "010"); [by eexists _, _|apply IH].
Qed.

(** The lines, put together again with line feeds, are the text. *)
Lemma split_lines_join s line :
  join line_feed (split_lines s line) = (line ++ s)%string.
Proof.
  revert line. induction s as [|c s IH]; intros line; simpl.
  - by rewrite string_app_nil_r.
  - destruct (Ascii.eqb_spec c "010") as [->|Hc].
    + destruct (split_lines_cons s "") as (first & rest & E).
      specialize (IH ""). rewrite E in *. rewrite join_cons, IH. done.
    + rewrite IH, string_app_assoc. done.
Qed.

Lemma split_lines_no_feed s line :
  "010"%char ∉ chars line ->
  Forall (fun l => "010"%char ∉ chars l) (split_lines s line).
Proof.
  revert line. induction s as [|c s IH]; intros line Hline; simpl.
  - by constructor.
  - destruct (Ascii.eqb_spec c "010") as [->|Hc].
    + constructor; [done|]. apply IH. apply not_elem_of_nil.
    + apply IH. rewrite chars_app. simpl.
      intros [H|H%list_elem_of_singleton]%elem_of_app; [done|]. by apply Hc.
Qed.

Lemma no_feed_before n l :
  "010"%char ∉ l -> filter (fun c => c = "010"%char) (take n l) = [].
Proof.
  intros H. apply filter_none. intros c Hc ->. apply H.
  by apply (subseteq_take n l).
Qed.

Lemma line_feeds_first_line n line rest :
  "010"%char ∉ chars line -> n <= String.length line ->
  line_feeds_before n (line ++ rest) = 0.
Proof.
  intros Hline Hn. unfold line_feeds_before.
  rewrite chars_app, take_app_le by (by rewrite chars_length).
  by rewrite no_feed_before.
Qed.

Lemma line_feeds_later_line n line rest :
  "010"%char ∉ chars line -> String.length line < n ->
  line_feeds_before n (line ++ line_feed ++ rest)
  = S (line_feeds_before (n - (String.length line + 1)) rest).
Proof.
  intros Hline Hn. unfold line_feeds_before.
  rewrite !chars_app, app_assoc.
  rewrite take_app_ge by (rewrite length_app, chars_length; simpl; lia).
  rewrite !filter_app, !length_app, chars_length.
  rewrite (filter_none _ (chars line)) by (by intros c Hc ->).
  reflexivity.
Qed.

Section MigrationFacts.

Context (String_trim : string -> string).

Lemma locate_line_found lines i charCount position :
  Forall (fun l => "010"%char ∉ chars l) lines ->
  lines <> [] ->
  (Z.of_nat charCount < position
   <= Z.of_nat (charCount + String.length (join line_feed lines) + 1))%Z ->
  let k := line_feeds_before (Z.to_nat position - charCount - 1)
                             (join line_feed lines) in
  exists line,
    lines !! k = Some line
    /\ locate_line String_trim lines i charCount position
       = Some (i + k + 1, String_trim line).
Proof.
  intros Hfeeds. revert i charCount.
  induction Hfeeds as [|line rest Hline Hrest IH]; intros i charCount Hne Hp;
    [done|].
  cbn [locate_line]. cbv zeta.
  destruct (Z.leb_spec position (Z.of_nat (charCount + (String.length line + 1))))
    as [Hle|Hgt].
  - exists line.
    assert (line_feeds_before (Z.to_nat position - charCount - 1)
                              (join line_feed (line :: rest)) = 0) as ->.
    { destruct rest as [|y rest].
      - cbn [join]. unfold line_feeds_before. by rewrite no_feed_before.
      - rewrite join_cons. apply line_feeds_first_line; [done|lia]. }
    split; [done|]. do 2 f_equal. lia.
  - destruct rest as [|y rest].
    { cbn [join] in Hp. lia. }
    rewrite join_cons in *.
    assert (String.length (line ++ line_feed ++ join line_feed (y :: rest))
            = String.length line + 1 + String.length (join line_feed (y :: rest)))
      as Hlen by (rewrite <- !chars_length, !chars_app, !length_app; simpl; lia).
    rewrite line_feeds_later_line by (done || lia).
    destruct (IH (i + 1) (charCount + (String.length line + 1)) ltac:(done)
                ltac:(lia)) as (found & Hk & Hfound).
    exists found.
    replace (Z.to_nat position - charCount - 1 - (String.length line + 1))
      with (Z.to_nat position - (charCount + (String.length line + 1)) - 1) by lia.
    split; [done|]. rewrite Hfound. do 2 f_equal. lia.
Qed.

Lemma locate_line_beyond lines i charCount position :
  lines <> [] ->
  (Z.of_nat (charCount + String.length (join line_feed lines) + 1) < position)%Z ->
  locate_line String_trim lines i charCount position = None.
Proof.
  revert i charCount. induction lines as [|line rest IH]; intros i charCount Hne Hp;
    [done|].
  cbn [locate_line]. cbv zeta.
  destruct rest as [|y rest].
  - cbn [join] in Hp. rewrite (proj2 (Z.leb_gt _ _)) by lia. done.
  - rewrite join_cons in Hp.
    assert (String.length (line ++ line_feed ++ join line_feed (y :: rest))
            = String.length line + 1 + String.length (join line_feed (y :: rest)))
      as Hlen by (rewrite <- !chars_length, !chars_app, !length_app; simpl; lia).
    rewrite (proj2 (Z.leb_gt _ _)) by lia.
    apply IH; [done|lia].
Qed.

(** X24: when a migration fails at a position between 1 and the length
    of the script plus one, the line that [runMigrations] reports is the
    line that holds the character at that position: its number is one
    more than the number of line feeds before the position. A position
    beyond that reports nothing, a position below 1 reports the first
    line, and so does none that is not a number report anything. A
    position counts the characters as the string holds them. *)
Theorem error_line_reports_the_line migrationSQL position :
  ((1 <= position <= Z.of_nat (String.length migrationSQL) + 1)%Z ->
   let k := line_feeds_before (Z.to_nat position - 1) migrationSQL in
   exists line,
     split_lines migrationSQL "" !! k = Some line
     /\ error_line String_trim migrationSQL (Some position)
        = Some (k + 1, String_trim line))
  /\ ((Z.of_nat (String.length migrationSQL) + 1 < position)%Z ->
      error_line String_trim migrationSQL (Some position) = None)
  /\ ((position <= 0)%Z ->
      exists line rest,
        split_lines migrationSQL "" = line :: rest
        /\ error_line String_trim migrationSQL (Some position)
           = Some (1, String_trim line))
  /\ error_line String_trim migrationSQL None = None.
Proof.
  pose proof (split_lines_join migrationSQL "") as Hjoin.
  change ("" ++ migrationSQL)%string with migrationSQL in Hjoin.
  destruct (split_lines_cons migrationSQL "") as (first & rest & E).
  split_and!; [| | |done]; unfold error_line.
  - intros Hp.
    destruct (locate_line_found (split_lines migrationSQL "") 0 0 position)
      as (line & Hk & Hfound).
    + apply split_lines_no_feed, not_elem_of_nil.
    + by rewrite E.
    + rewrite Hjoin. lia.
    + rewrite Hjoin, Nat.sub_0_r in *. by exists line.
  - intros Hp. apply locate_line_beyond; [by rewrite E|]. rewrite Hjoin. lia.
  - intros Hp. exists first, rest. split; [done|]. rewrite E.
    cbn [locate_line]. cbv zeta. by rewrite (proj2 (Z.leb_le _ _)) by lia.
Qed.

End MigrationFacts.

(** X24 on a script whose second line fails. *)
Lemma error_line_reports_the_line_witness :
  (1 <= 35 <= Z.of_nat (String.length sample_script) + 1)%Z
  /\ exists line,
       split_lines sample_script "" !! 1 = Some line
       /\ error_line sample_trim sample_script (Some 35%Z)
          = Some (2, sample_trim line).
Proof.
  assert (1 <= 35 <= Z.of_nat (String.length sample_script) + 1)%Z as H
    by (vm_compute; split; discriminate).
  split; [exact H|].
  exact (proj1 (error_line_reports_the_line sample_trim sample_script 35) H).
Defined.

(** X25: the hero image of a story is the image of the first article of
    the cluster that has one: it is never the empty string, the articles
    before that one have none, and a story has no hero image only when no
    article of the cluster has an image. *)
Theorem hero_image_of_first_illustrated (batch : list Article) :
  (hero_image batch = None
   <-> Forall (fun a => truthy (image_url a) = false) batch)
  /\ (forall u,
        hero_image batch = Some u ->
        u <> ""
        /\ exists before a after,
             batch = before ++ a :: after
             /\ image_url a = Some u
             /\ Forall (fun b => truthy (image_url b) = false) before).
Proof.
  unfold hero_image. induction batch as [|a batch [IH1 IH2]]; simpl.
  - split; [by split|done].
  - destruct (truthy (image_url a)) eqn:Ha; simpl.
    + split.
      * split; [|intros H; apply Forall_cons in H as [H _]; congruence].
        destruct (image_url a); [done|]. simpl in Ha. done.
      * intros u Hu. split.
        { intros ->. rewrite Hu in Ha. done. }
        by exists [], a, batch.
    + split.
      * rewrite IH1. split; [by constructor|].
        by intros [_ H]%Forall_cons.
      * intros u Hu. destruct (IH2 u Hu) as (Hne & before & b & after & -> & Hb & H).
        split; [done|]. exists (a :: before), b, after.
        split; [done|]. split; [done|]. by constructor.
Qed.

(** ** The report of a run *)

Lemma valid_clusters_members found :
  2 * length (filter (fun C => Is_true (2 <=? length (articles C))) found)
  <= length (members_of found).
Proof.
  unfold members_of. induction found as [|C found IH]; [done|].
  rewrite filter_cons. cbn [map concat]. rewrite length_app.
  destruct (decide _) as [H|H]; [|lia].
  cbn [length]. apply Is_true_true, Nat.leb_le in H. lia.
Qed.

(** X26: the report of a run of the clustering job is coherent: it
    counts no more stories than clusters, and at least two processed
    articles for each cluster. *)
Theorem runClusteringJob_report_coherent
    (Date_getTime : string -> option Z) (ilike : string -> string -> bool)
    (w : World) :
  exists r,
    (runClusteringJob Date_getTime ilike w).1 = inr r
    /\ storiesCreated r <= clusters r
    /\ 2 * clusters r <= articlesProcessed r.
Proof.
  unfold runClusteringJob. rewrite bind_run.
  destruct (getUnassignedArticles_run w) as (batch & w0 & E & _). rewrite E.
  destruct (length batch <? 2); [eexists; split; [done|simpl; lia]|].
  rewrite bind_run.
  set (found := clusterArticles Date_getTime batch default_threshold).
  set (valid := filter _ found).
  destruct (create_stories_bound ilike valid 0 w0)
    as (k & w' & new & E' & _ & Hk & Hnew).
  rewrite E'. eexists. split; [done|]. simpl.
  pose proof (length_filter (fun C => Is_true (2 <=? length (articles C))) valid)
    as Hfilter.
  pose proof (valid_clusters_members found) as Hvalid.
  pose proof (clusterArticles_members_bound Date_getTime batch default_threshold)
    as Hmembers.
  fold found in Hmembers. fold valid in Hvalid. lia.
Qed.

(** ** A synthesis taken from the answer *)

Lemma map_each_sections batch first sections w :
  Forall (fun section => is_Some (raw_sec_citations section)) sections ->
  map_each
    (fun section =>
       citations ← defined (raw_sec_citations section);
       ret {| sec_title := raw_sec_title section;
              sec_content := raw_sec_content section;
              sec_citations := map (resolve_citation batch first) citations |})
    sections w
  = (inr (map (resolve_section batch first) sections), w).
Proof.
  induction 1 as [|section sections [citations Hc] _ IH]; [done|].
  cbn [map_each map]. rewrite bind_run, bind_run, Hc. cbn [defined ret].
  rewrite bind_run, IH. unfold resolve_section at 2. by rewrite Hc.
Qed.

(** X27: when the text-generation service answers with a payload that
    has its sections, each with its citations, [synthesizeArticles]
    returns that payload and not the basic synthesis: title, summary,
    entities, connections and impacts as they are in the payload, read
    without a check, and the sections in their order with each citation
    resolved to the id of an article. *)
Theorem synthesizeArticles_takes_the_payload
    (first : Article) (rest : list Article) (w : World) (p : RawSynthesis)
    (answers : list Completion) (sections : list RawSection) :
  completions w = Payload p :: answers ->
  raw_sections p = Some sections ->
  Forall (fun section => is_Some (raw_sec_citations section)) sections ->
  (synthesizeArticles (first :: rest) w).1
  = inr {| syn_title := raw_title p;
           syn_summary := raw_summary p;
           syn_sections := map (resolve_section (first :: rest) first) sections;
           syn_entities := raw_entities p;
           syn_connections := raw_connections p;
           syn_impacts := raw_impacts p |}.
Proof.
  intros Hw Hsections Hcitations.
  unfold synthesizeArticles, try_catch, attempt_synthesis, request_synthesis.
  rewrite !bind_run. cbn [next_completion]. rewrite Hw.
  cbn [head default from_option Datatypes.id ret].
  rewrite bind_run, Hsections. cbn [defined ret].
  rewrite bind_run, map_each_sections by done. done.
Qed.

(** X27 on a payload with one section and one citation. *)
Lemma synthesizeArticles_takes_the_payload_witness :
  completions entityless_world = [Payload payload_without_entities]
  /\ (synthesizeArticles [rates_ap; rates_reuters] entityless_world).1
     = inr {| syn_title := Some "Central bank raises rates";
              syn_summary := Some "The central bank raised interest rates.";
              syn_sections :=
                [ {| sec_title := "Summary";
                     sec_content := "Rates went up [AP].";
                     sec_citations :=
                       [ {| cit_source := "AP"; cit_article_id := "a1" |} ] |} ];
              syn_entities := None;
              syn_connections := Some [];
              syn_impacts := Some [] |}.
Proof.
  split; [reflexivity|].
  refine (synthesizeArticles_takes_the_payload rates_ap [rates_reuters]
            entityless_world payload_without_entities [] _ eq_refl eq_refl _).
  repeat constructor. by eexists.
Defined.

(** ** When a story is reported *)

Lemma fill_story_outcome ilike C syn story w :
  (has_all_lists syn -> (fill_story ilike C syn story w).1 = inr (Some story))
  /\ (~ has_all_lists syn -> exists e, (fill_story ilike C syn story w).1 = inl e).
Proof.
  split.
  - intros ([found H1] & [connections H2] & [impacts H3]).
    by eapply fill_story_complete.
  - intros Hnot. unfold fill_story. rewrite bind_run.
    destruct (story_articles_insert _ w) as [r w1] eqn:E.
    rewrite story_articles_insert_run in E. injection E as <- _.
    rewrite bind_run.
    destruct (syn_entities syn) as [found|] eqn:H1; [|by eexists].
    cbn [defined ret]. rewrite bind_run.
    destruct (returns_for_each (save_entity ilike story) found
                (save_entity_returns ilike story) w1) as [[] Hr1].
    destruct (for_each (save_entity ilike story) found w1) as [[e|[]] w2];
      [done|].
    rewrite bind_run.
    destruct (syn_connections syn) as [connections|] eqn:H2; [|by eexists].
    cbn [defined ret]. rewrite bind_run.
    destruct (returns_for_each (save_connection ilike story) connections
                (save_connection_returns ilike story) w2) as [[] Hr2].
    destruct (for_each (save_connection ilike story) connections w2)
      as [[e|[]] w3]; [done|].
    rewrite bind_run.
    destruct (syn_impacts syn) as [impacts|] eqn:H3; [|by eexists].
    destruct Hnot. unfold has_all_lists. rewrite H1, H2, H3.
    by split_and!; eexists.
Qed.

(** X28: a story id that [createStoryFromCluster] reports is the id of
    a stored story. The function ends without an exception, and when it
    returns an id, the cluster has two or more articles, the database took
    the story row, the synthesis had a title and its three lists of
    entities, connections and impacts, and the table of stories is the one
    before the call followed by one row, which carries the reported id, the
    title of the synthesis and the image of the first illustrated article.
    So where one of these conditions fails, the function returns
    [null]. The converse is not stated: once the row is stored the code
    can still throw where the records here have no missing field, as on a
    connection without a relationship, and then it returns [null] as
    well. *)
Theorem createStoryFromCluster_reported_story
    (ilike : string -> string -> bool) (C : Cluster) (w : World) :
  (exists r, (createStoryFromCluster ilike C w).1 = inr r)
  /\ forall story,
       (createStoryFromCluster ilike C w).1 = inr (Some story) ->
       2 <= length (articles C)
       /\ next_served w = true
       /\ story = next_uuid w
       /\ exists syn row,
            (synthesizeArticles (articles C) w).1 = inr syn
            /\ has_all_lists syn
            /\ syn_title syn = Some (story_title row)
            /\ story_id row = story
            /\ story_hero_image_url row = hero_image (articles C)
            /\ stories (createStoryFromCluster ilike C w).2 = stories w ++ [row].
Proof.
  split; [apply createStoryFromCluster_returns|].
  intros story. unfold createStoryFromCluster.
  destruct (Nat.ltb_spec (length (articles C)) 2) as [|Hlen]; [done|].
  rewrite try_catch_world. unfold try_catch. rewrite materialize_unfold.
  pose proof (synthesizeArticles_preserves faults (articles C) ltac:(done) w) as Hf.
  pose proof (synthesizeArticles_preserves next_uuid (articles C) ltac:(done) w)
    as Hu.
  pose proof (synthesizeArticles_preserves stories (articles C) ltac:(done) w)
    as Hs.
  destruct (synthesizeArticles (articles C) w) as [[e|syn] w0]; simpl in Hf, Hu, Hs;
    [done|].
  assert (next_served w0 = next_served w) as Hserved
    by (unfold next_served; by rewrite Hf).
  rewrite stories_insert_run, Hserved, Hu, Hs.
  destruct (syn_title syn) as [t|] eqn:Htitle; [|done].
  destruct (next_served w) eqn:Hnext; [|done].
  match goal with
  | |- context [fill_story ilike C syn ?i ?W] =>
      destruct (fill_story_outcome ilike C syn i W) as [Hall Hnot];
      pose proof (fill_story_preserves stories ilike ltac:(done) ltac:(done)
                    ltac:(done) ltac:(done) ltac:(done) ltac:(done) C syn i
                    ltac:(done) W) as Hkept
  end.
  destruct (fill_story _ _ _ _ _) as [[e|r] w1] eqn:Hfill; [done|].
  simpl in *. intros [= ->].
  assert (has_all_lists syn) as Hlists.
  { unfold has_all_lists in *.
    destruct (syn_entities syn), (syn_connections syn), (syn_impacts syn);
      [by split_and!; eexists|..];
      (destruct Hnot as [e He]; [by intros ([? ?] & [? ?] & [? ?])|done]). }
  specialize (Hall Hlists). injection Hall as ->.
  split_and!; try done.
  eexists syn, _. split_and!; [done|done|..|exact Hkept]; done.
Qed.

(** X28 on the cluster of the two agency reports. *)
Lemma createStoryFromCluster_reported_story_witness :
  (createStoryFromCluster sample_ilike rates_cluster silent_world).1
  = inr (Some 1)
  /\ 2 <= length (articles rates_cluster)
  /\ next_served silent_world = true
  /\ 1 = next_uuid silent_world.
Proof.
  assert ((createStoryFromCluster sample_ilike rates_cluster silent_world).1
          = inr (Some 1)) as Hret by reflexivity.
  split; [exact Hret|].
  destruct (proj2 (createStoryFromCluster_reported_story sample_ilike rates_cluster
                     silent_world) 1 Hret) as (Hlen & Hserved & Hid & _).
  split; [exact Hlen|]. split; [exact Hserved|exact Hid].
Defined.

(** ** The links that a run writes *)

Lemma createStoryFromCluster_new_links ilike C w :
  story_articles (createStoryFromCluster ilike C w).2 = story_articles w
  \/ exists story,
       story_articles (createStoryFromCluster ilike C w).2
       = story_articles w ++ cluster_links story C.
Proof.
  unfold createStoryFromCluster.
  destruct (length (articles C) <? 2); [by left|].
  rewrite try_catch_world, materialize_unfold.
  pose proof (synthesizeArticles_preserves story_articles (articles C)
                ltac:(done) w) as Hsa.
  destruct (synthesizeArticles (articles C) w) as [[e|syn] w0]; simpl in Hsa;
    [by left|].
  rewrite stories_insert_run.
  destruct (syn_title syn) as [t|]; [|by left].
  destruct (next_served w0); [|by left].
  match goal with
  | |- context [fill_story ilike C syn ?s ?W1] =>
      assert (story_articles (fill_story ilike C syn s W1).2
              = story_articles (story_articles_insert (cluster_links s C) W1).2)
        as Hfill;
      [|rewrite story_articles_insert_run in Hfill; cbn [snd] in Hfill;
        destruct (next_served W1 && _) in Hfill;
        [right; exists s|left]; rewrite Hfill; cbn; by rewrite Hsa]
  end.
  unfold fill_story. rewrite bind_run. unfold cluster_links.
  destruct (story_articles_insert _ _) as [[e|[]] w2]; [done|].
  by apply (after_links_preserves story_articles ilike).
Qed.

Lemma create_stories_new_links ilike found counted w :
  exists new,
    story_articles (create_stories ilike found counted w).2
    = story_articles w ++ new
    /\ map sa_article_id new `sublist_of` map id (members_of found)
    /\ Forall (fun r => exists C, C ∈ found /\ sa_relevance_score r = similarity C)
              new.
Proof.
  revert counted w. induction found as [|C found IH]; intros counted w.
  - exists []. by rewrite app_nil_r.
  - cbn [create_stories]. rewrite bind_run.
    pose proof (createStoryFromCluster_new_links ilike C w) as Hone.
    destruct (createStoryFromCluster_returns ilike C w) as [outcome Hr].
    destruct (createStoryFromCluster ilike C w) as [[e|r] w1]; simpl in Hone, Hr;
      [done|].
    destruct (IH (if r is Some _ then counted + 1 else counted) w1)
      as (new & Hnew & Hsub & Hscore).
    assert (Forall (fun r0 => exists C0, C0 ∈ C :: found
                              /\ sa_relevance_score r0 = similarity C0) new)
      as Hscore'.
    { eapply Forall_impl; [exact Hscore|].
      intros r0 (C0 & HC0 & E). exists C0. split; [by right|done]. }
    unfold members_of in *. cbn [map concat]. rewrite map_app.
    destruct Hone as [Hone|[story Hone]].
    + exists new. rewrite Hnew, Hone. split; [done|].
      split; [by apply sublist_inserts_l|done].
    + exists (cluster_links story C ++ new).
      rewrite Hnew, Hone, <- app_assoc. split; [done|]. split.
      * rewrite map_app. apply sublist_app; [|done].
        unfold cluster_links. rewrite map_map. done.
      * apply Forall_app. split; [|done].
        apply Forall_forall. intros r0 (a & -> & _)%list_elem_of_fmap.
        exists C. split; [by left|done].
Qed.

Lemma members_of_filter (P : Cluster -> Prop) `{!forall C, Decision (P C)} found :
  map id (members_of (filter P found)) `sublist_of` map id (members_of found).
Proof.
  unfold members_of. induction found as [|C found IH]; [done|].
  rewrite filter_cons. cbn [map concat]. rewrite map_app.
  destruct (decide (P C)).
  - cbn [map concat]. rewrite map_app. by apply sublist_app.
  - by apply sublist_inserts_l.
Qed.

(** X29: the links that a run of the clustering job adds to
    [story_articles] name articles of its batch, no article twice, each
    with a relevance score between 0.35 and 1: a run links no article to
    two stories. *)
Theorem runClusteringJob_links
    (Date_getTime : string -> option Z) (ilike : string -> string -> bool)
    (w : World) :
  exists batch new,
    (getUnassignedArticles w).1 = inr batch
    /\ story_articles (runClusteringJob Date_getTime ilike w).2
       = story_articles w ++ new
    /\ NoDup (map sa_article_id new)
    /\ Forall (fun r => sa_article_id r ∈ map id batch
                        /\ exists x, sa_relevance_score r = Fin x
                                     /\ (35 / 100 <= x <= 1)%R)
              new.
Proof.
  unfold runClusteringJob. rewrite bind_run.
  pose proof (getUnassignedArticles_keeps
                (fun w' => story_articles w' = story_articles w)
                ltac:(done) w eq_refl) as Hsa.
  destruct (getUnassignedArticles_run w) as (batch & w0 & E & _).
  rewrite E in *. simpl in Hsa. exists batch.
  destruct (length batch <? 2).
  { exists []. rewrite app_nil_r. split_and!; try done. constructor. }
  rewrite bind_run.
  set (found := clusterArticles Date_getTime batch default_threshold).
  set (valid := filter _ found).
  destruct (create_stories_new_links ilike valid 0 w0)
    as (new & Hnew & Hsub & Hscore).
  destruct (create_stories_bound ilike valid 0 w0) as (k & w' & rows & E' & _).
  rewrite E' in *. simpl in Hnew |- *. exists new. rewrite Hnew, Hsa.
  destruct (clusterArticles_ids Date_getTime batch default_threshold)
    as (Hin & Hnd & Hids). fold found in Hin, Hnd, Hids.
  assert (map sa_article_id new `sublist_of` map id (members_of found)) as Hsub'.
  { etrans; [exact Hsub|]. apply members_of_filter. }
  split_and!; [done|done|by eapply sublist_NoDup|].
  apply Forall_forall. intros r Hr. split.
  - apply Hids. apply (sublist_subseteq _ _ Hsub').
    by apply list_elem_of_fmap_2.
  - rewrite Forall_forall in Hscore. destruct (Hscore r Hr) as (C & HC & ->).
    apply list_elem_of_filter in HC as [_ HC].
    pose proof (clusterArticles_well_grown Date_getTime batch default_threshold)
      as Hgrown.
    rewrite Forall_forall in Hgrown.
    destruct (well_grown_score_range (35 / 100) C (Hgrown C HC))
      as (x & Hx & Hrange).
    exists x. split; [done|].
    rewrite Rmin_left in Hrange by lra. done.
Qed.
